(** * Promize: a shallow embedding of src/Promise.js

    The file models the first (complete) draft of the class [Promize]
    (lines 1-357 of src/Promise.js): the private fields of every instance
    live in a heap indexed by object identity, the closures that the code
    creates are defunctionalised into the constructors of [func],
    [callback] and [job], and [queueMicrotask] appends to an explicit FIFO
    queue that [tick] drains one job at a time.

    Functions written by a client are values of [func] too ([Arrow]): they
    log, call [then], and return or throw a value.  A handler that calls
    [then] re-enters the class while [#executeCallbacks] iterates (line
    103 under lines 261 and 269); that call is left open in the
    definitions ([ClientThen]) and closed at the end of the file by
    [then_at], [then] on a call stack of a given depth. *)

From Stdlib Require Import ZArith String.
From stdpp Require Import base list.

Local Open Scope string_scope.
Local Open Scope list_scope.
Local Open Scope Z_scope.

(** ** Data model *)

(** [STATES] (lines 19-23). *)
Inductive STATES : Type := PENDING | REJECTED | FULFILLED.

Global Instance STATES_eq_dec : EqDecision STATES.
Proof. solve_decision. Defined.

(** Identity of a [Promize] instance: its index in the heap. *)
Abbreviation pid := nat (only parsing).

(** Identity of one activation of [all] / [allSettled]: the pair of
    captured locals [completedPromises] and [result]. *)
Abbreviation eid := nat (only parsing).

(** Function values.  Every closure the source creates is one constructor
    that records the variables it captures; [Arrow] is a function written
    by the client,

      [x => { body; return e }]   or   [x => { body; throw e }],

    whose body is a sequence of calls ([stmt]) and whose expressions are
    the parameter or a captured value ([expr]).  With [once = Some c] the
    body is guarded by a counter [c] that the function captures:
    [if (c === 0) { c++; body }]. *)
Inductive func : Type :=
  | OnFulfilledBind (this : pid)       (* #onFulfilledBind, line 37 *)
  | OnRejectedBind (this : pid)        (* #onRejectedBind, line 38 *)
  | AllThen (e : eid) (i : nat) (len : Z) (outer : pid)          (* lines 165-177 *)
  | AllSettledThen (e : eid) (i : nat) (len : Z) (outer : pid)   (* lines 212-220 *)
  | AllSettledCatch (e : eid) (i : nat)                          (* lines 221-226 *)
  | AllSettledFinally (e : eid) (len : Z) (outer : pid)          (* lines 227-234 *)
  | FinallyThen (callback : func)      (* lines 115-118 *)
  | FinallyCatch (callback : func)     (* lines 118-121 *)
  | ConsoleLog                         (* console.log, line 357 *)
  | Arrow (once : option eid) (body : list stmt) (ending : completion)

(** JavaScript values that the class manipulates. *)
with value : Type :=
  | VUndefined
  | VNum (z : Z)
  | VStr (s : string)
  | VTypeError (message : string)
  | VRecord (status : string) (key : string) (payload : value)
      (* the object literal { status: .., value|reason: .. } *)
  | VArray (e : eid)                   (* reference to the [result] array of [e] *)
  | VPromize (p : pid)
  | VFun (f : func)
  | VRangeError (message : string)

(** Expressions of a client function: its parameter, or a value it
    captures. *)
with expr : Type :=
  | Param
  | Lit (v : value)

(** Statements of a client function: [console.log(args)] and
    [target.then(onFul, onRej)]. *)
with stmt : Type :=
  | CallLog (args : list expr)
  | CallThen (target : pid) (onFul onRej : value)

(** How a client function ends. *)
with completion : Type :=
  | Return (e : expr)
  | Raise (e : expr).

(** [value instanceof Promize]. *)
Definition instanceof_Promize (v : value) : bool :=
  match v with VPromize _ => true | _ => false end.

(** The two closures that [then] pushes (lines 58-80 and 82-101); each
    captures the handler it was given and the capabilities of the promise
    [next] under construction. *)
Inductive callback : Type :=
  | ThenCallback (onFulfilled : value) (next : pid)
  | CatchCallback (onRejected : value) (next : pid).

(** A function value is calm when its call never runs [then]: the
    closures of the class are, and a client function whose body has no
    [CallThen]. *)
Definition calm_stmt (s : stmt) : bool :=
  match s with
  | CallLog _ => true
  | CallThen _ _ _ => false
  end.

Fixpoint calm (f : func) : bool :=
  match f with
  | FinallyThen callback | FinallyCatch callback => calm callback
  | Arrow _ body _ => forallb calm_stmt body
  | _ => true
  end.

Definition calm_callback (cb : callback) : bool :=
  match cb with
  | ThenCallback (VFun f) _ | CatchCallback (VFun f) _ => calm f
  | _ => true
  end.

(** The closures handed to [queueMicrotask] (lines 283-308 and 317-345). *)
Inductive job : Type :=
  | OnFulfilledJob (this : pid) (v : value)
  | OnRejectedJob (this : pid) (reason : value).

Definition job_target (j : job) : pid :=
  match j with OnFulfilledJob p _ | OnRejectedJob p _ => p end.

(** Private fields of an instance (lines 27-34). *)
Record promize : Type := mkPromize {
  p_state : STATES;
  p_value : value;
  thenCallbacks : list callback;
  catchCallbacks : list callback
}.

(** A JavaScript array: [None] is a hole. *)
Abbreviation js_array := (list (option value)) (only parsing).

(** [a[i] = v]: assignment past the end extends the array with holes. *)
Definition array_set (i : nat) (v : value) (a : js_array) : js_array :=
  if decide (i < length a)%nat then <[i := Some v]> a
  else a ++ replicate (i - length a)%nat None ++ [Some v].

(** Locals shared by the closures of one [all] / [allSettled] call
    (lines 139-143, 186-190).  The counter that a client function
    captures ([Arrow]) is the [completedPromises] of a cell of its own. *)
Record locals : Type := mkLocals {
  completedPromises : Z;
  result : js_array
}.

(** The console holds, for every call of [console.log], the list of its
    arguments: [console.log()] prints an empty line, [console.log(undefined)]
    prints [undefined]. *)
Record world : Type := mkWorld {
  heap : list promize;
  envs : list locals;
  microtasks : list job;
  console : list (list value)
}.

Definition empty_world : world := mkWorld [] [] [] [].

(** State of a freshly constructed instance (lines 31-34, 43, 47). *)
Definition new_promize : promize := mkPromize PENDING VUndefined [] [].

Global Instance promize_inhabited : Inhabited promize := populate new_promize.
Global Instance locals_inhabited : Inhabited locals := populate (mkLocals 0 []).

Definition get_promize (w : world) (p : pid) : promize := heap w !!! p.
Definition get_locals (w : world) (e : eid) : locals := envs w !!! e.

Definition state_of (w : world) (p : pid) : STATES := p_state (get_promize w p).
Definition value_of (w : world) (p : pid) : value := p_value (get_promize w p).

Definition set_heap (h : list promize) (w : world) : world :=
  mkWorld h (envs w) (microtasks w) (console w).
Definition set_envs (l : list locals) (w : world) : world :=
  mkWorld (heap w) l (microtasks w) (console w).
Definition set_microtasks (q : list job) (w : world) : world :=
  mkWorld (heap w) (envs w) q (console w).
Definition set_console (c : list (list value)) (w : world) : world :=
  mkWorld (heap w) (envs w) (microtasks w) c.

(** ** Control: state and exceptions *)

Inductive outcome (A : Type) : Type :=
  | Normal (a : A)
  | Throw (error : value).
Arguments Normal {A} a.
Arguments Throw {A} error.

Definition M (A : Type) : Type := world -> outcome A * world.

Definition ret {A} (a : A) : M A := fun w => (Normal a, w).

Definition bind {A B} (m : M A) (k : A -> M B) : M B := fun w =>
  match m w with
  | (Normal a, w') => k a w'
  | (Throw e, w') => (Throw e, w')
  end.

Definition throw {A} (e : value) : M A := fun w => (Throw e, w).

(** [try { body } catch (error) { handler(error) }] *)
Definition try_catch {A} (body : M A) (handler : value -> M A) : M A := fun w =>
  match body w with
  | (Normal a, w') => (Normal a, w')
  | (Throw e, w') => handler e w'
  end.

Definition modify (f : world -> world) : M unit := fun w => (Normal tt, f w).
Definition gets {A} (f : world -> A) : M A := fun w => (Normal (f w), w).

Declare Scope js_scope.
Delimit Scope js_scope with js.
Notation "'let!' x := c1 'in' c2" := (bind c1 (fun x => c2))
  (at level 10, x name, c1 at level 100, c2 at level 200) : js_scope.
Notation "c1 ;;; c2" := (bind c1 (fun _ => c2))
  (at level 100, c2 at level 200, right associativity) : js_scope.
Local Open Scope js_scope.

(** [arr.forEach(f)] *)
Fixpoint forEach {A} (l : list A) (f : A -> M unit) : M unit :=
  match l with
  | [] => ret tt
  | x :: rest => f x ;;; forEach rest f
  end.

(** ** Primitive effects *)

Definition queueMicrotask (j : job) : M unit :=
  modify (fun w => set_microtasks (microtasks w ++ [j]) w).

Definition alter_promize (p : pid) (f : promize -> promize) : M unit :=
  modify (fun w => set_heap (alter f p (heap w)) w).

Definition alter_locals (e : eid) (f : locals -> locals) : M unit :=
  modify (fun w => set_envs (alter f e (envs w)) w).

(** [new Promize]: allocation and field initialisation. *)
Definition alloc_promize : M pid := fun w =>
  (Normal (length (heap w)), set_heap (heap w ++ [new_promize]) w).

(** [let completedPromises = 0; const result = [];] *)
Definition alloc_locals : M eid := fun w =>
  (Normal (length (envs w)), set_envs (envs w ++ [mkLocals 0 []]) w).

(** [#updateStateAndValue] (lines 348-351). *)
Definition updateStateAndValue (this : pid) (st : STATES) (v : value) : M unit :=
  alter_promize this (fun pr =>
    mkPromize st v (thenCallbacks pr) (catchCallbacks pr)).

Definition push_thenCallbacks (this : pid) (cb : callback) : M unit :=
  alter_promize this (fun pr =>
    mkPromize (p_state pr) (p_value pr) (thenCallbacks pr ++ [cb]) (catchCallbacks pr)).

Definition push_catchCallbacks (this : pid) (cb : callback) : M unit :=
  alter_promize this (fun pr =>
    mkPromize (p_state pr) (p_value pr) (thenCallbacks pr) (catchCallbacks pr ++ [cb])).

Definition clear_thenCallbacks (this : pid) : M unit :=
  alter_promize this (fun pr =>
    mkPromize (p_state pr) (p_value pr) [] (catchCallbacks pr)).

Definition clear_catchCallbacks (this : pid) : M unit :=
  alter_promize this (fun pr =>
    mkPromize (p_state pr) (p_value pr) (thenCallbacks pr) []).

(** [#onFulfilled] and [#onRejected] (lines 278-346) only schedule; the
    scheduled closure is interpreted by [run_job]. *)
Definition onFulfilled (this : pid) (v : value) : M unit :=
  queueMicrotask (OnFulfilledJob this v).

Definition onRejected (this : pid) (reason : value) : M unit :=
  queueMicrotask (OnRejectedJob this reason).

Definition increment_completed (e : eid) : M unit :=
  alter_locals e (fun l => mkLocals (completedPromises l + 1) (result l)).

Definition assign_result (e : eid) (i : nat) (v : value) : M unit :=
  alter_locals e (fun l => mkLocals (completedPromises l) (array_set i v (result l))).

(** [if (completedPromises === bound) resolve(result);] *)
Definition resolve_when_completed (e : eid) (bound : Z) (outer : pid) : M unit :=
  let! c := gets (fun w => completedPromises (get_locals w e)) in
  if c =? bound then onFulfilled outer (VArray e) else ret tt.

Definition fulfilled_record (v : value) : value := VRecord "fulfilled" "value" v.
Definition rejected_record (r : value) : value := VRecord "rejected" "reason" r.

(** The error of an exhausted call stack. *)
Definition stack_overflow : value :=
  VRangeError "Maximum call stack size exceeded".

(** [console.log(args)] *)
Definition console_log (args : list value) : M unit :=
  modify (fun w => set_console (console w ++ [args]) w).

(** The first parameter of a function called with [args]: [undefined]
    when the call passes no argument. *)
Definition first_argument (args : list value) : value :=
  match args with
  | [] => VUndefined
  | v :: _ => v
  end.

Definition eval_expr (arg : value) (e : expr) : value :=
  match e with
  | Param => arg
  | Lit v => v
  end.

Definition complete (arg : value) (c : completion) : M value :=
  match c with
  | Return e => ret (eval_expr arg e)
  | Raise e => throw (eval_expr arg e)
  end.

(** ** The method [then] as client code calls it

    A client function that calls [then] runs the body of [then] (lines
    56-105) inside the call of a handler, which [then] itself makes (line
    103).  [call_func] is defined over an implementation of that inner
    call; [then_at] at the end of the file provides it, by recursion on
    the depth of the call stack. *)
Class ClientThen : Type := client_then : pid -> value -> value -> M pid.

Section Promize.

Context {reenter : ClientThen}.

Definition run_stmt (arg : value) (s : stmt) : M unit :=
  match s with
  | CallLog args => console_log (map (eval_expr arg) args)
  | CallThen target onFul onRej => client_then target onFul onRej ;;; ret tt
  end.

(** The guard of a client function that captures a counter. *)
Definition guarded (once : option eid) (body : M unit) : M unit :=
  match once with
  | None => body
  | Some c =>
      let! n := gets (fun w => completedPromises (get_locals w c)) in
      if n =? 0 then increment_completed c ;;; body else ret tt
  end.

(** Application of a function value to a list of arguments. *)
Fixpoint call_func (f : func) (args : list value) : M value :=
  let arg := first_argument args in
  match f with
  | OnFulfilledBind this => onFulfilled this arg ;;; ret VUndefined
  | OnRejectedBind this => onRejected this arg ;;; ret VUndefined
  | AllThen e i len outer =>
      increment_completed e ;;;
      assign_result e i arg ;;;
      resolve_when_completed e len outer ;;;
      ret VUndefined
  | AllSettledThen e i len outer =>
      assign_result e i (fulfilled_record arg) ;;;
      resolve_when_completed e len outer ;;;
      ret VUndefined
  | AllSettledCatch e i =>
      assign_result e i (rejected_record arg) ;;;
      ret VUndefined
  | AllSettledFinally e len outer =>
      increment_completed e ;;;
      resolve_when_completed e len outer ;;;
      ret VUndefined
  | FinallyThen callback =>
      call_func callback [] ;;;
      ret arg
  | FinallyCatch callback =>
      call_func callback [] ;;;
      throw arg
  | ConsoleLog =>
      console_log args ;;;
      ret VUndefined
  | Arrow once body ending =>
      guarded once (forEach body (run_stmt arg)) ;;;
      complete arg ending
  end.

(** The body of the closures pushed by [then] (lines 58-101). *)
Definition run_callback (cb : callback) (res : value) : M unit :=
  match cb with
  | ThenCallback handler next =>
      match handler with
      | VFun f =>
          try_catch (let! x := call_func f [res] in onFulfilled next x)
                    (fun error => onRejected next error)
      | _ => onFulfilled next res
      end
  | CatchCallback handler next =>
      match handler with
      | VFun f =>
          try_catch (let! x := call_func f [res] in onFulfilled next x)
                    (fun error => onRejected next error)
      | _ => onRejected next res
      end
  end.

(** [#executeCallbacks] (lines 257-275). *)
Definition executeCallbacks (this : pid) : M unit :=
  let! pr := gets (fun w => get_promize w this) in
  (match p_state pr with
   | FULFILLED =>
       forEach (thenCallbacks pr) (fun cb => run_callback cb (p_value pr)) ;;;
       clear_thenCallbacks this
   | _ => ret tt
   end) ;;;
  let! pr := gets (fun w => get_promize w this) in
  (match p_state pr with
   | REJECTED =>
       forEach (catchCallbacks pr) (fun cb => run_callback cb (p_value pr)) ;;;
       clear_catchCallbacks this
   | _ => ret tt
   end).

(** [constructor] (lines 40-54); the executor receives the identity of
    the instance, whose two bound capabilities it may call. *)
Definition constructor (executor : pid -> M unit) : M pid :=
  let! this := alloc_promize in
  try_catch (executor this) (fun error => onRejected this error) ;;;
  ret this.

(** [then] (lines 56-105). *)
Definition then_ (this : pid) (onFul onRej : value) : M pid :=
  constructor (fun next =>
    push_thenCallbacks this (ThenCallback onFul next) ;;;
    push_catchCallbacks this (CatchCallback onRej next) ;;;
    executeCallbacks this).

(** [catch] (lines 107-111). *)
Definition catch (this : pid) (cb : value) : M pid :=
  then_ this VUndefined cb.

(** [finally] (lines 113-122). *)
Definition finally (this : pid) (cb : func) : M pid :=
  then_ this (VFun (FinallyThen cb)) (VFun (FinallyCatch cb)).

(** The scheduled closures of [#onFulfilled] / [#onRejected]. *)
Definition run_job (j : job) : M unit :=
  match j with
  | OnFulfilledJob this v =>
      let! st := gets (fun w => state_of w this) in
      match st with
      | PENDING =>
          match v with
          | VPromize inner =>
              then_ inner (VFun (OnFulfilledBind this)) (VFun (OnRejectedBind this)) ;;;
              ret tt
          | _ =>
              updateStateAndValue this FULFILLED v ;;;
              executeCallbacks this
          end
      | _ => ret tt
      end
  | OnRejectedJob this reason =>
      let! st := gets (fun w => state_of w this) in
      match st with
      | PENDING =>
          match reason with
          | VPromize inner =>
              then_ inner (VFun (OnFulfilledBind this)) (VFun (OnRejectedBind this)) ;;;
              ret tt
          | _ =>
              updateStateAndValue this REJECTED reason ;;;
              executeCallbacks this
          end
      | _ => ret tt
      end
  end.

(** One turn of the microtask queue: the oldest job runs to completion. *)
Definition tick (w : world) : world :=
  match microtasks w with
  | [] => w
  | j :: rest => snd (run_job j (set_microtasks rest w))
  end.

Fixpoint run (n : nat) (w : world) : world :=
  match n with
  | O => w
  | S n' => run n' (tick w)
  end.

(** ** Static factories and combinators *)

(** [Promize.resolve] (lines 124-128). *)
Definition resolve (v : value) : M pid :=
  constructor (fun this => onFulfilled this v).

(** [Promize.reject] (lines 130-134). *)
Definition reject (v : value) : M pid :=
  constructor (fun this => onRejected this v).

(** The message of the [TypeError] raised by [v.then(..)] when [v] is not
    a [Promize]. *)
Definition then_TypeError (v : value) : value :=
  match v with
  | VUndefined => VTypeError "Cannot read properties of undefined (reading 'then')"
  | _ => VTypeError "promise.then is not a function"
  end.

(** The method call [v.then(onFul, onRej)] on an arbitrary value. *)
Definition invoke_then (v : value) (onFul onRej : value) : M pid :=
  match v with
  | VPromize p => then_ p onFul onRej
  | _ => throw (then_TypeError v)
  end.

(** Body of the [for] loop of [all] (lines 149-179), from index [i]. *)
Fixpoint all_loop (e : eid) (outer : pid) (len : Z) (i : nat)
    (values : list value) : M unit :=
  match values with
  | [] => ret tt
  | promise :: rest =>
      (if negb (instanceof_Promize promise) then
         resolve_when_completed e (len - 1) outer ;;;
         assign_result e i promise ;;;
         increment_completed e
       else
         let! d := invoke_then promise (VFun (AllThen e i len outer)) VUndefined in
         catch d (VFun (OnRejectedBind outer)) ;;;
         ret tt) ;;;
      all_loop e outer len (S i) rest
  end.

(** [Promize.all] (lines 136-181). *)
Definition all (values : list value) : M pid :=
  let! e := alloc_locals in
  constructor (fun outer =>
    all_loop e outer (Z.of_nat (length values)) 0%nat values).

(** Body of the [for] loop of [allSettled] (lines 196-235). *)
Fixpoint allSettled_loop (e : eid) (outer : pid) (len : Z) (i : nat)
    (values : list value) : M unit :=
  match values with
  | [] => ret tt
  | promise :: rest =>
      (if negb (instanceof_Promize promise) then
         resolve_when_completed e (len - 1) outer ;;;
         assign_result e i (fulfilled_record promise) ;;;
         increment_completed e
       else
         let! d := invoke_then promise (VFun (AllSettledThen e i len outer)) VUndefined in
         let! c := catch d (VFun (AllSettledCatch e i)) in
         finally c (AllSettledFinally e len outer) ;;;
         ret tt) ;;;
      allSettled_loop e outer len (S i) rest
  end.

(** [Promize.allSettled] (lines 183-237). *)
Definition allSettled (values : list value) : M pid :=
  let! e := alloc_locals in
  constructor (fun outer =>
    allSettled_loop e outer (Z.of_nat (length values)) 0%nat values).

(** Body of the [forEach] of [race] (lines 247-252). *)
Definition race_step (outer : pid) (promise : value) : M unit :=
  (if negb (instanceof_Promize promise) then onFulfilled outer promise
   else ret tt) ;;;
  let! d := invoke_then promise (VFun (OnFulfilledBind outer)) VUndefined in
  catch d (VFun (OnRejectedBind outer)) ;;;
  ret tt.

(** [Promize.race] (lines 239-254). *)
Definition race (values : list value) : M pid :=
  constructor (fun outer => forEach values (race_step outer)).

(** The array a [VArray] value refers to. *)
Definition array_of (w : world) (e : eid) : js_array := result (get_locals w e).

Definition exec {A} (m : M A) (w : world) : world := snd (m w).
Definition eval {A} (m : M A) (w : world) : outcome A := fst (m w).

(** ** Frame properties of the operations

    Apart from [#updateStateAndValue], which only the scheduled closures
    call, no operation writes the [#state] or [#value] of an instance; the
    microtask queue only ever grows at its end. *)

Record extends (w w' : world) : Prop := mkExtends {
  ext_state : forall p, state_of w' p = state_of w p;
  ext_value : forall p, value_of w' p = value_of w p;
  ext_queue : exists js, microtasks w' = microtasks w ++ js;
  ext_heap : (length (heap w) <= length (heap w'))%nat
}.

Definition frames {A} (m : M A) : Prop := forall w, extends w (exec m w).

(** The inner call of [then] is an operation of the class like the
    others. *)
Class ClientThenFrames : Prop :=
  client_then_frames : forall p f r, frames (client_then p f r).

Context {reenter_frames : ClientThenFrames}.

Lemma extends_refl w : extends w w.
Proof.
  split; auto. exists []. by rewrite app_nil_r.
Qed.

Lemma extends_trans w1 w2 w3 : extends w1 w2 -> extends w2 w3 -> extends w1 w3.
Proof.
  intros [s1 v1 [q1 e1] h1] [s2 v2 [q2 e2] h2]. split.
  - intros p. by rewrite s2.
  - intros p. by rewrite v2.
  - exists (q1 ++ q2). by rewrite e2, e1, app_assoc.
  - lia.
Qed.

Lemma frames_ret {A} (a : A) : frames (ret a).
Proof. intros w. apply extends_refl. Qed.

Lemma frames_throw {A} e : frames (@throw A e).
Proof. intros w. apply extends_refl. Qed.

Lemma frames_gets {A} (f : world -> A) : frames (gets f).
Proof. intros w. apply extends_refl. Qed.

Lemma frames_bind {A B} (m : M A) (k : A -> M B) :
  frames m -> (forall a, frames (k a)) -> frames (bind m k).
Proof.
  intros Hm Hk w. specialize (Hm w). unfold exec, bind in *.
  destruct (m w) as [[a|e] w1]; simpl in *; [|done].
  eapply extends_trans; [exact Hm|]. apply Hk.
Qed.

Lemma frames_try_catch {A} (m : M A) (h : value -> M A) :
  frames m -> (forall e, frames (h e)) -> frames (try_catch m h).
Proof.
  intros Hm Hh w. specialize (Hm w). unfold exec, try_catch in *.
  destruct (m w) as [[a|e] w1]; simpl in *; [done|].
  eapply extends_trans; [exact Hm|]. apply Hh.
Qed.

Lemma frames_forEach {A} (l : list A) (f : A -> M unit) :
  (forall x, frames (f x)) -> frames (forEach l f).
Proof.
  intros Hf. induction l as [|x l IH]; simpl.
  - apply frames_ret.
  - apply frames_bind; auto.
Qed.

Lemma frames_queueMicrotask j : frames (queueMicrotask j).
Proof.
  intros w. split; simpl; auto. by exists [j].
Qed.

Lemma lookup_total_alloc (h : list promize) p :
  (h ++ [new_promize]) !!! p = h !!! p.
Proof.
  rewrite !list_lookup_total_alt.
  destruct (decide (p < length h)%nat) as [Hlt|Hge].
  - by rewrite lookup_app_l.
  - rewrite lookup_app_r by lia. rewrite (lookup_ge_None_2 h) by lia.
    by destruct (p - length h)%nat as [|[|k]].
Qed.

Lemma get_promize_alloc w p :
  get_promize (set_heap (heap w ++ [new_promize]) w) p = get_promize w p.
Proof. apply lookup_total_alloc. Qed.

Lemma frames_alloc_promize : frames alloc_promize.
Proof.
  intros w. unfold exec, alloc_promize; simpl. split.
  - intros p. unfold state_of. by rewrite get_promize_alloc.
  - intros p. unfold value_of. by rewrite get_promize_alloc.
  - exists []. by rewrite app_nil_r.
  - simpl. rewrite length_app. lia.
Qed.

Lemma frames_alloc_locals : frames alloc_locals.
Proof.
  intros w. unfold exec, alloc_locals; simpl. split; auto.
  exists []. by rewrite app_nil_r.
Qed.

Lemma frames_alter_locals e f : frames (alter_locals e f).
Proof.
  intros w. split; simpl; auto. exists []. by rewrite app_nil_r.
Qed.

(** Field updates that leave [#state] and [#value] alone. *)
Definition keeps_settlement (f : promize -> promize) : Prop :=
  forall pr, p_state (f pr) = p_state pr /\ p_value (f pr) = p_value pr.

Lemma lookup_total_alter (h : list promize) p f q :
  alter f p h !!! q =
  if decide (p = q /\ (p < length h)%nat) then f (h !!! q) else h !!! q.
Proof.
  destruct (decide (p = q)) as [->|Hne].
  - destruct (decide (q < length h)%nat) as [Hlt|Hge].
    + rewrite decide_True by done. by apply list_lookup_total_alter_eq.
    + rewrite decide_False by tauto.
      rewrite !list_lookup_total_alt, list_lookup_alter_eq.
      by rewrite (lookup_ge_None_2 h) by lia.
  - rewrite decide_False by tauto. by apply list_lookup_total_alter_ne.
Qed.

Lemma get_promize_alter w p f q :
  get_promize (set_heap (alter f p (heap w)) w) q =
  if decide (p = q /\ (p < length (heap w))%nat) then f (get_promize w q)
  else get_promize w q.
Proof. apply lookup_total_alter. Qed.

Lemma lookup_total_alter_keeps (h : list promize) p f q :
  keeps_settlement f ->
  p_state (alter f p h !!! q) = p_state (h !!! q) /\
  p_value (alter f p h !!! q) = p_value (h !!! q).
Proof.
  intros Hf. rewrite lookup_total_alter. case_decide; [apply Hf|done].
Qed.

Lemma frames_alter_promize p f : keeps_settlement f -> frames (alter_promize p f).
Proof.
  intros Hf w. unfold exec, alter_promize, modify; simpl. split.
  - intros q. unfold state_of. rewrite get_promize_alter.
    case_decide; [apply Hf|done].
  - intros q. unfold value_of. rewrite get_promize_alter.
    case_decide; [apply Hf|done].
  - exists []. by rewrite app_nil_r.
  - simpl. by rewrite length_alter.
Qed.

Lemma frames_push_thenCallbacks p cb : frames (push_thenCallbacks p cb).
Proof. apply frames_alter_promize. by intros []. Qed.

Lemma frames_push_catchCallbacks p cb : frames (push_catchCallbacks p cb).
Proof. apply frames_alter_promize. by intros []. Qed.

Lemma frames_clear_thenCallbacks p : frames (clear_thenCallbacks p).
Proof. apply frames_alter_promize. by intros []. Qed.

Lemma frames_clear_catchCallbacks p : frames (clear_catchCallbacks p).
Proof. apply frames_alter_promize. by intros []. Qed.

Lemma frames_onFulfilled p v : frames (onFulfilled p v).
Proof. apply frames_queueMicrotask. Qed.

Lemma frames_onRejected p v : frames (onRejected p v).
Proof. apply frames_queueMicrotask. Qed.

Lemma frames_console_log args : frames (console_log args).
Proof.
  intros w. split; simpl; auto. exists []. by rewrite app_nil_r.
Qed.

Lemma frames_increment_completed e : frames (increment_completed e).
Proof. apply frames_alter_locals. Qed.

Lemma frames_guarded once body : frames body -> frames (guarded once body).
Proof.
  intros Hb. destruct once as [c|]; simpl; [|exact Hb].
  apply frames_bind; [apply frames_gets|]. intros n.
  destruct (n =? 0); [|apply frames_ret].
  apply frames_bind; [apply frames_increment_completed|]. intros _. exact Hb.
Qed.

Lemma frames_run_stmt arg s : frames (run_stmt arg s).
Proof.
  destruct s; simpl; [apply frames_console_log|].
  apply frames_bind; [apply client_then_frames|]. intros _. apply frames_ret.
Qed.

Lemma frames_complete arg c : frames (complete arg c).
Proof. destruct c; simpl; [apply frames_ret|apply frames_throw]. Qed.

Lemma frames_resolve_when_completed e b outer :
  frames (resolve_when_completed e b outer).
Proof.
  apply frames_bind; [apply frames_gets|]. intros c.
  destruct (c =? b); [apply frames_onFulfilled|apply frames_ret].
Qed.

Create HintDb frames discriminated.
#[local] Hint Resolve frames_ret frames_throw frames_gets frames_queueMicrotask
  frames_alloc_promize frames_alloc_locals frames_alter_locals
  frames_push_thenCallbacks frames_push_catchCallbacks
  frames_clear_thenCallbacks frames_clear_catchCallbacks
  frames_onFulfilled frames_onRejected frames_console_log
  frames_resolve_when_completed frames_run_stmt frames_complete : frames.

Ltac frames_tac :=
  repeat first
    [ progress eauto with frames
    | apply frames_bind; [|intros ?]
    | apply frames_try_catch; [|intros ?]
    | apply frames_forEach; intros ? ].

Lemma frames_call_func f args : frames (call_func f args).
Proof.
  revert args. induction f; intros args; simpl;
    unfold increment_completed, assign_result; frames_tac.
  apply frames_guarded. frames_tac.
Qed.
#[local] Hint Resolve frames_call_func : frames.

Lemma frames_run_callback cb v : frames (run_callback cb v).
Proof.
  destruct cb as [h n|h n]; simpl; destruct h; frames_tac.
Qed.
#[local] Hint Resolve frames_run_callback : frames.

Lemma frames_executeCallbacks p : frames (executeCallbacks p).
Proof.
  unfold executeCallbacks.
  apply frames_bind; [frames_tac|]. intros pr.
  apply frames_bind; [destruct (p_state pr); frames_tac|]. intros _.
  apply frames_bind; [frames_tac|]. intros pr'.
  destruct (p_state pr'); frames_tac.
Qed.
#[local] Hint Resolve frames_executeCallbacks : frames.

Lemma frames_constructor executor :
  (forall this, frames (executor this)) -> frames (constructor executor).
Proof. intros H. unfold constructor. frames_tac. Qed.

Lemma frames_then p f r : frames (then_ p f r).
Proof. unfold then_. apply frames_constructor. intros. frames_tac. Qed.
#[local] Hint Resolve frames_then : frames.

Lemma frames_catch p cb : frames (catch p cb).
Proof. unfold catch. apply frames_then. Qed.

Lemma frames_finally p cb : frames (finally p cb).
Proof. unfold finally. apply frames_then. Qed.
#[local] Hint Resolve frames_catch frames_finally : frames.

Lemma frames_invoke_then v f r : frames (invoke_then v f r).
Proof. destruct v; simpl; frames_tac. Qed.
#[local] Hint Resolve frames_invoke_then : frames.

Lemma frames_resolve v : frames (resolve v).
Proof. apply frames_constructor. intros. frames_tac. Qed.

Lemma frames_reject v : frames (reject v).
Proof. apply frames_constructor. intros. frames_tac. Qed.

Lemma frames_all_loop e outer len values : forall i,
  frames (all_loop e outer len i values).
Proof.
  induction values as [|v values IH]; intros i; simpl; [frames_tac|].
  apply frames_bind; [|auto].
  destruct (negb (instanceof_Promize v));
    unfold increment_completed, assign_result; frames_tac.
Qed.

Lemma frames_all values : frames (all values).
Proof.
  unfold all. apply frames_bind; [frames_tac|]. intros e.
  apply frames_constructor. intros. apply frames_all_loop.
Qed.

Lemma frames_allSettled_loop e outer len values : forall i,
  frames (allSettled_loop e outer len i values).
Proof.
  induction values as [|v values IH]; intros i; simpl; [frames_tac|].
  apply frames_bind; [|auto].
  destruct (negb (instanceof_Promize v));
    unfold increment_completed, assign_result; frames_tac.
Qed.

Lemma frames_allSettled values : frames (allSettled values).
Proof.
  unfold allSettled. apply frames_bind; [frames_tac|]. intros e.
  apply frames_constructor. intros. apply frames_allSettled_loop.
Qed.

Lemma frames_race_step outer v : frames (race_step outer v).
Proof.
  unfold race_step. destruct (negb (instanceof_Promize v)); frames_tac.
Qed.

Lemma frames_race values : frames (race values).
Proof.
  unfold race. apply frames_constructor. intros.
  apply frames_forEach. intros v. apply frames_race_step.
Qed.

(** ** The scheduled closures *)

(** [changes_only t w w']: at most the instance [t] was settled. *)
Record changes_only (t : pid) (w w' : world) : Prop := mkChangesOnly {
  co_state : forall p, p <> t -> state_of w' p = state_of w p;
  co_value : forall p, p <> t -> value_of w' p = value_of w p;
  co_queue : exists js, microtasks w' = microtasks w ++ js;
  co_heap : (length (heap w) <= length (heap w'))%nat
}.

Lemma extends_changes_only t w w' : extends w w' -> changes_only t w w'.
Proof. intros [s v q h]. split; auto. Qed.

Lemma changes_only_extends t w1 w2 w3 :
  changes_only t w1 w2 -> extends w2 w3 -> changes_only t w1 w3.
Proof.
  intros [s1 v1 [q1 e1] h1] [s2 v2 [q2 e2] h2]. split.
  - intros p Hp. rewrite s2. auto.
  - intros p Hp. rewrite v2. auto.
  - exists (q1 ++ q2). by rewrite e2, e1, app_assoc.
  - lia.
Qed.

Lemma updateStateAndValue_changes_only t st v w :
  changes_only t w (exec (updateStateAndValue t st v) w).
Proof.
  unfold exec, updateStateAndValue, alter_promize, modify; simpl. split.
  - intros p Hp. unfold state_of. rewrite get_promize_alter.
    by rewrite decide_False by (intros [? _]; congruence).
  - intros p Hp. unfold value_of. rewrite get_promize_alter.
    by rewrite decide_False by (intros [? _]; congruence).
  - exists []. by rewrite app_nil_r.
  - simpl. by rewrite length_alter.
Qed.

(** The guard of lines 286 and 321: on a settled instance the scheduled
    closure returns at once and the world is left exactly as it was. *)
Lemma run_job_settled j w :
  state_of w (job_target j) <> PENDING -> exec (run_job j) w = w.
Proof.
  destruct j as [p v|p v]; simpl; intros H;
    unfold exec, bind, gets; simpl; by destruct (state_of w p).
Qed.

Lemma run_job_changes_only j w :
  changes_only (job_target j) w (exec (run_job j) w).
Proof.
  destruct j as [p v|p v]; simpl; unfold exec at 1, bind at 1, gets; simpl;
    (destruct (state_of w p); try (apply extends_changes_only, extends_refl));
    fold (exec (A:=unit));
    try (destruct v;
         try (match goal with
              | |- context [then_ _ _ _] =>
                  apply extends_changes_only;
                  apply (frames_bind (then_ _ _ _) (fun _ => ret tt));
                  [apply frames_then|intros; apply frames_ret]
              end);
         match goal with
         | |- changes_only _ ?w (snd (bind (updateStateAndValue ?p ?st ?x) ?k ?w)) =>
             unfold bind at 1;
             pose proof (updateStateAndValue_changes_only p st x w) as Hu;
             unfold exec in Hu;
             destruct (updateStateAndValue p st x w) as [[[]|?] w1] eqn:E;
             [ eapply changes_only_extends; [exact Hu|]; apply frames_executeCallbacks
             | discriminate E ]
         end).
Qed.

Lemma tick_cons j q w :
  microtasks w = j :: q -> tick w = exec (run_job j) (set_microtasks q w).
Proof. intros H. unfold tick. by rewrite H. Qed.

Lemma tick_nil w : microtasks w = [] -> tick w = w.
Proof. intros H. unfold tick. by rewrite H. Qed.

(** A queue turn never re-settles: [#state] and [#value] of a settled
    instance survive it. *)
Lemma tick_stable w p :
  state_of w p <> PENDING ->
  state_of (tick w) p = state_of w p /\ value_of (tick w) p = value_of w p.
Proof.
  intros Hp. destruct (microtasks w) as [|j q] eqn:Hq.
  - by rewrite tick_nil.
  - rewrite (tick_cons j q) by done.
    destruct (decide (p = job_target j)) as [->|Hne].
    + by rewrite run_job_settled.
    + destruct (run_job_changes_only j (set_microtasks q w)) as [s v _ _].
      rewrite s, v by done. done.
Qed.

Lemma run_stable n : forall w p,
  state_of w p <> PENDING ->
  state_of (run n w) p = state_of w p /\ value_of (run n w) p = value_of w p.
Proof.
  induction n as [|n IH]; intros w p Hp; simpl; [done|].
  destruct (tick_stable w p Hp) as [Hs Hv].
  destruct (IH (tick w) p) as [Hs' Hv']; [congruence|].
  split; congruence.
Qed.

Lemma run_add n m w : run (n + m) w = run m (run n w).
Proof. revert w. induction n as [|n IH]; intros w; simpl; auto. Qed.

(** FIFO: the jobs already queued run first, in order; what they schedule
    is queued behind the rest.  An instance none of them targets is left
    as it was. *)
Lemma run_prefix q : forall w rest,
  microtasks w = q ++ rest ->
  (exists js, microtasks (run (length q) w) = rest ++ js) /\
  (forall p, Forall (fun j => job_target j <> p) q ->
     state_of (run (length q) w) p = state_of w p /\
     value_of (run (length q) w) p = value_of w p).
Proof.
  induction q as [|j q IH]; intros w rest Hq; simpl.
  - split; [exists []; by rewrite app_nil_r|done].
  - simpl in Hq. rewrite (tick_cons j (q ++ rest)) by done.
    set (w0 := set_microtasks (q ++ rest) w).
    destruct (run_job_changes_only j w0) as [s v [js Hjs] _].
    simpl in Hjs. rewrite <- app_assoc in Hjs.
    destruct (IH _ _ Hjs) as [[js' Hq'] Hst]. split.
    + exists (js ++ js'). rewrite Hq'. by rewrite app_assoc.
    + intros p Hp. inversion Hp as [|? ? Hj Hq0]; subst.
      destruct (Hst p Hq0) as [Hs Hv].
      rewrite Hs, Hv, s, v by done. done.
Qed.

(** ** Client code *)

(** Statements of an executor body written by a client:
    [resolve(v)], [reject(v)] and [throw v]. *)
Inductive statement : Type :=
  | CallResolve (v : value)
  | CallReject (v : value)
  | ThrowStmt (v : value).

Definition user_executor (body : list statement) (this : pid) : M unit :=
  forEach body (fun s =>
    match s with
    | CallResolve v => onFulfilled this v
    | CallReject v => onRejected this v
    | ThrowStmt v => throw v
    end).

(** What a client, or the event loop, can do to a world. *)
Inductive action : Type :=
  | ATick
  | ANew (body : list statement)
  | AThen (p : pid) (onFul onRej : value)
  | ACatch (p : pid) (cb : value)
  | AFinally (p : pid) (cb : func)
  | AResolve (v : value)
  | AReject (v : value)
  | AAll (values : list value)
  | AAllSettled (values : list value)
  | ARace (values : list value)
  | ACall (f : func) (arg : value).

Definition perform (a : action) (w : world) : world :=
  match a with
  | ATick => tick w
  | ANew body => exec (constructor (user_executor body)) w
  | AThen p f r => exec (then_ p f r) w
  | ACatch p cb => exec (catch p cb) w
  | AFinally p cb => exec (finally p cb) w
  | AResolve v => exec (resolve v) w
  | AReject v => exec (reject v) w
  | AAll values => exec (all values) w
  | AAllSettled values => exec (allSettled values) w
  | ARace values => exec (race values) w
  | ACall f arg => exec (call_func f [arg]) w
  end.

Definition perform_all (acts : list action) (w : world) : world :=
  foldl (fun w a => perform a w) w acts.

Lemma frames_user_executor body this : frames (user_executor body this).
Proof.
  apply frames_forEach. intros []; frames_tac.
Qed.

Lemma perform_stable a w p :
  state_of w p <> PENDING ->
  state_of (perform a w) p = state_of w p /\
  value_of (perform a w) p = value_of w p.
Proof.
  intros Hp.
  assert (Hf : forall A (m : M A), frames m ->
            state_of (exec m w) p = state_of w p /\
            value_of (exec m w) p = value_of w p).
  { intros A m Hm. destruct (Hm w) as [s v _ _]. auto. }
  destruct a; simpl; try (apply Hf).
  - by apply tick_stable.
  - apply frames_constructor, frames_user_executor.
  - apply frames_then.
  - apply frames_catch.
  - apply frames_finally.
  - apply frames_resolve.
  - apply frames_reject.
  - apply frames_all.
  - apply frames_allSettled.
  - apply frames_race.
  - apply frames_call_func.
Qed.

Lemma perform_all_stable acts : forall w p,
  state_of w p <> PENDING ->
  state_of (perform_all acts w) p = state_of w p /\
  value_of (perform_all acts w) p = value_of w p.
Proof.
  induction acts as [|a acts IH]; intros w p Hp; simpl; [done|].
  destruct (perform_stable a w p Hp) as [Hs Hv].
  destruct (IH (perform a w) p) as [Hs' Hv']; [congruence|].
  split; congruence.
Qed.

(** ** Exact effect of the basic operations *)

Definition plain (v : value) : Prop := instanceof_Promize v = false.

(** Every queued job targets an instance that exists. *)
Definition queue_wf (w : world) : Prop :=
  Forall (fun j => (job_target j < length (heap w))%nat) (microtasks w).

(** The two pushes of [then] (lines 58 and 82). *)
Definition subscribe (onFul onRej : value) (next : pid) (pr : promize) : promize :=
  mkPromize (p_state pr) (p_value pr)
    (thenCallbacks pr ++ [ThenCallback onFul next])
    (catchCallbacks pr ++ [CatchCallback onRej next]).

(** [#updateStateAndValue] on one record. *)
Definition settle (st : STATES) (v : value) (pr : promize) : promize :=
  mkPromize st v (thenCallbacks pr) (catchCallbacks pr).

Lemma state_of_alter w p f q :
  keeps_settlement f ->
  state_of (set_heap (alter f p (heap w)) w) q = state_of w q.
Proof.
  intros Hf. unfold state_of. rewrite get_promize_alter.
  case_decide; [apply Hf|done].
Qed.

Lemma state_of_alloc w q :
  state_of (set_heap (heap w ++ [new_promize]) w) q = state_of w q.
Proof. unfold state_of. by rewrite get_promize_alloc. Qed.

Lemma subscribe_keeps f r n : keeps_settlement (subscribe f r n).
Proof. by intros []. Qed.

Lemma executeCallbacks_pending w p :
  state_of w p = PENDING -> executeCallbacks p w = (Normal tt, w).
Proof.
  intros H. unfold executeCallbacks, bind, gets.
  fold (state_of w p). rewrite H. simpl.
  fold (state_of w p). by rewrite H.
Qed.

(** [then] on a pending instance only registers the two closures. *)
Lemma then_pending w q f r :
  state_of w q = PENDING ->
  then_ q f r w =
    (Normal (length (heap w)),
     set_heap (alter (subscribe f r (length (heap w))) q
                 (heap w ++ [new_promize])) w).
Proof.
  intros Hq.
  set (w1 := set_heap (alter (subscribe f r (length (heap w))) q
                 (heap w ++ [new_promize])) w).
  assert (Hw1 : state_of w1 q = PENDING).
  { subst w1. unfold state_of, get_promize in *. cbn [heap set_heap].
    rewrite (proj1 (lookup_total_alter_keeps _ _ _ _ (subscribe_keeps _ _ _))).
    by rewrite lookup_total_alloc. }
  unfold then_, constructor, bind, alloc_promize, try_catch.
  unfold push_thenCallbacks, push_catchCallbacks, alter_promize, modify.
  subst w1. unfold set_heap in *. cbn [fst snd heap envs microtasks console] in *.
  rewrite list_alter_alter_eq.
  rewrite (list_alter_ext _ (subscribe f r (length (heap w))) _ (heap w ++ [new_promize]) q)
    by (intros; reflexivity).
  match goal with
  | |- context [executeCallbacks q ?w0] =>
      rewrite (executeCallbacks_pending w0 q) by exact Hw1
  end.
  reflexivity.
Qed.

Lemma then_pending_exec w q f r :
  state_of w q = PENDING ->
  exec (then_ q f r) w =
    set_heap (alter (subscribe f r (length (heap w))) q
                (heap w ++ [new_promize])) w.
Proof. intros H. unfold exec. by rewrite then_pending. Qed.

(** A scheduled settlement with a non-Promize payload, on a pending
    instance that exists, writes [#state] and [#value]. *)
Definition job_state (j : job) : STATES :=
  match j with OnFulfilledJob _ _ => FULFILLED | OnRejectedJob _ _ => REJECTED end.

Definition job_payload (j : job) : value :=
  match j with OnFulfilledJob _ v | OnRejectedJob _ v => v end.

Lemma run_job_plain j w :
  state_of w (job_target j) = PENDING ->
  plain (job_payload j) ->
  exec (run_job j) w =
    exec (executeCallbacks (job_target j))
      (set_heap (alter (settle (job_state j) (job_payload j)) (job_target j) (heap w)) w).
Proof.
  intros Hst Hpl.
  destruct j as [p v|p v]; simpl in *; unfold exec, bind, gets; simpl;
    rewrite Hst; destruct v; try discriminate Hpl; reflexivity.
Qed.

Lemma state_of_settle w p st v :
  (p < length (heap w))%nat ->
  state_of (set_heap (alter (settle st v) p (heap w)) w) p = st /\
  value_of (set_heap (alter (settle st v) p (heap w)) w) p = v.
Proof.
  intros Hp. unfold state_of, value_of. rewrite get_promize_alter.
  by rewrite decide_True.
Qed.

Lemma run_job_settles j w :
  state_of w (job_target j) = PENDING ->
  plain (job_payload j) ->
  (job_target j < length (heap w))%nat ->
  state_of (exec (run_job j) w) (job_target j) = job_state j /\
  value_of (exec (run_job j) w) (job_target j) = job_payload j.
Proof.
  intros Hst Hpl Hlt. rewrite run_job_plain by done.
  destruct (frames_executeCallbacks (job_target j)
    (set_heap (alter (settle (job_state j) (job_payload j)) (job_target j) (heap w)) w))
    as [s v _ _].
  rewrite s, v. by apply state_of_settle.
Qed.

Lemma run_heap_length n : forall w, (length (heap w) <= length (heap (run n w)))%nat.
Proof.
  induction n as [|n IH]; intros w; simpl; [done|].
  etrans; [|apply IH].
  destruct (microtasks w) as [|j q] eqn:Hq.
  - by rewrite tick_nil.
  - rewrite (tick_cons j q) by done.
    by destruct (run_job_changes_only j (set_microtasks q w)).
Qed.

(** The first queued job that targets a pending instance settles it, and
    the settlement is final. *)
Lemma first_job_wins w q j rest n :
  microtasks w = q ++ j :: rest ->
  Forall (fun j' => job_target j' <> job_target j) q ->
  state_of w (job_target j) = PENDING ->
  (job_target j < length (heap w))%nat ->
  plain (job_payload j) ->
  (length q < n)%nat ->
  state_of (run n w) (job_target j) = job_state j /\
  value_of (run n w) (job_target j) = job_payload j.
Proof.
  intros Hq Hno Hst Hlt Hpl Hn.
  replace n with (length q + (1 + (n - length q - 1)))%nat by lia.
  rewrite run_add.
  destruct (run_prefix q w (j :: rest) Hq) as [[js Hq'] Hp].
  destruct (Hp _ Hno) as [Hs Hv].
  pose proof (run_heap_length (length q) w) as Hlen.
  set (w1 := run (length q) w) in *.
  rewrite run_add.
  assert (Ht : run 1 w1 = exec (run_job j) (set_microtasks (rest ++ js) w1)).
  { simpl. by rewrite (tick_cons j (rest ++ js) w1). }
  rewrite Ht.
  destruct (run_job_settles j (set_microtasks (rest ++ js) w1)) as [Hs1 Hv1];
    [by rewrite <- Hst, <- Hs|done|simpl; lia|].
  destruct (run_stable (n - length q - 1)
    (exec (run_job j) (set_microtasks (rest ++ js) w1)) (job_target j)) as [Hs2 Hv2].
  { rewrite Hs1. by destruct j. }
  split; congruence.
Qed.

(** A job queued by a factory on its fresh instance, behind a well-formed
    queue, is the first to target that instance. *)
Lemma queue_wf_fresh w :
  queue_wf w ->
  Forall (fun j' => job_target j' <> length (heap w)) (microtasks w).
Proof.
  unfold queue_wf. intros H. eapply Forall_impl; [exact H|].
  simpl. intros j Hj. lia.
Qed.

(** ** The factories, exactly *)

Lemma lookup_total_fresh (h : list promize) p :
  (length h <= p)%nat -> h !!! p = new_promize.
Proof.
  intros H. rewrite list_lookup_total_alt. by rewrite lookup_ge_None_2.
Qed.

Lemma state_of_fresh w p : (length (heap w) <= p)%nat -> state_of w p = PENDING.
Proof.
  intros H. unfold state_of, get_promize. by rewrite lookup_total_fresh.
Qed.

Lemma state_of_allocated h e q c :
  state_of (mkWorld (h ++ [new_promize]) e q c) (length h) = PENDING.
Proof.
  unfold state_of, get_promize; simpl.
  rewrite lookup_total_alloc. by rewrite lookup_total_fresh.
Qed.

Lemma constructor_normal executor w :
  exists w', constructor executor w = (Normal (length (heap w)), w').
Proof.
  unfold constructor, bind, alloc_promize, try_catch, onRejected,
    queueMicrotask, modify, ret.
  destruct (executor _ _) as [[[]|e] w1]; eauto.
Qed.

Lemma resolve_spec v w :
  resolve v w =
    (Normal (length (heap w)),
     mkWorld (heap w ++ [new_promize]) (envs w)
       (microtasks w ++ [OnFulfilledJob (length (heap w)) v]) (console w)).
Proof. reflexivity. Qed.

Lemma reject_spec v w :
  reject v w =
    (Normal (length (heap w)),
     mkWorld (heap w ++ [new_promize]) (envs w)
       (microtasks w ++ [OnRejectedJob (length (heap w)) v]) (console w)).
Proof. reflexivity. Qed.

Lemma forEach_app {A} (l1 l2 : list A) (f : A -> M unit) w :
  forEach (l1 ++ l2) f w = (forEach l1 f ;;; forEach l2 f) w.
Proof.
  revert w. induction l1 as [|x l1 IH]; intros w; simpl.
  - reflexivity.
  - unfold bind. destruct (f x w) as [[[]|e] w1]; [|done].
    rewrite IH. reflexivity.
Qed.

(** One round of the loop of [race] on an element that is a pending
    instance: two registrations, nothing scheduled. *)
Lemma race_step_pending outer q w :
  state_of w q = PENDING ->
  exists w', race_step outer (VPromize q) w = (Normal tt, w') /\
    microtasks w' = microtasks w /\
    (forall p, state_of w' p = state_of w p) /\
    (length (heap w) <= length (heap w'))%nat.
Proof.
  intros Hq. unfold race_step; simpl.
  unfold bind at 1. unfold ret at 1.
  unfold bind at 1. rewrite then_pending by done.
  set (w1 := set_heap _ w).
  assert (Hs1 : forall p, state_of w1 p = state_of w p).
  { intros p. subst w1. unfold state_of, get_promize; simpl.
    rewrite (proj1 (lookup_total_alter_keeps _ _ _ _ (subscribe_keeps _ _ _))).
    by rewrite lookup_total_alloc. }
  assert (Hd : state_of w1 (length (heap w)) = PENDING).
  { rewrite Hs1. by apply state_of_fresh. }
  unfold catch, bind. rewrite then_pending by done.
  eexists; split; [reflexivity|]. simpl. split; [done|]. split.
  - intros p. unfold state_of, get_promize; simpl.
    rewrite (proj1 (lookup_total_alter_keeps _ _ _ _ (subscribe_keeps _ _ _))).
    rewrite lookup_total_alloc. apply Hs1.
  - rewrite length_alter, !length_app, length_alter, length_app. simpl. lia.
Qed.

Lemma race_steps_pending outer pre : forall w,
  Forall (fun q => state_of w q = PENDING) pre ->
  exists w', forEach (map VPromize pre) (race_step outer) w = (Normal tt, w') /\
    microtasks w' = microtasks w /\
    (forall p, state_of w' p = state_of w p) /\
    (length (heap w) <= length (heap w'))%nat.
Proof.
  induction pre as [|q pre IH]; intros w Hpre; simpl.
  - exists w. by repeat split.
  - inversion Hpre as [|? ? Hq Hrest]; subst.
    destruct (race_step_pending outer q w Hq) as (w1 & E1 & Q1 & S1 & L1).
    destruct (IH w1) as (w2 & E2 & Q2 & S2 & L2).
    { eapply Forall_impl; [exact Hrest|]. simpl. intros p Hp. by rewrite S1. }
    exists w2. unfold bind. rewrite E1, E2. repeat split.
    + congruence.
    + intros p. by rewrite S2.
    + lia.
Qed.

(** The round of [race] on a non-Promize element: the fulfilment is
    scheduled, then [promise.then] raises. *)
Lemma race_step_plain outer v w :
  plain v ->
  race_step outer v w =
    (Throw (then_TypeError v),
     set_microtasks (microtasks w ++ [OnFulfilledJob outer v]) w).
Proof.
  intros Hv. unfold race_step. rewrite Hv. simpl.
  by destruct v.
Qed.


Lemma then_normal p f r w :
  exists w', then_ p f r w = (Normal (length (heap w)), w').
Proof. apply constructor_normal. Qed.

Lemma race_step_promize_normal outer q w :
  exists w', race_step outer (VPromize q) w = (Normal tt, w').
Proof.
  unfold race_step; simpl. unfold bind at 1. unfold ret at 1.
  unfold bind at 1.
  destruct (then_normal q (VFun (OnFulfilledBind outer)) VUndefined w) as [w1 ->].
  unfold catch, bind.
  destruct (then_normal (length (heap w)) VUndefined (VFun (OnRejectedBind outer)) w1)
    as [w2 ->].
  by exists w2.
Qed.

Lemma race_steps_normal outer pre : forall w,
  exists w', forEach (map VPromize pre) (race_step outer) w = (Normal tt, w').
Proof.
  induction pre as [|q pre IH]; intros w; simpl.
  - by exists w.
  - destruct (race_step_promize_normal outer q w) as [w1 E1].
    destruct (IH w1) as [w2 E2].
    exists w2. unfold bind. by rewrite E1.
Qed.

(** A [throw] inside the callback of [forEach] ends the iteration: the
    elements behind the throwing one are not visited. *)
Lemma forEach_throw_cut {A} (l1 : list A) x l2 (f : A -> M unit) w w1 e w2 :
  forEach l1 f w = (Normal tt, w1) ->
  f x w1 = (Throw e, w2) ->
  forEach (l1 ++ x :: l2) f w = (Throw e, w2).
Proof.
  intros E1 E2. rewrite forEach_app. unfold bind at 1. rewrite E1.
  simpl. unfold bind. by rewrite E2.
Qed.

Lemma race_cut w pre v post :
  plain v ->
  race (map VPromize pre ++ v :: post) w = race (map VPromize pre ++ [v]) w.
Proof.
  intros Hv. unfold race, constructor. unfold bind at 1 3.
  destruct (alloc_promize w) as [[R|e] w0]; [|done].
  destruct (race_steps_normal R pre w0) as [w1 E1].
  unfold bind, try_catch.
  rewrite (forEach_throw_cut _ v post _ w0 w1 _ _ E1 (race_step_plain R v w1 Hv)).
  by rewrite (forEach_throw_cut _ v [] _ w0 w1 _ _ E1 (race_step_plain R v w1 Hv)).
Qed.

(** [race] on a sequence whose elements before the first non-Promize one
    are pending instances: two jobs are scheduled for the new instance,
    the fulfilment first. *)
Lemma race_spec w pre v post :
  plain v ->
  Forall (fun q => state_of w q = PENDING) pre ->
  exists w',
    race (map VPromize pre ++ v :: post) w = (Normal (length (heap w)), w') /\
    microtasks w' =
      microtasks w ++ [OnFulfilledJob (length (heap w)) v;
                       OnRejectedJob (length (heap w)) (then_TypeError v)] /\
    (length (heap w) < length (heap w'))%nat /\
    state_of w' (length (heap w)) = PENDING.
Proof.
  intros Hv Hpre.
  unfold race, constructor. unfold bind at 1. unfold alloc_promize at 1.
  set (w0 := set_heap (heap w ++ [new_promize]) w).
  set (R := length (heap w)).
  destruct (race_steps_pending R pre w0) as (w1 & E1 & Q1 & S1 & L1).
  { eapply Forall_impl; [exact Hpre|]. simpl. intros p Hp.
    subst w0. by rewrite state_of_alloc. }
  unfold bind at 1. unfold try_catch.
  rewrite (forEach_throw_cut _ v post _ w0 w1 _ _ E1 (race_step_plain R v w1 Hv)).
  unfold onRejected, queueMicrotask, modify, ret. simpl.
  eexists; split; [reflexivity|]. simpl. repeat split.
  - rewrite Q1. subst w0. simpl. by rewrite <- app_assoc.
  - subst w0. simpl in L1. rewrite length_app in L1. simpl in L1. lia.
  - change (state_of w1 R = PENDING). rewrite S1. subst w0.
    rewrite state_of_alloc. by apply state_of_fresh.
Qed.

(** After [race], the fulfilment scheduled for the non-Promize element is
    the first job that targets the new instance. *)
Lemma race_plain_wins w pre v post n :
  queue_wf w ->
  plain v ->
  Forall (fun q => state_of w q = PENDING) pre ->
  (length (microtasks w) < n)%nat ->
  state_of (run n (exec (race (map VPromize pre ++ v :: post)) w))
    (length (heap w)) = FULFILLED /\
  value_of (run n (exec (race (map VPromize pre ++ v :: post)) w))
    (length (heap w)) = v.
Proof.
  intros Hwf Hv Hpre Hn.
  destruct (race_spec w pre v post Hv Hpre) as (w' & E & Q & L & S).
  unfold exec. rewrite E. simpl.
  apply (first_job_wins w' (microtasks w) (OnFulfilledJob (length (heap w)) v)
           [OnRejectedJob (length (heap w)) (then_TypeError v)] n); auto.
  simpl. by apply queue_wf_fresh.
Qed.

(** ** Handlers and callbacks never touch the heap *)

(** What the application of a function value may change: the locals of
    the combinators, the microtask queue (at its end) and the console. *)
Record heap_free {A} (m : M A) : Prop := mkHeapFree {
  hf_commute : forall h w, m (set_heap h w) = (fst (m w), set_heap h (snd (m w)));
  hf_queue : forall w, exists js, microtasks (snd (m w)) = microtasks w ++ js
}.

Lemma heap_free_heap {A} (m : M A) w : heap_free m -> heap (snd (m w)) = heap w.
Proof.
  intros [Hc _]. specialize (Hc (heap w) w).
  replace (set_heap (heap w) w) with w in Hc by (by destruct w).
  rewrite Hc. reflexivity.
Qed.

Lemma heap_free_ret {A} (a : A) : heap_free (ret a).
Proof. split; [done|]. intros w. exists []. by rewrite app_nil_r. Qed.

Lemma heap_free_throw {A} e : heap_free (@throw A e).
Proof. split; [done|]. intros w. exists []. by rewrite app_nil_r. Qed.

Lemma heap_free_bind {A B} (m : M A) (k : A -> M B) :
  heap_free m -> (forall a, heap_free (k a)) -> heap_free (bind m k).
Proof.
  intros [Hm Qm] Hk. split.
  - intros h w. unfold bind. rewrite Hm.
    destruct (m w) as [[a|e] w1]; simpl; [|done].
    apply (hf_commute _ (Hk a)).
  - intros w. unfold bind. destruct (Qm w) as [js1 E1].
    destruct (m w) as [[a|e] w1]; simpl in *; [|eauto].
    destruct (hf_queue _ (Hk a) w1) as [js2 E2].
    exists (js1 ++ js2). by rewrite E2, E1, app_assoc.
Qed.

Lemma heap_free_try_catch {A} (m : M A) (h : value -> M A) :
  heap_free m -> (forall e, heap_free (h e)) -> heap_free (try_catch m h).
Proof.
  intros [Hm Qm] Hh. split.
  - intros h' w. unfold try_catch. rewrite Hm.
    destruct (m w) as [[a|e] w1]; simpl; [done|].
    apply (hf_commute _ (Hh e)).
  - intros w. unfold try_catch. destruct (Qm w) as [js1 E1].
    destruct (m w) as [[a|e] w1]; simpl in *; [eauto|].
    destruct (hf_queue _ (Hh e) w1) as [js2 E2].
    exists (js1 ++ js2). by rewrite E2, E1, app_assoc.
Qed.

Lemma heap_free_queueMicrotask j : heap_free (queueMicrotask j).
Proof. split; [done|]. intros w. by exists [j]. Qed.

Lemma heap_free_alter_locals e f : heap_free (alter_locals e f).
Proof. split; [done|]. intros w. exists []. by rewrite app_nil_r. Qed.

Lemma heap_free_resolve_when_completed e b outer :
  heap_free (resolve_when_completed e b outer).
Proof.
  split.
  - intros h w. unfold resolve_when_completed, bind, gets. simpl.
    unfold get_locals; simpl. by destruct (_ =? _).
  - intros w. unfold resolve_when_completed, bind, gets. simpl.
    destruct (_ =? _); simpl; [by eexists|]. exists []. by rewrite app_nil_r.
Qed.

Lemma heap_free_console_log args : heap_free (console_log args).
Proof. split; [done|]. intros w. exists []. by rewrite app_nil_r. Qed.

Lemma heap_free_forEach_in {A} (l : list A) (f : A -> M unit) :
  (forall x, In x l -> heap_free (f x)) -> heap_free (forEach l f).
Proof.
  induction l as [|x l IH]; intros Hf; simpl.
  - apply heap_free_ret.
  - apply heap_free_bind; [apply Hf; by left|]. intros _.
    apply IH. intros y Hy. apply Hf. by right.
Qed.

Lemma heap_free_forEach {A} (l : list A) (f : A -> M unit) :
  (forall x, heap_free (f x)) -> heap_free (forEach l f).
Proof. intros Hf. apply heap_free_forEach_in. auto. Qed.

Lemma heap_free_guarded once body : heap_free body -> heap_free (guarded once body).
Proof.
  intros Hb. destruct once as [c|]; simpl; [|exact Hb].
  split.
  - intros h w. unfold bind, gets. cbn [fst snd].
    change (get_locals (set_heap h w) c) with (get_locals w c).
    destruct (_ =? _); [|done].
    apply (hf_commute (increment_completed c ;;; body)).
    apply heap_free_bind; [apply heap_free_alter_locals|]. intros _. exact Hb.
  - intros w. unfold bind at 1, gets. cbn [fst snd].
    destruct (_ =? _); [|exists []; by rewrite app_nil_r].
    apply (hf_queue (increment_completed c ;;; body)).
    apply heap_free_bind; [apply heap_free_alter_locals|]. intros _. exact Hb.
Qed.

Lemma heap_free_run_stmt arg s : calm_stmt s = true -> heap_free (run_stmt arg s).
Proof. destruct s; [intros _|discriminate]. apply heap_free_console_log. Qed.

Lemma heap_free_complete arg c : heap_free (complete arg c).
Proof. destruct c; [apply heap_free_ret|apply heap_free_throw]. Qed.

(** The call of a calm function value. *)
Lemma heap_free_call_func f args : calm f = true -> heap_free (call_func f args).
Proof.
  revert args. induction f; intros args Hc; simpl in *;
    unfold increment_completed, assign_result, onFulfilled, onRejected;
    repeat first
      [ apply heap_free_resolve_when_completed | apply heap_free_console_log
      | apply heap_free_ret | apply heap_free_throw
      | apply heap_free_queueMicrotask | apply heap_free_alter_locals
      | apply heap_free_complete
      | done
      | by apply IHf
      | apply heap_free_bind; [|intros ?] ].
  apply heap_free_guarded, heap_free_forEach_in. intros s Hs.
  apply heap_free_run_stmt.
  rewrite forallb_forall in Hc. by apply Hc.
Qed.

Lemma heap_free_run_callback cb v :
  calm_callback cb = true -> heap_free (run_callback cb v).
Proof.
  destruct cb as [h n|h n]; simpl; destruct h; intros Hc;
    unfold onFulfilled, onRejected;
    repeat first
      [ apply heap_free_queueMicrotask | by apply heap_free_call_func
      | apply heap_free_try_catch; [|intros ?]
      | apply heap_free_bind; [|intros ?] ].
Qed.

(** The closures pushed by [then] trap every error of the handler. *)
Lemma run_callback_normal cb v w : fst (run_callback cb v w) = Normal tt.
Proof.
  destruct cb as [h n|h n]; simpl; destruct h; try reflexivity;
    unfold try_catch, bind;
    destruct (call_func f [v] w) as [[x|e] w1]; reflexivity.
Qed.

Lemma heap_free_callbacks cbs v :
  forallb calm_callback cbs = true ->
  heap_free (forEach cbs (fun cb => run_callback cb v)).
Proof.
  intros Hc. apply heap_free_forEach_in. intros cb Hcb.
  apply heap_free_run_callback. rewrite forallb_forall in Hc. by apply Hc.
Qed.

Lemma forEach_callbacks_normal cbs v : forall w,
  fst (forEach cbs (fun cb => run_callback cb v) w) = Normal tt.
Proof.
  induction cbs as [|cb cbs IH]; intros w; simpl; [done|].
  unfold bind. pose proof (run_callback_normal cb v w) as H.
  destruct (run_callback cb v w) as [[[]|e] w1]; [apply IH|discriminate H].
Qed.

(** The effect of running a list of callbacks, as a world transformer. *)
Definition fire (cbs : list callback) (v : value) (w : world) : world :=
  exec (forEach cbs (fun cb => run_callback cb v)) w.

Lemma frames_fire cbs v w : extends w (fire cbs v w).
Proof. apply (frames_forEach cbs). intros cb. apply frames_run_callback. Qed.

(** Calm callbacks leave the heap alone. *)
Lemma fire_heap cbs v w :
  forallb calm_callback cbs = true -> heap (fire cbs v w) = heap w.
Proof.
  intros Hc.
  apply (heap_free_heap (forEach cbs (fun cb => run_callback cb v))).
  by apply heap_free_callbacks.
Qed.

Lemma fire_set_heap cbs v h w :
  forallb calm_callback cbs = true ->
  fire cbs v (set_heap h w) = set_heap h (fire cbs v w).
Proof.
  intros Hc. unfold fire, exec.
  rewrite (hf_commute (forEach cbs (fun cb => run_callback cb v))); [done|].
  by apply heap_free_callbacks.
Qed.

Lemma fire_queue cbs v w : exists js, microtasks (fire cbs v w) = microtasks w ++ js.
Proof. apply (ext_queue _ _ (frames_fire cbs v w)). Qed.

Lemma fire_app cbs1 cbs2 v w : fire (cbs1 ++ cbs2) v w = fire cbs2 v (fire cbs1 v w).
Proof.
  unfold fire, exec. rewrite forEach_app. unfold bind.
  pose proof (forEach_callbacks_normal cbs1 v w) as H.
  destruct (forEach cbs1 _ w) as [[[]|e] w1]; [done|discriminate H].
Qed.

Definition clear_then (pr : promize) : promize :=
  mkPromize (p_state pr) (p_value pr) [] (catchCallbacks pr).
Definition clear_catch (pr : promize) : promize :=
  mkPromize (p_state pr) (p_value pr) (thenCallbacks pr) [].

(** [#executeCallbacks] on a settled instance: the callbacks registered
    at the call run on the settled value, then the list is emptied,
    whatever the callbacks have added to it meanwhile. *)
Lemma executeCallbacks_fulfilled_any w p :
  state_of w p = FULFILLED ->
  exec (executeCallbacks p) w =
    let w1 := fire (thenCallbacks (get_promize w p)) (value_of w p) w in
    set_heap (alter clear_then p (heap w1)) w1.
Proof.
  intros Hst. unfold executeCallbacks, exec, bind at 1, gets at 1.
  fold (state_of w p). rewrite Hst. unfold bind at 1. unfold bind at 1.
  fold (value_of w p).
  pose proof (forEach_callbacks_normal (thenCallbacks (get_promize w p)) (value_of w p) w) as Hn.
  pose proof (ext_state _ _ (frames_fire (thenCallbacks (get_promize w p)) (value_of w p) w) p) as Hh.
  unfold fire, exec in *.
  destruct (forEach _ _ w) as [[[]|e] w1]; [|discriminate Hn]. cbn [snd] in Hh |- *.
  unfold clear_thenCallbacks, alter_promize, modify, bind, gets. cbn [fst snd].
  assert (Hs : p_state (get_promize (set_heap (alter clear_then p (heap w1)) w1) p) = FULFILLED).
  { unfold get_promize; simpl.
    rewrite (proj1 (lookup_total_alter_keeps _ _ _ _ (ltac:(by intros []) : keeps_settlement clear_then))).
    fold (get_promize w1 p). fold (state_of w1 p). by rewrite Hh. }
  unfold clear_then in Hs at 1. unfold clear_then at 1.
  by rewrite Hs.
Qed.

Lemma executeCallbacks_rejected_any w p :
  state_of w p = REJECTED ->
  exec (executeCallbacks p) w =
    let w1 := fire (catchCallbacks (get_promize w p)) (value_of w p) w in
    set_heap (alter clear_catch p (heap w1)) w1.
Proof.
  intros Hst. unfold executeCallbacks, exec, bind at 1, gets at 1.
  fold (state_of w p). rewrite Hst. unfold bind at 1. unfold ret at 1.
  unfold bind at 1, gets at 1. fold (state_of w p). rewrite Hst.
  unfold bind at 1. fold (value_of w p).
  pose proof (forEach_callbacks_normal (catchCallbacks (get_promize w p)) (value_of w p) w) as Hn.
  unfold fire, exec in *.
  destruct (forEach _ _ w) as [[[]|e] w1]; [|discriminate Hn].
  reflexivity.
Qed.

(** When the callbacks are calm the heap they run in is the one of the
    call. *)
Lemma executeCallbacks_fulfilled w p :
  state_of w p = FULFILLED ->
  forallb calm_callback (thenCallbacks (get_promize w p)) = true ->
  exec (executeCallbacks p) w =
    set_heap (alter clear_then p (heap w))
      (fire (thenCallbacks (get_promize w p)) (value_of w p) w).
Proof.
  intros Hst Hc. rewrite executeCallbacks_fulfilled_any by done.
  cbv zeta. by rewrite fire_heap.
Qed.

Lemma executeCallbacks_rejected w p :
  state_of w p = REJECTED ->
  forallb calm_callback (catchCallbacks (get_promize w p)) = true ->
  exec (executeCallbacks p) w =
    set_heap (alter clear_catch p (heap w))
      (fire (catchCallbacks (get_promize w p)) (value_of w p) w).
Proof.
  intros Hst Hc. rewrite executeCallbacks_rejected_any by done.
  cbv zeta. by rewrite fire_heap.
Qed.

Lemma executeCallbacks_normal p w : fst (executeCallbacks p w) = Normal tt.
Proof.
  unfold executeCallbacks, bind at 1, gets at 1.
  set (pr := get_promize w p).
  assert (H1 : forall w0, fst (clear_thenCallbacks p w0) = Normal tt) by done.
  assert (H2 : forall w0, fst (clear_catchCallbacks p w0) = Normal tt) by done.
  unfold bind at 1.
  assert (Hfirst : forall (m : M unit),
    (m = ret tt \/ m = (forEach (thenCallbacks pr) (fun cb => run_callback cb (p_value pr)) ;;;
                        clear_thenCallbacks p)) ->
    fst (m w) = Normal tt).
  { intros m [->| ->]; [done|]. unfold bind.
    pose proof (forEach_callbacks_normal (thenCallbacks pr) (p_value pr) w) as Hn.
    destruct (forEach _ _ w) as [[[]|e] w1]; [done|discriminate Hn]. }
  match goal with
  | |- fst (match ?m w with _ => _ end) = _ =>
      assert (Hm : fst (m w) = Normal tt) by
        (apply Hfirst; destruct (p_state pr); auto);
      destruct (m w) as [[[]|e] w1]; [|discriminate Hm]
  end.
  unfold bind at 1, gets at 1.
  set (pr' := get_promize w1 p).
  destruct (p_state pr'); try reflexivity.
  unfold bind.
  pose proof (forEach_callbacks_normal (catchCallbacks pr') (p_value pr') w1) as Hn.
  destruct (forEach _ _ w1) as [[[]|e] w2]; [done|discriminate Hn].
Qed.

(** [then], in general: the two pushes, then [#executeCallbacks]. *)
Lemma then_exact w q f r :
  then_ q f r w =
    (Normal (length (heap w)),
     exec (executeCallbacks q)
       (set_heap (alter (subscribe f r (length (heap w))) q
                    (heap w ++ [new_promize])) w)).
Proof.
  set (w0 := set_heap (alter (subscribe f r (length (heap w))) q
                    (heap w ++ [new_promize])) w).
  assert (E : (push_thenCallbacks q (ThenCallback f (length (heap w))) ;;;
               push_catchCallbacks q (CatchCallback r (length (heap w))) ;;;
               executeCallbacks q) (set_heap (heap w ++ [new_promize]) w)
              = executeCallbacks q w0).
  { unfold bind, push_thenCallbacks, push_catchCallbacks, alter_promize, modify.
    unfold set_heap. cbn [fst snd heap envs microtasks console].
    rewrite list_alter_alter_eq.
    rewrite (list_alter_ext _ (subscribe f r (length (heap w))) _ (heap w ++ [new_promize]) q)
      by (intros; reflexivity).
    reflexivity. }
  unfold then_, constructor. unfold bind at 1. unfold alloc_promize at 1.
  unfold bind at 1. unfold try_catch. rewrite E.
  pose proof (executeCallbacks_normal q w0) as Hn. unfold exec.
  destruct (executeCallbacks q w0) as [[[]|e] w1]; [|discriminate Hn].
  reflexivity.
Qed.

Definition job_callbacks (j : job) (pr : promize) : list callback :=
  match j with
  | OnFulfilledJob _ _ => thenCallbacks pr
  | OnRejectedJob _ _ => catchCallbacks pr
  end.

(** The record of an instance once a job has settled it and its
    callbacks have run. *)
Definition settled_by (j : job) (pr : promize) : promize :=
  match j with
  | OnFulfilledJob _ v => mkPromize FULFILLED v [] (catchCallbacks pr)
  | OnRejectedJob _ r => mkPromize REJECTED r (thenCallbacks pr) []
  end.

(** A scheduled settlement with a non-Promize payload on a pending
    instance: the record is written, the matching callbacks fire. *)
Lemma run_job_exact j w :
  state_of w (job_target j) = PENDING ->
  plain (job_payload j) ->
  (job_target j < length (heap w))%nat ->
  forallb calm_callback (job_callbacks j (get_promize w (job_target j))) = true ->
  exec (run_job j) w =
    set_heap (alter (settled_by j) (job_target j) (heap w))
      (fire (job_callbacks j (get_promize w (job_target j))) (job_payload j) w).
Proof.
  intros Hst Hpl Hlt Hc. rewrite run_job_plain by done.
  set (t := job_target j) in *.
  set (ws := set_heap (alter (settle (job_state j) (job_payload j)) t (heap w)) w).
  assert (Hrec : get_promize ws t = settle (job_state j) (job_payload j) (get_promize w t)).
  { subst ws. rewrite get_promize_alter. by rewrite decide_True. }
  destruct j as [p v|p v]; simpl in *.
  - rewrite executeCallbacks_fulfilled
      by (unfold state_of; rewrite Hrec; done).
    unfold value_of. rewrite Hrec. simpl. subst ws.
    rewrite fire_set_heap by done. unfold set_heap; simpl.
    rewrite list_alter_alter_eq. f_equal.
  - rewrite executeCallbacks_rejected
      by (unfold state_of; rewrite Hrec; done).
    unfold value_of. rewrite Hrec. simpl. subst ws.
    rewrite fire_set_heap by done. unfold set_heap; simpl.
    rewrite list_alter_alter_eq. f_equal.
Qed.

Lemma tick_exact j q w :
  microtasks w = j :: q ->
  state_of w (job_target j) = PENDING ->
  plain (job_payload j) ->
  (job_target j < length (heap w))%nat ->
  forallb calm_callback (job_callbacks j (get_promize w (job_target j))) = true ->
  tick w =
    set_heap (alter (settled_by j) (job_target j) (heap w))
      (fire (job_callbacks j (get_promize w (job_target j))) (job_payload j)
         (set_microtasks q w)).
Proof.
  intros Hq Hst Hpl Hlt Hc. rewrite (tick_cons j q) by done.
  rewrite run_job_exact by done. reflexivity.
Qed.

(** ** Scripts: array literals of factory calls *)

(** An element of an input array as the examples write it: a plain value,
    [Promize.resolve(v)] or [Promize.reject(r)]. *)
Inductive item : Type :=
  | Plain (v : value)
  | Succeeded (v : value)
  | Failed (r : value).

(** Evaluation of the array literal, left to right. *)
Fixpoint make_inputs (items : list item) : M (list value) :=
  match items with
  | [] => ret []
  | Plain v :: rest =>
      let! vs := make_inputs rest in ret (v :: vs)
  | Succeeded v :: rest =>
      let! p := resolve v in
      let! vs := make_inputs rest in ret (VPromize p :: vs)
  | Failed r :: rest =>
      let! p := reject r in
      let! vs := make_inputs rest in ret (VPromize p :: vs)
  end.

Definition all_of (items : list item) : M pid :=
  let! vs := make_inputs items in all vs.

Definition allSettled_of (items : list item) : M pid :=
  let! vs := make_inputs items in allSettled vs.

Definition race_of (items : list item) : M pid :=
  let! vs := make_inputs items in race vs.

Definition reject_of_resolve (x : value) : M pid :=
  let! inner := resolve x in reject (VPromize inner).
Definition reject_of_reject (x : value) : M pid :=
  let! inner := reject x in reject (VPromize inner).

(** A world in which instance 0 is already fulfilled with [v] and the
    queue is empty. *)
Definition settled_world (v : value) : world :=
  run 1 (exec (resolve v) empty_world).

(** ** C1: settlement happens once *)

(** C1.  Once the [#state] of an instance has left PENDING, no sequence of
    queue turns and client calls changes its [#state] or [#value] again,
    and a later settlement attempt scheduled by either capability leaves
    the whole world as it was: only the first settlement is observed. *)
Theorem settle_once (w : world) (p : pid) :
  state_of w p <> PENDING ->
  (forall acts,
     state_of (perform_all acts w) p = state_of w p /\
     value_of (perform_all acts w) p = value_of w p) /\
  (forall v, exec (run_job (OnFulfilledJob p v)) w = w) /\
  (forall r, exec (run_job (OnRejectedJob p r)) w = w).
Proof.
  intros Hp. split; [|split].
  - intros acts. by apply perform_all_stable.
  - intros v. by apply (run_job_settled (OnFulfilledJob p v)).
  - intros r. by apply (run_job_settled (OnRejectedJob p r)).
Qed.

(** ** C2: a Promize given to the success capability is adopted *)

Lemma get_promize_subscribed w q f r :
  (q < length (heap w))%nat ->
  get_promize
    (set_heap (alter (subscribe f r (length (heap w))) q (heap w ++ [new_promize])) w) q =
  subscribe f r (length (heap w)) (get_promize w q).
Proof.
  intros Hq. unfold get_promize; simpl. rewrite lookup_total_alter.
  rewrite decide_True by (rewrite length_app; simpl; lia).
  by rewrite lookup_total_alloc.
Qed.

Lemma settled_valid w p : state_of w p <> PENDING -> (p < length (heap w))%nat.
Proof.
  intros H. destruct (decide (p < length (heap w))%nat); [done|].
  exfalso. apply H. apply state_of_fresh. lia.
Qed.

Lemma run_job_adopt w outer inner :
  state_of w outer = PENDING ->
  exec (run_job (OnFulfilledJob outer (VPromize inner))) w =
  exec (then_ inner (VFun (OnFulfilledBind outer)) (VFun (OnRejectedBind outer))) w /\
  exec (run_job (OnRejectedJob outer (VPromize inner))) w =
  exec (then_ inner (VFun (OnFulfilledBind outer)) (VFun (OnRejectedBind outer))) w.
Proof.
  intros Hst. unfold exec; simpl. unfold bind at 1 3, gets. rewrite Hst.
  unfold bind, ret.
  by destruct (then_ inner _ _ w) as [[?|?] ?].
Qed.

(** The job [j] aimed at another instance: same kind, same payload. *)
Definition forwarded (j : job) (d : pid) : job :=
  match j with
  | OnFulfilledJob _ v => OnFulfilledJob d v
  | OnRejectedJob _ r => OnRejectedJob d r
  end.



(** The world in which the callbacks of the target of [j] run: the
    record is written (lines 304, 340), [j] has left the queue. *)
Definition settling (j : job) (q : list job) (w : world) : world :=
  set_heap (alter (settle (job_state j) (job_payload j)) (job_target j) (heap w))
    (set_microtasks q w).

Lemma get_promize_settling j q w p :
  get_promize (settling j q w) p =
    if decide (job_target j = p /\ (job_target j < length (heap w))%nat)
    then settle (job_state j) (job_payload j) (get_promize w p)
    else get_promize w p.
Proof. apply (get_promize_alter (set_microtasks q w)). Qed.

Lemma tick_settling j q w :
  microtasks w = j :: q ->
  state_of w (job_target j) = PENDING ->
  plain (job_payload j) ->
  (job_target j < length (heap w))%nat ->
  tick w =
    let w1 := fire (job_callbacks j (get_promize w (job_target j))) (job_payload j)
                (settling j q w) in
    set_heap (alter (match j with
                     | OnFulfilledJob _ _ => clear_then
                     | OnRejectedJob _ _ => clear_catch
                     end) (job_target j) (heap w1)) w1.
Proof.
  intros Hq Hst Hpl Hlt. rewrite (tick_cons j q) by done.
  rewrite run_job_plain by done.
  change (set_heap _ (set_microtasks q w)) with (settling j q w).
  assert (Hrec : get_promize (settling j q w) (job_target j) =
                 settle (job_state j) (job_payload j) (get_promize w (job_target j))).
  { rewrite get_promize_settling. by rewrite decide_True. }
  destruct j as [p v|p v]; simpl in *.
  - rewrite executeCallbacks_fulfilled_any by (unfold state_of; by rewrite Hrec).
    unfold value_of. by rewrite Hrec.
  - rewrite executeCallbacks_rejected_any by (unfold state_of; by rewrite Hrec).
    unfold value_of. by rewrite Hrec.
Qed.





Lemma run_quiescent n w : microtasks w = [] -> run n w = w.
Proof.
  intros H. induction n as [|n IH]; simpl; [done|].
  by rewrite tick_nil.
Qed.

(** ** C3: a continuation registered on a settled instance *)

(** C3 (violated by the code).  On an instance that is already FULFILLED
    and whose queue is empty, [then(console.log)] has called the handler
    by the time it returns: the console holds the value although no
    microtask has run since the registration. *)
Theorem then_on_settled_calls_handler_synchronously :
  let w := settled_world (VNum 1) in
  state_of w 0%nat = FULFILLED /\
  microtasks w = [] /\
  console w = [] /\
  console (exec (then_ 0%nat (VFun ConsoleLog) VUndefined) w) = [[VNum 1]].
Proof. vm_compute. auto. Qed.

(** ** C4: [Promize.reject] *)

(** C4, amended.  [Promize.reject(x)] with [x] not a Promize returns a new
    instance that ends REJECTED with exactly [x], whatever is already
    queued.  A Promize reason is not kept as it is: the scheduled closure
    of the failure capability treats it exactly as the one of the success
    capability does, so [Promize.reject(Promize.resolve(x))] ends
    FULFILLED with [x] and [Promize.reject(Promize.reject(x))] ends
    REJECTED with [x]. *)
Theorem reject_settles (w : world) (x : value) (n : nat) :
  queue_wf w ->
  plain x ->
  (length (microtasks w) < n)%nat ->
  (eval (reject x) w = Normal (length (heap w)) /\
   state_of (run n (exec (reject x) w)) (length (heap w)) = REJECTED /\
   value_of (run n (exec (reject x) w)) (length (heap w)) = x) /\
  (forall w0 outer inner,
     exec (run_job (OnRejectedJob outer (VPromize inner))) w0 =
     exec (run_job (OnFulfilledJob outer (VPromize inner))) w0) /\
  (let w1 := run 4 (exec (reject_of_resolve x) empty_world) in
   eval (reject_of_resolve x) empty_world = Normal 1%nat /\
   state_of w1 1%nat = FULFILLED /\ value_of w1 1%nat = x /\ microtasks w1 = []) /\
  (let w2 := run 4 (exec (reject_of_reject x) empty_world) in
   eval (reject_of_reject x) empty_world = Normal 1%nat /\
   state_of w2 1%nat = REJECTED /\ value_of w2 1%nat = x /\ microtasks w2 = []).
Proof.
  intros Hwf Hx Hn. split; [|split; [|split]].
  - split; [reflexivity|]. unfold exec. rewrite reject_spec. simpl.
    apply (first_job_wins _ (microtasks w) (OnRejectedJob (length (heap w)) x) [] n);
      simpl; auto.
    + by apply queue_wf_fresh.
    + apply state_of_allocated.
    + rewrite length_app. simpl. lia.
  - intros w0 outer inner. unfold exec; simpl. unfold bind at 1 3, gets.
    by destruct (state_of w0 outer).
  - destruct x; try discriminate Hx; vm_compute; auto.
  - destruct x; try discriminate Hx; vm_compute; auto.
Qed.

(** ** C5: [Promize.all] on the empty array *)

(** C5 (violated by the code).  [Promize.all([])] schedules nothing: the
    queue is as it was and the new instance is PENDING; started from the
    empty world it is PENDING after any number of queue turns. *)
Theorem all_empty_never_settles (w : world) (n : nat) :
  eval (all []) w = Normal (length (heap w)) /\
  microtasks (exec (all []) w) = microtasks w /\
  state_of (exec (all []) w) (length (heap w)) = PENDING /\
  state_of (run n (exec (all []) empty_world)) 0%nat = PENDING.
Proof.
  repeat split.
  - apply state_of_allocated.
  - by rewrite run_quiescent.
Qed.

(** ** C9: [Promize.race] with a non-Promize first element *)

(** C9.  [race] over a sequence whose first element is not a Promize
    returns a new instance that ends FULFILLED with that element,
    whatever the other elements are and whatever is already queued. *)
Theorem race_plain_first (w : world) (v : value) (rest : list value) (n : nat) :
  queue_wf w ->
  plain v ->
  (length (microtasks w) < n)%nat ->
  eval (race (v :: rest)) w = Normal (length (heap w)) /\
  state_of (run n (exec (race (v :: rest)) w)) (length (heap w)) = FULFILLED /\
  value_of (run n (exec (race (v :: rest)) w)) (length (heap w)) = v.
Proof.
  intros Hwf Hv Hn. split.
  - destruct (race_spec w [] v rest Hv (Forall_nil_2 _)) as (w' & E & _).
    simpl in E. unfold eval. by rewrite E.
  - apply (race_plain_wins w [] v rest n); auto.
Qed.

(** ** Examples of the combinators *)

Example all_short_circuit_example :
  let w := run 12 (exec (all_of [Succeeded (VNum 1); Failed (VStr "boom"); Succeeded (VNum 3)]) empty_world) in
  state_of w 3%nat = REJECTED /\ value_of w 3%nat = VStr "boom" /\ microtasks w = [].
Proof. vm_compute. repeat split. Qed.

Example all_order_example :
  let w := run 12 (exec (all_of [Succeeded (VNum 1); Plain (VNum 2); Succeeded (VNum 3)]) empty_world) in
  state_of w 2%nat = FULFILLED /\ value_of w 2%nat = VArray 0%nat /\
  array_of w 0%nat = [Some (VNum 1); Some (VNum 2); Some (VNum 3)] /\ microtasks w = [].
Proof. vm_compute. repeat split. Qed.

Example allSettled_example :
  let w := run 12 (exec (allSettled_of [Succeeded (VNum 1); Failed (VStr "e")]) empty_world) in
  state_of w 2%nat = FULFILLED /\ value_of w 2%nat = VArray 0%nat /\
  array_of w 0%nat = [Some (fulfilled_record (VNum 1)); Some (rejected_record (VStr "e"))] /\
  microtasks w = [].
Proof. vm_compute. repeat split. Qed.

(** ** Symbolic execution of the scripts *)

Definition item_plain (it : item) : Prop :=
  match it with Plain v | Succeeded v | Failed v => plain v end.

Definition item_payload (it : item) : value :=
  match it with Plain v | Succeeded v | Failed v => v end.

Definition is_future (it : item) : bool :=
  match it with Plain _ => false | _ => true end.

Definition is_failed (it : item) : bool :=
  match it with Failed _ => true | _ => false end.

(** Number of instances the array literal creates. *)
Fixpoint futures (items : list item) : nat :=
  match items with
  | [] => 0
  | Plain _ :: rest => futures rest
  | _ :: rest => S (futures rest)
  end.

(** The values of the array literal when the first instance it creates
    has identity [p]. *)
Fixpoint inputs_of (p : pid) (items : list item) : list value :=
  match items with
  | [] => []
  | Plain v :: rest => v :: inputs_of p rest
  | _ :: rest => VPromize p :: inputs_of (S p) rest
  end.

(** The jobs its factory calls schedule. *)
Fixpoint jobs_of (p : pid) (items : list item) : list job :=
  match items with
  | [] => []
  | Plain _ :: rest => jobs_of p rest
  | Succeeded v :: rest => OnFulfilledJob p v :: jobs_of (S p) rest
  | Failed r :: rest => OnRejectedJob p r :: jobs_of (S p) rest
  end.

Lemma alter_middle {A} (f : A -> A) (l1 : list A) x l2 :
  alter f (length l1) (l1 ++ x :: l2) = l1 ++ f x :: l2.
Proof.
  induction l1 as [|y l1 IH]; simpl; [done|]. by rewrite <- IH.
Qed.

Lemma alter_middle' {A} (f : A -> A) (l1 : list A) x l2 n :
  n = length l1 -> alter f n (l1 ++ x :: l2) = l1 ++ f x :: l2.
Proof. intros ->. apply alter_middle. Qed.

Lemma lookup_total_middle (l1 : list promize) x l2 n :
  n = length l1 -> (l1 ++ x :: l2) !!! n = x.
Proof. intros ->. apply list_lookup_total_middle. reflexivity. Qed.

(** The callbacks of a cell that a script has built are calm. *)
Ltac calm_tac :=
  cbn [job_target job_payload job_callbacks];
  unfold get_promize; cbn [heap set_heap set_microtasks];
  first
    [ reflexivity
    | rewrite lookup_total_middle by reflexivity; reflexivity
    | rewrite lookup_total_middle by (rewrite ?length_app; simpl; lia); reflexivity ].

Lemma make_inputs_spec items : forall w,
  make_inputs items w =
    (Normal (inputs_of (length (heap w)) items),
     mkWorld (heap w ++ replicate (futures items) new_promize) (envs w)
       (microtasks w ++ jobs_of (length (heap w)) items) (console w)).
Proof.
  induction items as [|[v|v|r] items IH]; intros w; simpl.
  - rewrite !app_nil_r. by destruct w.
  - unfold bind. rewrite IH. reflexivity.
  - unfold bind at 1. rewrite resolve_spec. unfold bind at 1. rewrite IH. simpl.
    rewrite length_app, Nat.add_1_r. simpl. rewrite <- !app_assoc. reflexivity.
  - unfold bind at 1. rewrite reject_spec. unfold bind at 1. rewrite IH. simpl.
    rewrite length_app, Nat.add_1_r. simpl. rewrite <- !app_assoc. reflexivity.
Qed.

Lemma length_inputs_of items : forall p, length (inputs_of p items) = length items.
Proof.
  induction items as [|[v|v|r] items IH]; intros p; simpl; auto.
Qed.

(** The record of a fresh instance after [then(f)] (one argument). *)
Definition sub_cell (f : func) (next : pid) : promize :=
  mkPromize PENDING VUndefined
    [ThenCallback (VFun f) next] [CatchCallback VUndefined next].

(** The record of a fresh instance after [catch(h)]. *)
Definition link_cell (h : value) (next : pid) : promize :=
  mkPromize PENDING VUndefined
    [ThenCallback VUndefined next] [CatchCallback h next].

(** [p.then(f).catch(h)] on a fresh instance [p]. *)
Lemma then_catch_fresh L M envs0 q con f h :
  (let! d := then_ (length L) (VFun f) VUndefined in
   catch d h ;;; ret tt)
    (mkWorld (L ++ new_promize :: M) envs0 q con) =
  (Normal tt,
   mkWorld (L ++ sub_cell f (length (L ++ new_promize :: M)) :: M ++
              [link_cell h (S (length (L ++ new_promize :: M))); new_promize])
     envs0 q con).
Proof.
  remember (length (L ++ new_promize :: M)) as d eqn:Hd0.
  unfold bind at 1.
  rewrite then_pending by
    (unfold state_of, get_promize; simpl; by rewrite lookup_total_middle).
  cbn [heap envs microtasks console set_heap]. rewrite <- Hd0.
  assert (H1 : alter (subscribe (VFun f) VUndefined d) (length L)
                 ((L ++ new_promize :: M) ++ [new_promize]) =
               (L ++ sub_cell f d :: M) ++ [new_promize]).
  { rewrite <- !app_assoc. simpl. by rewrite alter_middle. }
  unfold set_heap. cbn [heap envs microtasks console]. rewrite H1.
  assert (Hd : d = length (L ++ sub_cell f d :: M)).
  { rewrite Hd0, !length_app. reflexivity. }
  unfold bind at 1. unfold catch.
  rewrite then_pending by
    (unfold state_of, get_promize; simpl; by rewrite lookup_total_middle).
  cbn [heap envs microtasks console set_heap].
  unfold set_heap. cbn [heap envs microtasks console].
  assert (Hlen : length ((L ++ sub_cell f d :: M) ++ [new_promize]) = S d).
  { rewrite length_app. simpl. lia. }
  rewrite Hlen.
  rewrite <- (app_assoc (L ++ sub_cell f d :: M)). simpl.
  rewrite (alter_middle' _ _ _ _ d Hd).
  unfold subscribe. simpl. unfold ret. f_equal. f_equal.
  rewrite <- app_assoc. simpl. reflexivity.
Qed.

Section AllScript.

(** The locals of the call live behind [E0]; [outer] is the instance
    [Promize.all] returns and [len] is [values.length]. *)
Variable E0 : list locals.
Variable outer : pid.
Variable len : Z.

Let e : eid := length E0.

(** Records of the input instances once the loop has subscribed them;
    [i] is the index of the first item, [d] the identity of the next
    instance to be created. *)
Fixpoint all_subscribed (i : nat) (d : pid) (items : list item) : list promize :=
  match items with
  | [] => []
  | Plain _ :: rest => all_subscribed (S i) d rest
  | _ :: rest =>
      sub_cell (AllThen e i len outer) d :: all_subscribed (S i) (S (S d)) rest
  end.

(** Records of the instances the loop creates: for every input instance
    the one returned by [then] and the one returned by [catch]. *)
Fixpoint all_chain (d : pid) (items : list item) : list promize :=
  match items with
  | [] => []
  | Plain _ :: rest => all_chain d rest
  | _ :: rest =>
      link_cell (VFun (OnRejectedBind outer)) (S d) :: new_promize ::
      all_chain (S (S d)) rest
  end.

Fixpoint plain_count (items : list item) : Z :=
  match items with
  | [] => 0
  | Plain _ :: rest => 1 + plain_count rest
  | _ :: rest => plain_count rest
  end.

(** [result] after the loop has stored the non-Promize elements. *)
Fixpoint plain_results (i : nat) (items : list item) (R : js_array) : js_array :=
  match items with
  | [] => R
  | Plain v :: rest => plain_results (S i) rest (array_set i v R)
  | _ :: rest => plain_results (S i) rest R
  end.

(** Jobs scheduled by the test of line 157. *)
Fixpoint loop_resolves (c : Z) (items : list item) : list job :=
  match items with
  | [] => []
  | Plain _ :: rest =>
      (if c =? len - 1 then [OnFulfilledJob outer (VArray e)] else []) ++
      loop_resolves (c + 1) rest
  | _ :: rest => loop_resolves c rest
  end.

(** Lines 156-161 on a non-Promize element. *)
Lemma all_plain_step h c R q con i v :
  (resolve_when_completed e (len - 1) outer ;;;
   assign_result e i v ;;;
   increment_completed e)
    (mkWorld h (E0 ++ [mkLocals c R]) q con) =
  (Normal tt,
   mkWorld h (E0 ++ [mkLocals (c + 1) (array_set i v R)])
     (q ++ (if c =? len - 1 then [OnFulfilledJob outer (VArray e)] else []))
     con).
Proof.
  unfold bind at 1. unfold resolve_when_completed, bind at 1, gets.
  unfold get_locals. cbn [envs]. subst e.
  rewrite list_lookup_total_middle by reflexivity. cbn [completedPromises].
  destruct (c =? len - 1).
  - unfold onFulfilled, queueMicrotask, modify, bind, assign_result,
      increment_completed, alter_locals, modify, set_envs, set_microtasks.
    cbn [heap envs microtasks console fst snd].
    rewrite !alter_middle. reflexivity.
  - unfold ret, bind, assign_result,
      increment_completed, alter_locals, modify, set_envs, set_microtasks.
    cbn [heap envs microtasks console fst snd].
    rewrite !alter_middle, app_nil_r. reflexivity.
Qed.

Lemma all_loop_exact items : forall i c R L T q con,
  Forall item_plain items ->
  all_loop e outer len i (inputs_of (length L) items)
    (mkWorld (L ++ replicate (futures items) new_promize ++ T)
       (E0 ++ [mkLocals c R]) q con) =
  (Normal tt,
   mkWorld
     (L ++ all_subscribed i (length L + futures items + length T) items ++ T ++
        all_chain (length L + futures items + length T) items)
     (E0 ++ [mkLocals (c + plain_count items) (plain_results i items R)])
     (q ++ loop_resolves c items) con).
Proof.
  induction items as [|[v|v|r] items IH]; intros i c R L T q con Hpl.
  - simpl. rewrite !app_nil_r, Z.add_0_r. reflexivity.
  - inversion Hpl as [|? ? Hv Hrest]; subst. simpl in Hv.
    simpl inputs_of. simpl all_loop. unfold plain in Hv. rewrite Hv. simpl negb.
    cbv iota. unfold bind at 1. rewrite all_plain_step.
    rewrite IH by done. simpl.
    rewrite <- app_assoc, Z.add_assoc. reflexivity.
  - inversion Hpl as [|? ? Hv Hrest]; subst.
    simpl inputs_of. simpl all_loop. unfold bind at 1.
    rewrite (then_catch_fresh L (replicate (futures items) new_promize ++ T)).
    set (d := length (L ++ new_promize :: replicate (futures items) new_promize ++ T)).
    assert (Hd : d = (length L + S (futures items) + length T)%nat).
    { subst d. rewrite !length_app. simpl. rewrite length_app, length_replicate. lia. }
    replace (L ++ sub_cell (AllThen e i len outer) d ::
               (replicate (futures items) new_promize ++ T) ++
               [link_cell (VFun (OnRejectedBind outer)) (S d); new_promize])
      with ((L ++ [sub_cell (AllThen e i len outer) d]) ++
               replicate (futures items) new_promize ++
               (T ++ [link_cell (VFun (OnRejectedBind outer)) (S d); new_promize]))
      by (rewrite <- !app_assoc; reflexivity).
    replace (S (length L)) with (length (L ++ [sub_cell (AllThen e i len outer) d]))
      by (rewrite length_app; simpl; lia).
    rewrite IH by done.
    rewrite !length_app. simpl length.
    replace (length L + 1 + futures items + (length T + 2))%nat with (S (S d)) by lia.
    simpl. rewrite <- Hd. rewrite <- !app_assoc. simpl. reflexivity.
  - inversion Hpl as [|? ? Hv Hrest]; subst.
    simpl inputs_of. simpl all_loop. unfold bind at 1.
    rewrite (then_catch_fresh L (replicate (futures items) new_promize ++ T)).
    set (d := length (L ++ new_promize :: replicate (futures items) new_promize ++ T)).
    assert (Hd : d = (length L + S (futures items) + length T)%nat).
    { subst d. rewrite !length_app. simpl. rewrite length_app, length_replicate. lia. }
    replace (L ++ sub_cell (AllThen e i len outer) d ::
               (replicate (futures items) new_promize ++ T) ++
               [link_cell (VFun (OnRejectedBind outer)) (S d); new_promize])
      with ((L ++ [sub_cell (AllThen e i len outer) d]) ++
               replicate (futures items) new_promize ++
               (T ++ [link_cell (VFun (OnRejectedBind outer)) (S d); new_promize]))
      by (rewrite <- !app_assoc; reflexivity).
    replace (S (length L)) with (length (L ++ [sub_cell (AllThen e i len outer) d]))
      by (rewrite length_app; simpl; lia).
    rewrite IH by done.
    rewrite !length_app. simpl length.
    replace (length L + 1 + futures items + (length T + 2))%nat with (S (S d)) by lia.
    simpl. rewrite <- Hd. rewrite <- !app_assoc. simpl. reflexivity.
Qed.

End AllScript.

Section AllWaves.

Variable E0 : list locals.
Variable outer : pid.
Variable len : Z.

Let e : eid := length E0.

(** Records of the input instances once their own jobs have run. *)
Fixpoint all_settled (i : nat) (d : pid) (items : list item) : list promize :=
  match items with
  | [] => []
  | Plain _ :: rest => all_settled (S i) d rest
  | Succeeded v :: rest =>
      mkPromize FULFILLED v [] [CatchCallback VUndefined d] ::
      all_settled (S i) (S (S d)) rest
  | Failed r :: rest =>
      mkPromize REJECTED r [ThenCallback (VFun (AllThen e i len outer)) d] [] ::
      all_settled (S i) (S (S d)) rest
  end.

Fixpoint succ_count (items : list item) : Z :=
  match items with
  | [] => 0
  | Succeeded _ :: rest => 1 + succ_count rest
  | _ :: rest => succ_count rest
  end.

(** [result] after the handlers of lines 165-177 have stored the values
    of the fulfilled input instances. *)
Fixpoint succ_results (i : nat) (items : list item) (R : js_array) : js_array :=
  match items with
  | [] => R
  | Succeeded v :: rest => succ_results (S i) rest (array_set i v R)
  | _ :: rest => succ_results (S i) rest R
  end.

(** Jobs scheduled while the jobs of the input instances run. *)
Fixpoint wave1_out (i : nat) (d : pid) (c : Z) (items : list item) : list job :=
  match items with
  | [] => []
  | Plain _ :: rest => wave1_out (S i) d c rest
  | Succeeded v :: rest =>
      (if c + 1 =? len then [OnFulfilledJob outer (VArray e)] else []) ++
      OnFulfilledJob d VUndefined :: wave1_out (S i) (S (S d)) (c + 1) rest
  | Failed r :: rest =>
      OnRejectedJob d r :: wave1_out (S i) (S (S d)) c rest
  end.

Lemma increment_exact h c R q con :
  increment_completed e (mkWorld h (E0 ++ [mkLocals c R]) q con) =
  (Normal tt, mkWorld h (E0 ++ [mkLocals (c + 1) R]) q con).
Proof.
  unfold increment_completed, alter_locals, modify, set_envs.
  cbn [heap envs microtasks console]. subst e. by rewrite alter_middle.
Qed.

Lemma assign_exact h c R q con i v :
  assign_result e i v (mkWorld h (E0 ++ [mkLocals c R]) q con) =
  (Normal tt, mkWorld h (E0 ++ [mkLocals c (array_set i v R)]) q con).
Proof.
  unfold assign_result, alter_locals, modify, set_envs.
  cbn [heap envs microtasks console]. subst e. by rewrite alter_middle.
Qed.

Lemma resolve_when_exact h c R q con b :
  resolve_when_completed e b outer (mkWorld h (E0 ++ [mkLocals c R]) q con) =
  (Normal tt,
   mkWorld h (E0 ++ [mkLocals c R])
     (q ++ (if c =? b then [OnFulfilledJob outer (VArray e)] else [])) con).
Proof.
  unfold resolve_when_completed, bind, gets, get_locals.
  cbn [heap envs microtasks console]. subst e.
  rewrite list_lookup_total_middle by reflexivity. cbn [completedPromises].
  destruct (c =? b); [reflexivity|].
  unfold ret. by rewrite app_nil_r.
Qed.

(** The closure of lines 58-80 around the handler of lines 165-177. *)
Lemma fire_AllThen h c R q con i d v :
  fire [ThenCallback (VFun (AllThen e i len outer)) d] v
    (mkWorld h (E0 ++ [mkLocals c R]) q con) =
  mkWorld h (E0 ++ [mkLocals (c + 1) (array_set i v R)])
    (q ++ (if c + 1 =? len then [OnFulfilledJob outer (VArray e)] else []) ++
       [OnFulfilledJob d VUndefined]) con.
Proof.
  unfold fire, exec. simpl forEach. unfold bind at 1.
  unfold run_callback, try_catch. unfold bind at 1.
  simpl call_func.
  unfold bind at 1. rewrite increment_exact.
  unfold bind at 1. rewrite assign_exact.
  unfold bind at 1. rewrite resolve_when_exact.
  unfold ret, onFulfilled, queueMicrotask, modify, set_microtasks.
  cbn [fst snd heap envs microtasks console].
  by rewrite <- app_assoc.
Qed.

Lemma wave1_exact items : forall i d c R L T Q con,
  Forall item_plain items ->
  run (futures items)
    (mkWorld (L ++ all_subscribed E0 outer len i d items ++ T)
       (E0 ++ [mkLocals c R]) (jobs_of (length L) items ++ Q) con) =
  mkWorld (L ++ all_settled i d items ++ T)
    (E0 ++ [mkLocals (c + succ_count items) (succ_results i items R)])
    (Q ++ wave1_out i d c items) con.
Proof.
  induction items as [|[v|v|r] items IH]; intros i d c R L T Q con Hpl.
  - simpl. by rewrite Z.add_0_r, app_nil_r.
  - inversion Hpl; subst. simpl. by apply IH.
  - inversion Hpl as [|? ? Hv Hrest]; subst. simpl in Hv.
    cbn [futures all_subscribed jobs_of run].
    rewrite <- !app_comm_cons.
    erewrite tick_exact; [|reflexivity| | | |calm_tac].
    2:{ unfold state_of, get_promize; simpl. by rewrite lookup_total_middle. }
    2:{ exact Hv. }
    2:{ simpl. rewrite length_app. simpl. lia. }
    cbn [job_target job_payload job_callbacks].
    unfold get_promize. cbn [heap].
    rewrite lookup_total_middle by reflexivity.
    unfold set_microtasks. cbn [heap envs microtasks console thenCallbacks sub_cell].
    fold e. rewrite fire_AllThen.
    unfold set_heap. cbn [heap envs microtasks console].
    rewrite alter_middle. cbn [settled_by catchCallbacks sub_cell].
    replace (L ++ mkPromize FULFILLED v [] [CatchCallback VUndefined d] ::
               all_subscribed E0 outer len (S i) (S (S d)) items ++ T)
      with ((L ++ [mkPromize FULFILLED v [] [CatchCallback VUndefined d]]) ++
               all_subscribed E0 outer len (S i) (S (S d)) items ++ T)
      by (by rewrite <- app_assoc).
    replace (S (length L))
      with (length (L ++ [mkPromize FULFILLED v [] [CatchCallback VUndefined d]]))
      by (rewrite length_app; simpl; lia).
    rewrite <- (app_assoc (jobs_of _ items)).
    rewrite IH by done.
    cbn [all_settled succ_count succ_results wave1_out].
    rewrite <- !app_assoc. simpl.
    rewrite Z.add_assoc. reflexivity.
  - inversion Hpl as [|? ? Hv Hrest]; subst. simpl in Hv.
    cbn [futures all_subscribed jobs_of run].
    rewrite <- !app_comm_cons.
    erewrite tick_exact; [|reflexivity| | | |calm_tac].
    2:{ unfold state_of, get_promize; simpl. by rewrite lookup_total_middle. }
    2:{ exact Hv. }
    2:{ simpl. rewrite length_app. simpl. lia. }
    cbn [job_target job_payload job_callbacks].
    unfold get_promize. cbn [heap].
    rewrite lookup_total_middle by reflexivity.
    unfold set_microtasks. cbn [heap envs microtasks console catchCallbacks sub_cell].
    unfold fire, exec. simpl forEach. unfold bind, onRejected, queueMicrotask, modify, ret.
    unfold set_heap, set_microtasks. cbn [fst snd heap envs microtasks console].
    rewrite alter_middle. cbn [settled_by thenCallbacks sub_cell].
    fold e.
    replace (L ++ mkPromize REJECTED r [ThenCallback (VFun (AllThen e i len outer)) d] [] ::
               all_subscribed E0 outer len (S i) (S (S d)) items ++ T)
      with ((L ++ [mkPromize REJECTED r [ThenCallback (VFun (AllThen e i len outer)) d] []]) ++
               all_subscribed E0 outer len (S i) (S (S d)) items ++ T)
      by (by rewrite <- app_assoc).
    replace (S (length L))
      with (length (L ++ [mkPromize REJECTED r [ThenCallback (VFun (AllThen e i len outer)) d] []]))
      by (rewrite length_app; simpl; lia).
    rewrite <- (app_assoc (jobs_of _ items)).
    rewrite IH by done.
    cbn [all_settled succ_count succ_results wave1_out].
    rewrite <- !app_assoc. simpl. reflexivity.
Qed.

End AllWaves.

(** ** The [result] array *)

(** [a[j]], with holes and indices past the end read as absent. *)
Definition array_get (R : js_array) (j : nat) : option value :=
  match R !! j with
  | Some (Some v) => Some v
  | _ => None
  end.

Lemma length_array_set i v R : length (array_set i v R) = max (length R) (S i).
Proof.
  unfold array_set. case_decide.
  - rewrite length_insert. lia.
  - rewrite !length_app, length_replicate. simpl. lia.
Qed.

Lemma array_get_set i v R j :
  array_get (array_set i v R) j = if decide (j = i) then Some v else array_get R j.
Proof.
  unfold array_get, array_set. case_decide as Hi.
  - rewrite list_lookup_insert by done.
    destruct (decide (j = i)) as [->|Hne].
    + by rewrite decide_True.
    + rewrite decide_False by (intros [? _]; congruence). done.
  - destruct (decide (j = i)) as [->|Hne].
    + rewrite lookup_app_r by lia.
      rewrite lookup_app_r by (rewrite length_replicate; lia).
      rewrite length_replicate.
      by replace (i - length R - (i - length R))%nat with 0%nat by lia.
    + destruct (decide (j < length R)%nat).
      * by rewrite lookup_app_l.
      * rewrite lookup_app_r by lia.
        rewrite (lookup_ge_None_2 R) by lia.
        destruct (decide (j < i)%nat).
        -- rewrite lookup_app_l by (rewrite length_replicate; lia).
           by rewrite lookup_replicate_2 by lia.
        -- rewrite lookup_app_r by (rewrite length_replicate; lia).
           rewrite length_replicate.
           destruct (j - length R - (i - length R))%nat as [|m] eqn:E; [lia|].
           done.
Qed.

(** An array of the right length without holes is the list of its
    elements. *)
Lemma array_full (F : js_array) (vals : list value) :
  length F = length vals ->
  (forall j v, vals !! j = Some v -> array_get F j = Some v) ->
  F = map Some vals.
Proof.
  intros Hlen Hget. apply list_eq. intros j.
  rewrite list_lookup_fmap.
  destruct (vals !! j) as [v|] eqn:Hv; simpl.
  - specialize (Hget j v Hv). unfold array_get in Hget.
    destruct (F !! j) as [[x|]|]; congruence.
  - apply lookup_ge_None_2. apply lookup_ge_None_1 in Hv. lia.
Qed.

(** Stores at increasing indices: [sel] picks the items that are stored. *)
Fixpoint store_results (sel : item -> option value) (i : nat)
    (items : list item) (R : js_array) : js_array :=
  match items with
  | [] => R
  | it :: rest =>
      store_results sel (S i) rest
        (match sel it with Some v => array_set i v R | None => R end)
  end.

Lemma array_get_store sel items : forall i R j,
  array_get (store_results sel i items R) j =
  match (if decide (i <= j)%nat then items !! (j - i)%nat ≫= sel else None) with
  | Some v => Some v
  | None => array_get R j
  end.
Proof.
  induction items as [|it items IH]; intros i R j; simpl.
  - by case_decide.
  - rewrite IH.
    destruct (decide (S i <= j)%nat) as [Hle|Hgt].
    + rewrite decide_True by lia.
      replace (j - i)%nat with (S (j - S i)) by lia. simpl.
      destruct (items !! (j - S i)%nat ≫= sel) as [v|]; [done|].
      destruct (sel it); [|done].
      rewrite array_get_set. by rewrite decide_False by lia.
    + destruct (decide (i <= j)%nat) as [Hle|Hgt'].
      * replace j with i by lia. rewrite Nat.sub_diag. simpl.
        destruct (sel it) as [v|]; simpl; [|done].
        rewrite array_get_set. by rewrite decide_True.
      * destruct (sel it); [|done].
        rewrite array_get_set. by rewrite decide_False by lia.
Qed.

Lemma length_store_lower sel items : forall i R,
  (length R <= length (store_results sel i items R))%nat.
Proof.
  induction items as [|it items IH]; intros i R; simpl; [done|].
  etrans; [|apply IH]. destruct (sel it); [|done].
  rewrite length_array_set. lia.
Qed.

Lemma length_store_upper sel items : forall i R,
  (length (store_results sel i items R) <= max (length R) (i + length items))%nat.
Proof.
  induction items as [|it items IH]; intros i R; simpl; [lia|].
  etrans; [apply IH|]. destruct (sel it); [|lia].
  rewrite length_array_set. lia.
Qed.

Lemma length_store_written sel items : forall i R m it v,
  items !! m = Some it -> sel it = Some v ->
  (i + m < length (store_results sel i items R))%nat.
Proof.
  induction items as [|it0 items IH]; intros i R m it v Hm Hsel; [done|].
  destruct m as [|m]; simpl in *.
  - inversion Hm; subst. rewrite Hsel.
    eapply Nat.lt_le_trans; [|apply length_store_lower].
    rewrite length_array_set. lia.
  - replace (i + S m)%nat with (S i + m)%nat by lia. by eapply IH.
Qed.

Definition sel_plain (it : item) : option value :=
  match it with Plain v => Some v | _ => None end.
Definition sel_succeeded (it : item) : option value :=
  match it with Succeeded v => Some v | _ => None end.

Lemma plain_results_store items : forall i R,
  plain_results i items R = store_results sel_plain i items R.
Proof. induction items as [|[]]; intros; simpl; auto. Qed.

Lemma succ_results_store items : forall i R,
  succ_results i items R = store_results sel_succeeded i items R.
Proof. induction items as [|[]]; intros; simpl; auto. Qed.

(** With no rejected input, the non-Promize elements and the values of
    the fulfilled ones fill [result] in input order. *)
Lemma all_results_full items :
  Forall (fun it => is_failed it = false) items ->
  succ_results 0 items (plain_results 0 items []) =
  map Some (map item_payload items).
Proof.
  intros Hnf. rewrite succ_results_store, plain_results_store.
  apply array_full.
  - rewrite length_map. apply Nat.le_antisymm.
    + etrans; [apply length_store_upper|].
      pose proof (length_store_upper sel_plain items 0 []). simpl in *. lia.
    + destruct (decide (items = [])) as [->|Hne]; [simpl; lia|].
      destruct (exists_last Hne) as (items' & it & ->).
      rewrite length_app. simpl.
      assert (Hl : (items' ++ [it]) !! length items' = Some it)
        by (by rewrite list_lookup_middle).
      destruct it as [v|v|r].
      * pose proof (length_store_lower sel_succeeded (items' ++ [Plain v]) 0
          (store_results sel_plain 0 (items' ++ [Plain v]) [])).
        pose proof (length_store_written sel_plain _ 0 [] _ _ v Hl eq_refl).
        simpl in *. lia.
      * pose proof (length_store_written sel_succeeded _ 0
          (store_results sel_plain 0 (items' ++ [Succeeded v]) []) _ _ v Hl eq_refl).
        simpl in *. lia.
      * apply Forall_app in Hnf as [_ Hnf]. inversion Hnf; subst. discriminate.
  - intros j v Hj. rewrite list_lookup_fmap in Hj.
    destruct (items !! j) as [it|] eqn:Hit; [|done]. simpl in Hj.
    inversion Hj; subst.
    rewrite array_get_store. rewrite decide_True by lia.
    rewrite Nat.sub_0_r, Hit. simpl.
    destruct it as [v|v|r]; simpl.
    + rewrite array_get_store. rewrite decide_True by lia.
      by rewrite Nat.sub_0_r, Hit.
    + done.
    + eapply Forall_lookup_1 in Hnf; [|exact Hit]. discriminate.
Qed.

(** ** Callbacks that only forward *)

(** Handlers that only schedule: a missing handler, or a bound
    capability. *)
Definition simple_handler (h : value) : Prop :=
  match h with
  | VFun (OnFulfilledBind _) | VFun (OnRejectedBind _) => True
  | VFun _ => False
  | _ => True
  end.

Definition simple_callback (cb : callback) : Prop :=
  match cb with
  | ThenCallback h _ | CatchCallback h _ => simple_handler h
  end.

Definition simple_promize (pr : promize) : Prop :=
  Forall simple_callback (thenCallbacks pr) /\
  Forall simple_callback (catchCallbacks pr).

(** The jobs such a callback schedules when it is run on [v]. *)
Definition callback_jobs (v : value) (cb : callback) : list job :=
  match cb with
  | ThenCallback (VFun (OnFulfilledBind p)) next
  | CatchCallback (VFun (OnFulfilledBind p)) next =>
      [OnFulfilledJob p v; OnFulfilledJob next VUndefined]
  | ThenCallback (VFun (OnRejectedBind p)) next
  | CatchCallback (VFun (OnRejectedBind p)) next =>
      [OnRejectedJob p v; OnFulfilledJob next VUndefined]
  | ThenCallback _ next => [OnFulfilledJob next v]
  | CatchCallback _ next => [OnRejectedJob next v]
  end.

Fixpoint callbacks_jobs (v : value) (cbs : list callback) : list job :=
  match cbs with
  | [] => []
  | cb :: rest => callback_jobs v cb ++ callbacks_jobs v rest
  end.

(** A world in which the pending instances hold forwarding callbacks only
    and only non-Promize payloads are queued. *)
Definition quiet (w : world) : Prop :=
  Forall (fun pr => p_state pr = PENDING -> simple_promize pr) (heap w) /\
  Forall (fun j => plain (job_payload j)) (microtasks w).

Lemma run_callback_simple cb v w :
  simple_callback cb ->
  run_callback cb v w =
    (Normal tt, set_microtasks (microtasks w ++ callback_jobs v cb) w).
Proof.
  intros Hs. destruct cb as [h n|h n]; destruct h as [| | | | | | |f|];
    simpl in *; try reflexivity;
    destruct f; try (exfalso; exact Hs);
    unfold try_catch, bind, onFulfilled, onRejected, queueMicrotask, modify, ret,
      set_microtasks; simpl; by rewrite <- app_assoc.
Qed.

Lemma simple_calm cbs :
  Forall simple_callback cbs -> forallb calm_callback cbs = true.
Proof.
  induction 1 as [|cb cbs Hs _ IH]; simpl; [done|].
  rewrite IH, andb_true_r.
  destruct cb as [h n|h n]; destruct h as [| | | | | | |f|]; try reflexivity;
    destruct f; try reflexivity; destruct Hs.
Qed.

Lemma fire_simple cbs v : forall w,
  Forall simple_callback cbs ->
  fire cbs v w = set_microtasks (microtasks w ++ callbacks_jobs v cbs) w.
Proof.
  induction cbs as [|cb cbs IH]; intros w Hs.
  - unfold fire, exec. simpl. rewrite app_nil_r. by destruct w.
  - inversion Hs as [|? ? Hcb Hrest]; subst.
    change (cb :: cbs) with ([cb] ++ cbs). rewrite fire_app.
    assert (H1 : fire [cb] v w = set_microtasks (microtasks w ++ callback_jobs v cb) w).
    { unfold fire, exec. simpl. unfold bind. by rewrite run_callback_simple. }
    rewrite H1, IH by done. unfold set_microtasks. simpl.
    by rewrite <- app_assoc.
Qed.

Lemma callbacks_jobs_plain v cbs :
  plain v -> Forall (fun j => plain (job_payload j)) (callbacks_jobs v cbs).
Proof.
  intros Hv. induction cbs as [|cb cbs IH]; simpl; [constructor|].
  apply Forall_app. split; [|exact IH].
  destruct cb as [h n|h n]; destruct h as [| | | | | | |f|]; simpl;
    try (repeat constructor; done);
    destruct f; repeat constructor; done.
Qed.

Lemma alter_ge {A} (f : A -> A) (l : list A) : forall i,
  (length l <= i)%nat -> alter f i l = l.
Proof.
  induction l as [|x l IH]; intros i Hi; [done|].
  destruct i as [|i]; simpl in *; [lia|].
  f_equal. apply IH. lia.
Qed.

Lemma settled_by_simple j pr : simple_promize pr -> simple_promize (settled_by j pr).
Proof.
  intros [Ht Hc]. destruct j; split; simpl; auto; constructor.
Qed.

(** In a quiet world a queue turn leaves the locals of the combinators
    alone, and the world stays quiet. *)
Lemma tick_quiet w : quiet w -> quiet (tick w) /\ envs (tick w) = envs w.
Proof.
  intros [Hh Hq]. destruct (microtasks w) as [|j q] eqn:Hmq.
  - rewrite tick_nil by done. split; [split|]; auto. by rewrite Hmq.
  - inversion Hq as [|? ? Hj Hq']; subst.
    destruct (decide (state_of w (job_target j) = PENDING)) as [Hst|Hst].
    + destruct (decide (job_target j < length (heap w))%nat) as [Hlt|Hge].
      * assert (Hcbs : Forall simple_callback
                  (job_callbacks j (get_promize w (job_target j)))).
        { assert (Hpr : simple_promize (get_promize w (job_target j))).
          { unfold get_promize.
            apply (Forall_lookup_total_1
                     (fun pr => p_state pr = PENDING -> simple_promize pr));
              [done|lia|exact Hst]. }
          destruct Hpr. by destruct j. }
        rewrite (tick_exact j q) by (try done; by apply simple_calm).
        rewrite fire_simple by done. simpl. split; [split|]; simpl.
        -- apply Forall_alter; [done|]. intros pr _ _ Hpend. by destruct j.
        -- apply Forall_app. split; [done|]. by apply callbacks_jobs_plain.
        -- done.
      * rewrite (tick_cons j q) by done. rewrite run_job_plain by done.
        simpl. rewrite alter_ge by lia.
        unfold exec. rewrite executeCallbacks_pending by exact Hst.
        simpl. split; [split|]; auto.
    + rewrite (tick_cons j q) by done. rewrite run_job_settled by done.
      simpl. split; [split|]; auto.
Qed.

Lemma run_quiet n : forall w, quiet w -> envs (run n w) = envs w.
Proof.
  induction n as [|n IH]; intros w Hq; simpl; [done|].
  destruct (tick_quiet w Hq) as [Hq' He]. rewrite IH by done. exact He.
Qed.

(** ** [Promize.all] on a script *)

Lemma count_items items :
  plain_count items + Z.of_nat (futures items) = Z.of_nat (length items).
Proof.
  induction items as [|[v|v|r] items IH]; simpl length; simpl futures;
    cbn [plain_count]; lia.
Qed.

Lemma succ_count_futures items :
  Forall (fun it => is_failed it = false) items ->
  succ_count items = Z.of_nat (futures items).
Proof.
  induction 1 as [|[v|v|r] items Hf _ IH]; simpl futures; cbn [succ_count];
    try lia. discriminate Hf.
Qed.

Lemma succ_count_le items : 0 <= succ_count items <= Z.of_nat (futures items).
Proof.
  induction items as [|[v|v|r] items IH]; simpl futures; cbn [succ_count]; lia.
Qed.

Lemma plain_count_nonneg items : 0 <= plain_count items.
Proof. induction items as [|[v|v|r] items IH]; cbn [plain_count]; lia. Qed.

Lemma length_all_subscribed E0 outer len items : forall i d,
  length (all_subscribed E0 outer len i d items) = futures items.
Proof. induction items as [|[v|v|r] items IH]; intros; simpl; auto. Qed.

Lemma length_all_settled E0 outer len items : forall i d,
  length (all_settled E0 outer len i d items) = futures items.
Proof. induction items as [|[v|v|r] items IH]; intros; simpl; auto. Qed.

Lemma length_jobs_of items : forall p, length (jobs_of p items) = futures items.
Proof. induction items as [|[v|v|r] items IH]; intros; simpl; auto. Qed.

Lemma jobs_of_targets items : forall p,
  Forall (fun j => (job_target j < p + futures items)%nat) (jobs_of p items).
Proof.
  induction items as [|[v|v|r] items IH]; intros p; simpl.
  - constructor.
  - apply IH.
  - constructor; [simpl; lia|].
    eapply Forall_impl; [apply (IH (S p))|]. simpl. intros. lia.
  - constructor; [simpl; lia|].
    eapply Forall_impl; [apply (IH (S p))|]. simpl. intros. lia.
Qed.

(** The test of line 157 fails as long as an element is still to come. *)
Lemma loop_resolves_none E0 outer len items : forall c,
  c + plain_count items < len ->
  loop_resolves E0 outer len c items = [].
Proof.
  induction items as [|[v|v|r] items IH]; intros c Hc; cbn [loop_resolves plain_count] in *;
    auto.
  pose proof (plain_count_nonneg items).
  destruct (Z.eqb_spec c (len - 1)); [lia|]. simpl. apply IH. lia.
Qed.

(** With non-Promize elements only, it succeeds at the last one. *)
Lemma loop_resolves_all_plain E0 outer len items : forall c,
  futures items = 0%nat -> items <> [] ->
  c + Z.of_nat (length items) = len ->
  loop_resolves E0 outer len c items = [OnFulfilledJob outer (VArray (length E0))].
Proof.
  induction items as [|[v|v|r] items IH]; intros c Hf Hne Hc; simpl in Hf;
    try done.
  cbn [loop_resolves]. destruct items as [|it items].
  - simpl in Hc. destruct (Z.eqb_spec c (len - 1)); [done|lia].
  - destruct (Z.eqb_spec c (len - 1)).
    + simpl length in Hc. lia.
    + simpl app. apply IH; [done|done|]. simpl length in *. lia.
Qed.

(** The handler that stores the last awaited value schedules the
    fulfilment of the outer instance. *)
Lemma wave1_out_resolves E0 outer len items : forall i d c,
  Forall (fun it => is_failed it = false) items ->
  (0 < futures items)%nat ->
  c + succ_count items = len ->
  exists q1 q2,
    wave1_out E0 outer len i d c items =
      q1 ++ OnFulfilledJob outer (VArray (length E0)) :: q2 /\
    Forall (fun j => (d <= job_target j)%nat) q1 /\
    (length q1 < futures items)%nat.
Proof.
  induction items as [|[v|v|r] items IH]; intros i d c Hnf Hk Hc;
    simpl in Hk; try lia; apply Forall_cons in Hnf as [Hf Hrest].
  - cbn [wave1_out succ_count] in *. by apply IH.
  - cbn [wave1_out succ_count] in *.
    destruct (Z.eqb_spec (c + 1) len) as [Heq|Hneq].
    + exists [], (OnFulfilledJob d VUndefined ::
                   wave1_out E0 outer len (S i) (S (S d)) (c + 1) items).
      simpl. repeat split; [constructor|lia].
    + assert (Hk' : (0 < futures items)%nat).
      { pose proof (succ_count_le items). lia. }
      destruct (IH (S i) (S (S d)) (c + 1) Hrest Hk') as (q1 & q2 & E & Ht & Hl); [lia|].
      exists (OnFulfilledJob d VUndefined :: q1), q2. simpl. rewrite E.
      repeat split; [|lia].
      constructor; [simpl; lia|].
      eapply Forall_impl; [exact Ht|]. simpl. intros. lia.
  - discriminate Hf.
Qed.

Lemma loop_resolves_plain E0 outer len items : forall c,
  Forall (fun j => plain (job_payload j)) (loop_resolves E0 outer len c items).
Proof.
  induction items as [|[v|v|r] items IH]; intros c; cbn [loop_resolves].
  - constructor.
  - apply Forall_app. split; [|apply IH].
    destruct (c =? len - 1); repeat constructor.
  - apply IH.
  - apply IH.
Qed.

Lemma wave1_out_plain E0 outer len items : forall i d c,
  Forall item_plain items ->
  Forall (fun j => plain (job_payload j)) (wave1_out E0 outer len i d c items).
Proof.
  induction items as [|[v|v|r] items IH]; intros i d c Hpl; cbn [wave1_out].
  - constructor.
  - apply Forall_cons in Hpl as [_ Hpl]. by apply IH.
  - apply Forall_cons in Hpl as [_ Hpl]. apply Forall_app. split.
    + destruct (c + 1 =? len); repeat constructor.
    + constructor; [done|]. by apply IH.
  - apply Forall_cons in Hpl as [Hr Hpl]. constructor; [done|]. by apply IH.
Qed.

Lemma all_settled_simple E0 outer len items : forall i d,
  Forall (fun it => is_failed it = false) items ->
  Forall simple_promize (all_settled E0 outer len i d items).
Proof.
  induction items as [|[v|v|r] items IH]; intros i d Hnf; cbn [all_settled].
  - constructor.
  - apply Forall_cons in Hnf as [_ Hnf]. by apply IH.
  - apply Forall_cons in Hnf as [_ Hnf].
    constructor; [|by apply IH]. split; repeat constructor.
  - apply Forall_cons in Hnf as [Hf _]. discriminate Hf.
Qed.

Lemma all_settled_fulfilled E0 outer len items : forall i d,
  Forall (fun it => is_failed it = false) items ->
  Forall (fun pr => p_state pr = FULFILLED) (all_settled E0 outer len i d items).
Proof.
  induction items as [|[v|v|r] items IH]; intros i d Hnf; cbn [all_settled].
  - constructor.
  - apply Forall_cons in Hnf as [_ Hnf]. by apply IH.
  - apply Forall_cons in Hnf as [_ Hnf]. constructor; [done|]. by apply IH.
  - apply Forall_cons in Hnf as [Hf _]. discriminate Hf.
Qed.

Lemma all_chain_simple outer items : forall d,
  Forall simple_promize (all_chain outer d items).
Proof.
  induction items as [|[v|v|r] items IH]; intros d; cbn [all_chain].
  - constructor.
  - apply IH.
  - constructor; [split; repeat constructor|].
    constructor; [split; constructor|apply IH].
  - constructor; [split; repeat constructor|].
    constructor; [split; constructor|apply IH].
Qed.

(** The world [Promize.all([...])] leaves behind, as the first thing a
    program does. *)
Definition all_world (items : list item) : world :=
  let k := futures items in
  let len := Z.of_nat (length items) in
  mkWorld
    (all_subscribed [] k len 0 (S k) items ++ new_promize :: all_chain k (S k) items)
    [mkLocals (plain_count items) (plain_results 0 items [])]
    (jobs_of 0 items ++ loop_resolves [] k len 0 items) [].

Lemma all_of_exact items :
  Forall item_plain items ->
  all_of items empty_world = (Normal (futures items), all_world items).
Proof.
  intros Hpl. unfold all_of. unfold bind at 1. rewrite make_inputs_spec.
  cbn [empty_world heap envs microtasks console length app].
  unfold all. unfold bind at 1. unfold alloc_locals at 1.
  cbn [heap envs microtasks console length app set_envs].
  unfold constructor. unfold bind at 1. unfold alloc_promize at 1.
  unfold set_envs, set_heap. cbn [heap envs microtasks console].
  rewrite length_replicate, length_inputs_of.
  unfold bind at 1. unfold try_catch.
  pose proof (all_loop_exact [] (futures items) (Z.of_nat (length items)) items
    0 0 [] [] [new_promize] (jobs_of 0 items) [] Hpl) as Hloop.
  cbn [length app] in Hloop.
  rewrite Hloop. unfold ret, all_world.
  cbn [length app]. rewrite Nat.add_1_r, Z.add_0_l. reflexivity.
Qed.

(** The same world once the jobs of the input instances have run. *)
Definition all_world1 (items : list item) : world :=
  let k := futures items in
  let len := Z.of_nat (length items) in
  mkWorld
    (all_settled [] k len 0 (S k) items ++ new_promize :: all_chain k (S k) items)
    [mkLocals (plain_count items + succ_count items)
       (succ_results 0 items (plain_results 0 items []))]
    (loop_resolves [] k len 0 items ++ wave1_out [] k len 0 (S k) (plain_count items) items)
    [].

Lemma all_wave1 items :
  Forall item_plain items ->
  run (futures items) (all_world items) = all_world1 items.
Proof.
  intros Hpl. unfold all_world, all_world1.
  exact (wave1_exact [] (futures items) (Z.of_nat (length items)) items
           0 (S (futures items)) (plain_count items) (plain_results 0 items [])
           [] (new_promize :: all_chain (futures items) (S (futures items)) items)
           (loop_resolves [] (futures items) (Z.of_nat (length items)) 0 items) [] Hpl).
Qed.

Lemma wave1_out_no_futures E0 outer len items : forall i d c,
  futures items = 0%nat -> wave1_out E0 outer len i d c items = [].
Proof.
  induction items as [|[v|v|r] items IH]; intros i d c Hk; simpl in *;
    try done. by apply IH.
Qed.

Lemma all_world1_outer items :
  state_of (all_world1 items) (futures items) = PENDING /\
  (futures items < length (heap (all_world1 items)))%nat.
Proof.
  unfold all_world1, state_of, get_promize. cbn [heap]. split.
  - rewrite lookup_total_middle; [done|]. by rewrite length_all_settled.
  - rewrite length_app, length_all_settled. simpl. lia.
Qed.

Lemma all_world1_quiet items :
  Forall item_plain items ->
  Forall (fun it => is_failed it = false) items ->
  quiet (all_world1 items).
Proof.
  intros Hpl Hnf. split; unfold all_world1; cbn [heap microtasks].
  - apply Forall_app. split.
    + eapply Forall_impl; [by apply all_settled_simple|]. auto.
    + constructor; [split; constructor|].
      eapply Forall_impl; [apply all_chain_simple|]. auto.
  - apply Forall_app. split; [apply loop_resolves_plain|by apply wave1_out_plain].
Qed.

(** The queue after the jobs of the inputs: the fulfilment of the outer
    instance is in it, behind jobs for other instances only. *)
Lemma all_world1_queue items :
  Forall (fun it => is_failed it = false) items ->
  items <> [] ->
  exists q1 q2,
    microtasks (all_world1 items) =
      q1 ++ OnFulfilledJob (futures items) (VArray 0%nat) :: q2 /\
    Forall (fun j => job_target j <> futures items) q1 /\
    (length q1 <= futures items)%nat.
Proof.
  intros Hnf Hne. unfold all_world1. cbn [microtasks].
  pose proof (count_items items) as Hcount.
  destruct (futures items) as [|k] eqn:Hk.
  - rewrite (loop_resolves_all_plain [] 0%nat _ items 0) by (done || lia).
    rewrite wave1_out_no_futures by done.
    exists [], []. simpl. repeat split; [constructor|lia].
  - rewrite loop_resolves_none by lia.
    destruct (wave1_out_resolves [] (S k) (Z.of_nat (length items)) items
                0 (S (S k)) (plain_count items) Hnf) as (q1 & q2 & E & Ht & Hl).
    { lia. }
    { rewrite succ_count_futures by done. lia. }
    exists q1, q2. simpl. rewrite E. simpl. repeat split; [|lia].
    eapply Forall_impl; [exact Ht|]. simpl. intros. lia.
Qed.

Lemma all_world_prefix items t' :
  (t' < futures items)%nat ->
  state_of (run t' (all_world items)) (futures items) = PENDING.
Proof.
  intros Ht.
  pose proof (jobs_of_targets items 0) as Htg.
  assert (Hq : microtasks (all_world items) =
            take t' (jobs_of 0 items) ++ (drop t' (jobs_of 0 items) ++
              loop_resolves [] (futures items) (Z.of_nat (length items)) 0 items)).
  { unfold all_world. cbn [microtasks]. by rewrite app_assoc, take_drop. }
  destruct (run_prefix _ _ _ Hq) as [_ Hst].
  rewrite length_take, (length_jobs_of items 0) in Hst.
  replace (t' `min` futures items)%nat with t' in Hst by lia.
  destruct (Hst (futures items)) as [Hs _].
  { apply Forall_take. eapply Forall_impl; [exact Htg|]. simpl. intros. lia. }
  rewrite Hs. unfold all_world, state_of, get_promize. cbn [heap].
  rewrite lookup_total_middle; [done|]. by rewrite length_all_subscribed.
Qed.

(** [Promize.all] on a script without a rejected input. *)
Lemma all_success_run (items : list item) :
  Forall item_plain items ->
  Forall (fun it => is_failed it = false) items ->
  (items <> [] ->
   forall t, (2 * futures items < t)%nat ->
     state_of (run t (all_world items)) (futures items) = FULFILLED /\
     value_of (run t (all_world items)) (futures items) = VArray 0%nat) /\
  (forall t', (futures items <= t')%nat ->
     array_of (run t' (all_world items)) 0%nat = map Some (map item_payload items) /\
     forall p, (p < futures items)%nat ->
       state_of (run t' (all_world items)) p = FULFILLED).
Proof.
  intros Hpl Hnf.
  assert (Hsplit : forall n, (futures items <= n)%nat ->
            run n (all_world items) = run (n - futures items) (all_world1 items)).
  { intros n Hn. replace n with (futures items + (n - futures items))%nat at 1 by lia.
    rewrite run_add. by rewrite all_wave1. }
  split.
  - intros Hne t Ht.
    destruct (all_world1_queue items Hnf Hne) as (q1 & q2 & Hq & Hq1 & Hlen).
    destruct (all_world1_outer items) as [Hpend Hvalid].
    rewrite Hsplit by lia.
    apply (first_job_wins _ q1 (OnFulfilledJob (futures items) (VArray 0%nat)) q2);
      [exact Hq|exact Hq1|exact Hpend|exact Hvalid|reflexivity|lia].
  - intros t' Ht'. rewrite Hsplit by lia. split.
    + unfold array_of, get_locals.
      rewrite run_quiet by (by apply all_world1_quiet).
      unfold all_world1. cbn [envs]. simpl lookup_total. cbn [result].
      by apply all_results_full.
    + intros p Hp.
      assert (Hp1 : state_of (all_world1 items) p = FULFILLED).
      { unfold all_world1, state_of, get_promize. cbn [heap].
        rewrite lookup_total_app_l by (by rewrite length_all_settled).
        apply (Forall_lookup_total_1 (fun pr => p_state pr = FULFILLED));
          [by apply all_settled_fulfilled|by rewrite length_all_settled]. }
      destruct (run_stable (t' - futures items) (all_world1 items) p) as [Hs _];
        [by rewrite Hp1|].
      by rewrite Hs.
Qed.

(** ** [Promize.all] with a rejected input *)

Section AllRejection.

Variable outer : pid.

(** Jobs for the instances returned by [then], in input order. *)
Fixpoint d_jobs (d : pid) (items : list item) : list job :=
  match items with
  | [] => []
  | Plain _ :: rest => d_jobs d rest
  | Succeeded _ :: rest => OnFulfilledJob d VUndefined :: d_jobs (S (S d)) rest
  | Failed r :: rest => OnRejectedJob d r :: d_jobs (S (S d)) rest
  end.

(** Their records once those jobs have run. *)
Fixpoint all_chain_done (d : pid) (items : list item) : list promize :=
  match items with
  | [] => []
  | Plain _ :: rest => all_chain_done d rest
  | Succeeded _ :: rest =>
      mkPromize FULFILLED VUndefined []
        [CatchCallback (VFun (OnRejectedBind outer)) (S d)] ::
      new_promize :: all_chain_done (S (S d)) rest
  | Failed r :: rest =>
      mkPromize REJECTED r [ThenCallback VUndefined (S d)] [] ::
      new_promize :: all_chain_done (S (S d)) rest
  end.

(** What they schedule: a rejected one calls the [reject] of the outer
    instance (line 178). *)
Fixpoint wave2_out (d : pid) (items : list item) : list job :=
  match items with
  | [] => []
  | Plain _ :: rest => wave2_out d rest
  | Succeeded _ :: rest => OnFulfilledJob (S d) VUndefined :: wave2_out (S (S d)) rest
  | Failed r :: rest =>
      OnRejectedJob outer r :: OnFulfilledJob (S d) VUndefined ::
      wave2_out (S (S d)) rest
  end.

Lemma wave2_exact items : forall d L T Q envs0 con,
  Forall item_plain items ->
  d = length L ->
  run (futures items)
    (mkWorld (L ++ all_chain outer d items ++ T) envs0 (d_jobs d items ++ Q) con) =
  mkWorld (L ++ all_chain_done d items ++ T) envs0 (Q ++ wave2_out d items) con.
Proof.
  induction items as [|[v|v|r] items IH]; intros d L T Q envs0 con Hpl Hd.
  - simpl. by rewrite app_nil_r.
  - apply Forall_cons in Hpl as [_ Hpl]. simpl. by apply IH.
  - apply Forall_cons in Hpl as [_ Hpl].
    cbn [futures all_chain d_jobs run]. rewrite <- !app_comm_cons.
    erewrite tick_exact; [|reflexivity| | | |calm_tac].
    2:{ unfold state_of, get_promize; simpl. by rewrite lookup_total_middle. }
    2:{ reflexivity. }
    2:{ simpl. rewrite length_app. simpl. lia. }
    cbn [job_target job_payload job_callbacks].
    unfold get_promize. cbn [heap]. rewrite lookup_total_middle by done.
    cbn [thenCallbacks link_cell].
    rewrite fire_simple by (repeat constructor).
    unfold set_heap, set_microtasks. cbn [heap envs microtasks console].
    rewrite (alter_middle' _ _ _ _ d Hd). cbn [settled_by catchCallbacks link_cell].
    cbn [callbacks_jobs callback_jobs app].
    replace (L ++ mkPromize FULFILLED VUndefined []
                    [CatchCallback (VFun (OnRejectedBind outer)) (S d)] ::
                  new_promize :: all_chain outer (S (S d)) items ++ T)
      with ((L ++ [mkPromize FULFILLED VUndefined []
                    [CatchCallback (VFun (OnRejectedBind outer)) (S d)];
                   new_promize]) ++ all_chain outer (S (S d)) items ++ T)
      by (by rewrite <- app_assoc).
    rewrite <- (app_assoc (d_jobs _ items)).
    rewrite IH; [|done|rewrite length_app; simpl; lia].
    cbn [all_chain_done wave2_out].
    rewrite <- !app_assoc. reflexivity.
  - apply Forall_cons in Hpl as [Hr Hpl]. simpl in Hr.
    cbn [futures all_chain d_jobs run]. rewrite <- !app_comm_cons.
    erewrite tick_exact; [|reflexivity| | | |calm_tac].
    2:{ unfold state_of, get_promize; simpl. by rewrite lookup_total_middle. }
    2:{ exact Hr. }
    2:{ simpl. rewrite length_app. simpl. lia. }
    cbn [job_target job_payload job_callbacks].
    unfold get_promize. cbn [heap]. rewrite lookup_total_middle by done.
    cbn [catchCallbacks link_cell].
    rewrite fire_simple by (repeat constructor).
    unfold set_heap, set_microtasks. cbn [heap envs microtasks console].
    rewrite (alter_middle' _ _ _ _ d Hd). cbn [settled_by thenCallbacks link_cell].
    cbn [callbacks_jobs callback_jobs app].
    replace (L ++ mkPromize REJECTED r [ThenCallback VUndefined (S d)] [] ::
                  new_promize :: all_chain outer (S (S d)) items ++ T)
      with ((L ++ [mkPromize REJECTED r [ThenCallback VUndefined (S d)] [];
                   new_promize]) ++ all_chain outer (S (S d)) items ++ T)
      by (by rewrite <- app_assoc).
    rewrite <- (app_assoc (d_jobs _ items)).
    rewrite IH; [|done|rewrite length_app; simpl; lia].
    cbn [all_chain_done wave2_out].
    rewrite <- !app_assoc. reflexivity.
Qed.

(** The first rejection scheduled for the outer instance carries the
    reason of the first rejected input. *)
Lemma wave2_out_first pre r post : forall d,
  Forall (fun it => is_failed it = false) pre ->
  exists q1 q2,
    wave2_out d (pre ++ Failed r :: post) = q1 ++ OnRejectedJob outer r :: q2 /\
    Forall (fun j => (d < job_target j)%nat) q1 /\
    (length q1 <= futures pre)%nat.
Proof.
  induction pre as [|[v|v|r0] pre IH]; intros d Hnf.
  - exists [], (OnFulfilledJob (S d) VUndefined :: wave2_out (S (S d)) post).
    simpl. repeat split; [constructor|lia].
  - apply Forall_cons in Hnf as [_ Hnf]. simpl. by apply IH.
  - apply Forall_cons in Hnf as [_ Hnf].
    destruct (IH (S (S d)) Hnf) as (q1 & q2 & E & Ht & Hl).
    exists (OnFulfilledJob (S d) VUndefined :: q1), q2. simpl. rewrite E.
    repeat split; [|lia].
    constructor; [simpl; lia|].
    eapply Forall_impl; [exact Ht|]. simpl. intros. lia.
  - apply Forall_cons in Hnf as [Hf _]. discriminate Hf.
Qed.

End AllRejection.

(** As long as an awaited value is missing, the handlers of lines 165-177
    schedule nothing for the outer instance. *)
Lemma wave1_out_d_jobs E0 outer len items : forall i d c,
  c + succ_count items < len ->
  wave1_out E0 outer len i d c items = d_jobs d items.
Proof.
  induction items as [|[v|v|r] items IH]; intros i d c Hc;
    cbn [wave1_out d_jobs succ_count] in *.
  - done.
  - by apply IH.
  - pose proof (succ_count_le items).
    destruct (Z.eqb_spec (c + 1) len); [lia|]. simpl. f_equal. apply IH. lia.
  - f_equal. by apply IH.
Qed.

Lemma futures_app l1 l2 : futures (l1 ++ l2) = (futures l1 + futures l2)%nat.
Proof.
  induction l1 as [|[v|v|r] l1 IH]; simpl; auto.
Qed.

Lemma succ_count_app l1 l2 : succ_count (l1 ++ l2) = succ_count l1 + succ_count l2.
Proof.
  induction l1 as [|[v|v|r] l1 IH]; cbn [app succ_count]; lia.
Qed.

(** The world of [all_world] once the jobs of the inputs and the jobs of
    the instances returned by [then] have run, when an input is rejected. *)
Definition all_world2 (items : list item) : world :=
  let k := futures items in
  let len := Z.of_nat (length items) in
  mkWorld
    ((all_settled [] k len 0 (S k) items ++ [new_promize]) ++
       all_chain_done k (S k) items ++ [])
    [mkLocals (plain_count items + succ_count items)
       (succ_results 0 items (plain_results 0 items []))]
    ([] ++ wave2_out k (S k) items) [].

Lemma all_wave2 pre r post :
  let items := pre ++ Failed r :: post in
  Forall item_plain items ->
  run (futures items) (all_world1 items) = all_world2 items.
Proof.
  intros items Hpl.
  assert (Hsucc : succ_count items < Z.of_nat (futures items)).
  { subst items. rewrite succ_count_app, futures_app. cbn [succ_count futures].
    pose proof (succ_count_le pre). pose proof (succ_count_le post). lia. }
  pose proof (count_items items) as Hcount.
  pose proof (succ_count_le items) as Hle.
  unfold all_world1, all_world2.
  rewrite loop_resolves_none by lia.
  rewrite wave1_out_d_jobs by lia.
  replace (all_settled [] (futures items) (Z.of_nat (length items)) 0 (S (futures items)) items ++
             new_promize :: all_chain (futures items) (S (futures items)) items)
    with ((all_settled [] (futures items) (Z.of_nat (length items)) 0 (S (futures items)) items ++
             [new_promize]) ++ all_chain (futures items) (S (futures items)) items ++ [])
    by (rewrite <- !app_assoc, app_nil_r; reflexivity).
  replace ([] ++ d_jobs (S (futures items)) items)
    with (d_jobs (S (futures items)) items ++ []) by (by rewrite app_nil_r).
  apply wave2_exact; [done|].
  rewrite length_app, length_all_settled. simpl. lia.
Qed.

(** [Promize.all] on a script with a rejected input. *)
Lemma all_rejection_run (pre post : list item) (r : value) :
  let items := pre ++ Failed r :: post in
  Forall item_plain items ->
  Forall (fun it => is_failed it = false) pre ->
  (forall t, (3 * futures items < t)%nat ->
     state_of (run t (all_world items)) (futures items) = REJECTED /\
     value_of (run t (all_world items)) (futures items) = r) /\
  (forall t', state_of (run t' (all_world items)) (futures items) <> FULFILLED).
Proof.
  intros items Hpl Hnf.
  assert (Hsplit : forall n, (2 * futures items <= n)%nat ->
            run n (all_world items) = run (n - 2 * futures items) (all_world2 items)).
  { intros n Hn.
    replace n with (futures items + (futures items + (n - 2 * futures items)))%nat
      at 1 by lia.
    rewrite !run_add. rewrite all_wave1 by done.
    subst items. by rewrite all_wave2. }
  destruct (wave2_out_first (futures items) pre r post (S (futures items)) Hnf)
    as (q1 & q2 & Hq & Hq1 & Hlen).
  assert (Hk : (futures pre < futures items)%nat).
  { subst items. rewrite futures_app. simpl. lia. }
  assert (Hplr : plain r).
  { subst items. apply Forall_app in Hpl as [_ Hpl].
    by apply Forall_cons in Hpl as [Hr _]. }
  assert (Hfinal : forall n, (3 * futures items < n)%nat ->
            state_of (run n (all_world items)) (futures items) = REJECTED /\
            value_of (run n (all_world items)) (futures items) = r).
  { intros n Hn. rewrite Hsplit by lia.
    apply (first_job_wins _ q1 (OnRejectedJob (futures items) r) q2).
    - unfold all_world2. cbn [microtasks app]. exact Hq.
    - eapply Forall_impl; [exact Hq1|]. simpl. intros. lia.
    - unfold all_world2, state_of, get_promize. cbn [heap job_target].
      rewrite lookup_total_app_l
        by (rewrite length_app, length_all_settled; simpl; lia).
      rewrite lookup_total_middle; [done|]. by rewrite length_all_settled.
    - unfold all_world2. cbn [heap job_target].
      rewrite !length_app, length_all_settled. simpl. lia.
    - exact Hplr.
    - lia. }
  split; [exact Hfinal|].
  intros t' Hful.
  destruct (run_stable (S (3 * futures items)) (run t' (all_world items)) (futures items))
    as [Hs _]; [by rewrite Hful|].
  rewrite <- run_add in Hs.
  destruct (Hfinal (t' + S (3 * futures items))%nat) as [Hrej _]; [lia|].
  congruence.
Qed.

(** Either no input is rejected, or there is a first rejected one. *)
Lemma first_failed items :
  Forall (fun it => is_failed it = false) items \/
  exists pre r post,
    items = pre ++ Failed r :: post /\
    Forall (fun it => is_failed it = false) pre.
Proof.
  induction items as [|it items IH]; [left; constructor|].
  destruct it as [v|v|r].
  - destruct IH as [IH|(pre & r & post & -> & Hpre)].
    + left. by constructor.
    + right. exists (Plain v :: pre), r, post. split; [done|]. by constructor.
  - destruct IH as [IH|(pre & r & post & -> & Hpre)].
    + left. by constructor.
    + right. exists (Succeeded v :: pre), r, post. split; [done|]. by constructor.
  - right. exists [], r, items. split; [done|constructor].
Qed.

(** ** [Promize.all] on a script: the first reason *)

(** X21.  Let the input be an array literal of non-Promize values and of
    calls of [Promize.resolve] and [Promize.reject] on non-Promize
    values, run as a program from the empty world, and let
    [Promize.reject(r)] be the first call of [Promize.reject] in it.
    Then [Promize.all] returns a new instance that ends REJECTED with
    [r], whatever the elements behind it are, and that is never
    FULFILLED. *)
Theorem all_rejects_with_first_reason (pre post : list item) (r : value) (t : nat) :
  let items := pre ++ Failed r :: post in
  Forall item_plain items ->
  Forall (fun it => is_failed it = false) pre ->
  (3 * futures items < t)%nat ->
  let w := exec (all_of items) empty_world in
  let outer := futures items in
  eval (all_of items) empty_world = Normal outer /\
  state_of (run t w) outer = REJECTED /\
  value_of (run t w) outer = r /\
  (forall t', state_of (run t' w) outer <> FULFILLED).
Proof.
  intros items Hpl Hnf Ht w outer. subst w outer.
  unfold exec, eval. rewrite all_of_exact by done. cbn [fst snd].
  destruct (all_rejection_run pre post r Hpl Hnf) as [Hfinal Hnever].
  split; [reflexivity|]. split; [apply (Hfinal t Ht)|].
  split; [apply (Hfinal t Ht)|exact Hnever].
Qed.

(** ** [Promize.all] on a script: the results in input order *)

(** X22.  Let the input be an array literal of non-Promize values and of
    calls of [Promize.resolve] and [Promize.reject] on non-Promize
    values, run as a program from the empty world.  Whenever the
    instance [Promize.all] returns is FULFILLED, no
    input is rejected, every input instance is FULFILLED, and its value
    is the [result] array, which holds the values of the inputs in input
    order (a non-Promize input stands for itself).  And it does become
    FULFILLED when the input is not empty and holds no rejected
    instance. *)
Theorem all_fulfills_in_order (items : list item) (t : nat) :
  Forall item_plain items ->
  let w := exec (all_of items) empty_world in
  let outer := futures items in
  eval (all_of items) empty_world = Normal outer /\
  (forall t',
     state_of (run t' w) outer = FULFILLED ->
     Forall (fun it => is_failed it = false) items /\
     (forall p, (p < futures items)%nat -> state_of (run t' w) p = FULFILLED) /\
     value_of (run t' w) outer = VArray 0%nat /\
     array_of (run t' w) 0%nat = map Some (map item_payload items)) /\
  (items <> [] ->
   Forall (fun it => is_failed it = false) items ->
   (2 * futures items < t)%nat ->
   state_of (run t w) outer = FULFILLED).
Proof.
  intros Hpl w outer. subst w outer.
  unfold exec, eval. rewrite all_of_exact by done. cbn [fst snd].
  split; [reflexivity|]. split.
  - intros t' Hful.
    destruct (first_failed items) as [Hnf|(pre & r & post & -> & Hpre)].
    + destruct (all_success_run items Hpl Hnf) as [Hpos Hlate].
      assert (Hge : (futures items <= t')%nat).
      { destruct (decide (t' < futures items)%nat) as [Hlt|]; [|lia].
        rewrite all_world_prefix in Hful by done. discriminate Hful. }
      destruct (Hlate t' Hge) as [Harr Hin].
      split; [exact Hnf|]. split; [exact Hin|]. split; [|exact Harr].
      destruct (decide (items = [])) as [->|Hne].
      { rewrite run_quiescent in Hful by reflexivity. discriminate Hful. }
      destruct (run_stable (S (2 * futures items)) (run t' (all_world items))
                  (futures items)) as [_ Hv]; [by rewrite Hful|].
      rewrite <- run_add in Hv.
      destruct (Hpos Hne (t' + S (2 * futures items))%nat) as [_ Hval]; [lia|].
      congruence.
    + exfalso.
      destruct (all_rejection_run pre post r Hpl Hpre) as [_ Hnever].
      exact (Hnever t' Hful).
  - intros Hne Hnf Ht.
    destruct (all_success_run items Hpl Hnf) as [Hpos _].
    apply (Hpos Hne t Ht).
Qed.

(** ** C8: [Promize.allSettled] *)

(** C8 (violated by the code on the empty array).  [Promize.allSettled([])]
    schedules nothing: the queue is as it was and the new instance is
    PENDING; started from the empty world it is PENDING after any number
    of queue turns, although every one of its (zero) elements has
    settled. *)
Theorem allSettled_empty_never_settles (w : world) (n : nat) :
  eval (allSettled []) w = Normal (length (heap w)) /\
  microtasks (exec (allSettled []) w) = microtasks w /\
  state_of (exec (allSettled []) w) (length (heap w)) = PENDING /\
  state_of (run n (exec (allSettled []) empty_world)) 0%nat = PENDING.
Proof.
  repeat split.
  - apply state_of_allocated.
  - by rewrite run_quiescent.
Qed.

(** ** [Promize.allSettled] on a script *)

(** [then] on a fresh instance, anywhere in the heap. *)
Lemma then_middle L M envs0 q con f r :
  then_ (length L) f r (mkWorld (L ++ new_promize :: M) envs0 q con) =
  (Normal (length (L ++ new_promize :: M)),
   mkWorld (L ++ mkPromize PENDING VUndefined
                   [ThenCallback f (length (L ++ new_promize :: M))]
                   [CatchCallback r (length (L ++ new_promize :: M))] ::
              M ++ [new_promize]) envs0 q con).
Proof.
  rewrite then_pending by
    (unfold state_of, get_promize; simpl; by rewrite lookup_total_middle).
  unfold set_heap. cbn [heap envs microtasks console].
  rewrite <- app_assoc. simpl. by rewrite alter_middle.
Qed.

(** The record of the instance returned by [catch] once [finally] has
    been called on it (lines 113-122). *)
Definition fin_cell (fin : func) (next : pid) : promize :=
  mkPromize PENDING VUndefined
    [ThenCallback (VFun (FinallyThen fin)) next]
    [CatchCallback (VFun (FinallyCatch fin)) next].

(** [p.then(f).catch(h).finally(fin)] on a fresh instance [p]. *)
Lemma then_catch_finally_fresh L M envs0 q con f h fin :
  (let! d := then_ (length L) (VFun f) VUndefined in
   let! c := catch d h in
   finally c fin ;;; ret tt)
    (mkWorld (L ++ new_promize :: M) envs0 q con) =
  (Normal tt,
   mkWorld (L ++ sub_cell f (length (L ++ new_promize :: M)) :: M ++
              [link_cell h (S (length (L ++ new_promize :: M)));
               fin_cell fin (S (S (length (L ++ new_promize :: M))));
               new_promize])
     envs0 q con).
Proof.
  remember (length (L ++ new_promize :: M)) as d eqn:Hd0.
  unfold bind at 1. rewrite then_middle. rewrite <- Hd0.
  fold (sub_cell f d).
  assert (Hd : d = length (L ++ sub_cell f d :: M)).
  { rewrite Hd0, !length_app. reflexivity. }
  unfold bind at 1. unfold catch.
  replace (L ++ sub_cell f d :: M ++ [new_promize])
    with ((L ++ sub_cell f d :: M) ++ new_promize :: [])
    by (by rewrite <- app_assoc).
  rewrite Hd at 1. rewrite then_middle.
  rewrite (length_app _ [new_promize]). simpl length.
  rewrite <- Hd, Nat.add_1_r. fold (link_cell h (S d)).
  unfold bind at 1. unfold finally.
  assert (Hd1 : S d = length ((L ++ sub_cell f d :: M) ++ [link_cell h (S d)])).
  { rewrite length_app. simpl. lia. }
  replace ((L ++ sub_cell f d :: M) ++ link_cell h (S d) :: [] ++ [new_promize])
    with (((L ++ sub_cell f d :: M) ++ [link_cell h (S d)]) ++ new_promize :: [])
    by (by rewrite <- !app_assoc).
  rewrite Hd1 at 1. rewrite then_middle.
  rewrite (length_app _ [new_promize]). simpl length.
  rewrite <- Hd1, Nat.add_1_r. fold (fin_cell fin (S (S d))).
  unfold ret. f_equal. f_equal.
  rewrite <- !app_assoc. simpl. reflexivity.
Qed.

Definition outcome_record (it : item) : value :=
  match it with
  | Plain v | Succeeded v => fulfilled_record v
  | Failed r => rejected_record r
  end.

(** Which items store their record at which stage. *)
Definition sel_plain_record (it : item) : option value :=
  match it with Plain v => Some (fulfilled_record v) | _ => None end.
Definition sel_succeeded_record (it : item) : option value :=
  match it with Succeeded v => Some (fulfilled_record v) | _ => None end.
Definition sel_failed_record (it : item) : option value :=
  match it with Failed r => Some (rejected_record r) | _ => None end.

Section AllSettledScript.

Variable E0 : list locals.
Variable outer : pid.
Variable len : Z.

Let e : eid := length E0.
Let fin : func := AllSettledFinally e len outer.

(** Records of the input instances once the loop has subscribed them. *)
Fixpoint as_subscribed (i : nat) (d : pid) (items : list item) : list promize :=
  match items with
  | [] => []
  | Plain _ :: rest => as_subscribed (S i) d rest
  | _ :: rest =>
      sub_cell (AllSettledThen e i len outer) d ::
      as_subscribed (S i) (S (S (S d))) rest
  end.

(** For every input instance, the records of the instances returned by
    [then], [catch] and [finally].  [stage] counts the rounds of jobs that
    have run: 0 after the loop, 1 once the instances returned by [then]
    are settled, 2 once those returned by [catch] are. *)
Definition as_then_cell (stage i : nat) (d : pid) (it : item) : promize :=
  match stage with
  | O => link_cell (VFun (AllSettledCatch e i)) (S d)
  | _ =>
      match it with
      | Failed r => mkPromize REJECTED r [ThenCallback VUndefined (S d)] []
      | _ => mkPromize FULFILLED VUndefined []
               [CatchCallback (VFun (AllSettledCatch e i)) (S d)]
      end
  end.

Definition as_catch_cell (stage : nat) (d : pid) : promize :=
  match stage with
  | O | 1%nat => fin_cell fin (S (S d))
  | _ => mkPromize FULFILLED VUndefined []
           [CatchCallback (VFun (FinallyCatch fin)) (S (S d))]
  end.

Fixpoint as_chain (stage i : nat) (d : pid) (items : list item) : list promize :=
  match items with
  | [] => []
  | Plain _ :: rest => as_chain stage (S i) d rest
  | it :: rest =>
      as_then_cell stage i d it :: as_catch_cell stage d :: new_promize ::
      as_chain stage (S i) (S (S (S d))) rest
  end.

Lemma allSettled_loop_exact items : forall i c R L T q con,
  Forall item_plain items ->
  allSettled_loop e outer len i (inputs_of (length L) items)
    (mkWorld (L ++ replicate (futures items) new_promize ++ T)
       (E0 ++ [mkLocals c R]) q con) =
  (Normal tt,
   mkWorld
     (L ++ as_subscribed i (length L + futures items + length T) items ++ T ++
        as_chain 0 i (length L + futures items + length T) items)
     (E0 ++ [mkLocals (c + plain_count items)
               (store_results sel_plain_record i items R)])
     (q ++ loop_resolves E0 outer len c items) con).
Proof.
  induction items as [|[v|v|r] items IH]; intros i c R L T q con Hpl.
  - simpl. rewrite !app_nil_r, Z.add_0_r. reflexivity.
  - apply Forall_cons in Hpl as [Hv Hrest]. simpl in Hv.
    simpl inputs_of. simpl allSettled_loop. unfold plain in Hv. rewrite Hv. simpl negb.
    cbv iota. unfold bind at 1. fold e. rewrite (all_plain_step E0 outer len).
    rewrite IH by done. simpl.
    rewrite <- app_assoc, Z.add_assoc. reflexivity.
  - apply Forall_cons in Hpl as [Hv Hrest].
    simpl inputs_of. simpl allSettled_loop. unfold bind at 1.
    fold e. fold fin.
    rewrite (then_catch_finally_fresh L (replicate (futures items) new_promize ++ T)).
    remember (length (L ++ new_promize :: replicate (futures items) new_promize ++ T))
      as d eqn:Hd0.
    assert (Hd : d = (length L + S (futures items) + length T)%nat).
    { rewrite Hd0, !length_app. simpl. rewrite length_app, length_replicate. lia. }
    replace (L ++ sub_cell (AllSettledThen e i len outer) d ::
               (replicate (futures items) new_promize ++ T) ++
               [link_cell (VFun (AllSettledCatch e i)) (S d);
                fin_cell fin (S (S d)); new_promize])
      with ((L ++ [sub_cell (AllSettledThen e i len outer) d]) ++
               replicate (futures items) new_promize ++
               (T ++ [link_cell (VFun (AllSettledCatch e i)) (S d);
                      fin_cell fin (S (S d)); new_promize]))
      by (rewrite <- !app_assoc; reflexivity).
    replace (S (length L))
      with (length (L ++ [sub_cell (AllSettledThen e i len outer) d]))
      by (rewrite length_app; simpl; lia).
    rewrite IH by done.
    rewrite !length_app. simpl length.
    replace (length L + 1 + futures items + (length T + 3))%nat with (S (S (S d))) by lia.
    simpl. rewrite <- Hd. rewrite <- !app_assoc. simpl. reflexivity.
  - apply Forall_cons in Hpl as [Hv Hrest].
    simpl inputs_of. simpl allSettled_loop. unfold bind at 1.
    fold e. fold fin.
    rewrite (then_catch_finally_fresh L (replicate (futures items) new_promize ++ T)).
    remember (length (L ++ new_promize :: replicate (futures items) new_promize ++ T))
      as d eqn:Hd0.
    assert (Hd : d = (length L + S (futures items) + length T)%nat).
    { rewrite Hd0, !length_app. simpl. rewrite length_app, length_replicate. lia. }
    replace (L ++ sub_cell (AllSettledThen e i len outer) d ::
               (replicate (futures items) new_promize ++ T) ++
               [link_cell (VFun (AllSettledCatch e i)) (S d);
                fin_cell fin (S (S d)); new_promize])
      with ((L ++ [sub_cell (AllSettledThen e i len outer) d]) ++
               replicate (futures items) new_promize ++
               (T ++ [link_cell (VFun (AllSettledCatch e i)) (S d);
                      fin_cell fin (S (S d)); new_promize]))
      by (rewrite <- !app_assoc; reflexivity).
    replace (S (length L))
      with (length (L ++ [sub_cell (AllSettledThen e i len outer) d]))
      by (rewrite length_app; simpl; lia).
    rewrite IH by done.
    rewrite !length_app. simpl length.
    replace (length L + 1 + futures items + (length T + 3))%nat with (S (S (S d))) by lia.
    simpl. rewrite <- Hd. rewrite <- !app_assoc. simpl. reflexivity.
Qed.

End AllSettledScript.

Section AllSettledWaves.

Variable E0 : list locals.
Variable outer : pid.
Variable len : Z.

Let e : eid := length E0.
Let fin : func := AllSettledFinally e len outer.

(** Records of the input instances once their own jobs have run. *)
Fixpoint as_settled (i : nat) (d : pid) (items : list item) : list promize :=
  match items with
  | [] => []
  | Plain _ :: rest => as_settled (S i) d rest
  | Succeeded v :: rest =>
      mkPromize FULFILLED v [] [CatchCallback VUndefined d] ::
      as_settled (S i) (S (S (S d))) rest
  | Failed r :: rest =>
      mkPromize REJECTED r [ThenCallback (VFun (AllSettledThen e i len outer)) d] [] ::
      as_settled (S i) (S (S (S d))) rest
  end.

(** Jobs for the instances returned by [then], by [catch] and by
    [finally], in input order. *)
Fixpoint as_then_jobs (d : pid) (items : list item) : list job :=
  match items with
  | [] => []
  | Plain _ :: rest => as_then_jobs d rest
  | Succeeded _ :: rest => OnFulfilledJob d VUndefined :: as_then_jobs (S (S (S d))) rest
  | Failed r :: rest => OnRejectedJob d r :: as_then_jobs (S (S (S d))) rest
  end.

Fixpoint as_catch_jobs (d : pid) (items : list item) : list job :=
  match items with
  | [] => []
  | Plain _ :: rest => as_catch_jobs d rest
  | _ :: rest => OnFulfilledJob (S d) VUndefined :: as_catch_jobs (S (S (S d))) rest
  end.

(** Jobs scheduled by the first round: the test of line 219 included. *)
Fixpoint as_wave1_out (d : pid) (c : Z) (items : list item) : list job :=
  match items with
  | [] => []
  | Plain _ :: rest => as_wave1_out d c rest
  | Succeeded _ :: rest =>
      (if c =? len then [OnFulfilledJob outer (VArray e)] else []) ++
      OnFulfilledJob d VUndefined :: as_wave1_out (S (S (S d))) c rest
  | Failed r :: rest => OnRejectedJob d r :: as_wave1_out (S (S (S d))) c rest
  end.

(** Jobs scheduled by the third round: the test of line 233 included. *)
Fixpoint as_wave3_out (d : pid) (c : Z) (items : list item) : list job :=
  match items with
  | [] => []
  | Plain _ :: rest => as_wave3_out d c rest
  | _ :: rest =>
      (if c + 1 =? len then [OnFulfilledJob outer (VArray e)] else []) ++
      OnFulfilledJob (S (S d)) VUndefined :: as_wave3_out (S (S (S d))) (c + 1) rest
  end.

Lemma fire_AllSettledThen h c R q con i d v :
  fire [ThenCallback (VFun (AllSettledThen e i len outer)) d] v
    (mkWorld h (E0 ++ [mkLocals c R]) q con) =
  mkWorld h (E0 ++ [mkLocals c (array_set i (fulfilled_record v) R)])
    (q ++ (if c =? len then [OnFulfilledJob outer (VArray e)] else []) ++
       [OnFulfilledJob d VUndefined]) con.
Proof.
  unfold fire, exec. simpl forEach. unfold bind at 1.
  unfold run_callback, try_catch. unfold bind at 1.
  simpl call_func.
  unfold bind at 1. fold e. rewrite (assign_exact E0).
  unfold bind at 1. rewrite (resolve_when_exact E0 outer).
  unfold ret, onFulfilled, queueMicrotask, modify, set_microtasks.
  cbn [fst snd heap envs microtasks console].
  by rewrite <- app_assoc.
Qed.

Lemma fire_AllSettledCatch h c R q con i d r :
  fire [CatchCallback (VFun (AllSettledCatch e i)) d] r
    (mkWorld h (E0 ++ [mkLocals c R]) q con) =
  mkWorld h (E0 ++ [mkLocals c (array_set i (rejected_record r) R)])
    (q ++ [OnFulfilledJob d VUndefined]) con.
Proof.
  unfold fire, exec. simpl forEach. unfold bind at 1.
  unfold run_callback, try_catch. unfold bind at 1.
  simpl call_func.
  unfold bind at 1. fold e. rewrite (assign_exact E0).
  unfold ret, onFulfilled, queueMicrotask, modify, set_microtasks.
  cbn [fst snd heap envs microtasks console]. reflexivity.
Qed.

Lemma fire_FinallyThen h c R q con d v :
  fire [ThenCallback (VFun (FinallyThen fin)) d] v
    (mkWorld h (E0 ++ [mkLocals c R]) q con) =
  mkWorld h (E0 ++ [mkLocals (c + 1) R])
    (q ++ (if c + 1 =? len then [OnFulfilledJob outer (VArray e)] else []) ++
       [OnFulfilledJob d v]) con.
Proof.
  unfold fire, exec. simpl forEach. unfold bind at 1.
  unfold run_callback, try_catch. unfold bind at 1.
  subst fin. simpl call_func.
  unfold bind at 1. unfold bind at 1. fold e. rewrite (increment_exact E0).
  unfold bind at 1. rewrite (resolve_when_exact E0 outer).
  unfold ret, onFulfilled, queueMicrotask, modify, set_microtasks.
  cbn [fst snd heap envs microtasks console].
  by rewrite <- app_assoc.
Qed.

Lemma as_wave1_exact items : forall i d c R L T Q con,
  Forall item_plain items ->
  run (futures items)
    (mkWorld (L ++ as_subscribed E0 outer len i d items ++ T)
       (E0 ++ [mkLocals c R]) (jobs_of (length L) items ++ Q) con) =
  mkWorld (L ++ as_settled i d items ++ T)
    (E0 ++ [mkLocals c (store_results sel_succeeded_record i items R)])
    (Q ++ as_wave1_out d c items) con.
Proof.
  induction items as [|[v|v|r] items IH]; intros i d c R L T Q con Hpl.
  - simpl. by rewrite app_nil_r.
  - apply Forall_cons in Hpl as [_ Hpl]. simpl. by apply IH.
  - apply Forall_cons in Hpl as [Hv Hpl]. simpl in Hv.
    cbn [futures as_subscribed jobs_of run].
    rewrite <- !app_comm_cons.
    erewrite tick_exact; [|reflexivity| | | |calm_tac].
    2:{ unfold state_of, get_promize; simpl. by rewrite lookup_total_middle. }
    2:{ exact Hv. }
    2:{ simpl. rewrite length_app. simpl. lia. }
    cbn [job_target job_payload job_callbacks].
    unfold get_promize. cbn [heap].
    rewrite lookup_total_middle by reflexivity.
    unfold set_microtasks. cbn [heap envs microtasks console thenCallbacks sub_cell].
    fold e. rewrite fire_AllSettledThen.
    unfold set_heap. cbn [heap envs microtasks console].
    rewrite alter_middle. cbn [settled_by catchCallbacks sub_cell].
    replace (L ++ mkPromize FULFILLED v [] [CatchCallback VUndefined d] ::
               as_subscribed E0 outer len (S i) (S (S (S d))) items ++ T)
      with ((L ++ [mkPromize FULFILLED v [] [CatchCallback VUndefined d]]) ++
               as_subscribed E0 outer len (S i) (S (S (S d))) items ++ T)
      by (by rewrite <- app_assoc).
    replace (S (length L))
      with (length (L ++ [mkPromize FULFILLED v [] [CatchCallback VUndefined d]]))
      by (rewrite length_app; simpl; lia).
    rewrite <- (app_assoc (jobs_of _ items)).
    rewrite IH by done.
    cbn [as_settled store_results sel_succeeded_record as_wave1_out].
    rewrite <- !app_assoc. simpl. reflexivity.
  - apply Forall_cons in Hpl as [Hv Hpl]. simpl in Hv.
    cbn [futures as_subscribed jobs_of run].
    rewrite <- !app_comm_cons.
    erewrite tick_exact; [|reflexivity| | | |calm_tac].
    2:{ unfold state_of, get_promize; simpl. by rewrite lookup_total_middle. }
    2:{ exact Hv. }
    2:{ simpl. rewrite length_app. simpl. lia. }
    cbn [job_target job_payload job_callbacks].
    unfold get_promize. cbn [heap].
    rewrite lookup_total_middle by reflexivity.
    cbn [catchCallbacks sub_cell].
    rewrite fire_simple by (repeat constructor).
    unfold set_heap, set_microtasks. cbn [heap envs microtasks console].
    rewrite alter_middle. cbn [settled_by thenCallbacks sub_cell].
    cbn [callbacks_jobs callback_jobs app]. fold e.
    replace (L ++ mkPromize REJECTED r
                    [ThenCallback (VFun (AllSettledThen e i len outer)) d] [] ::
               as_subscribed E0 outer len (S i) (S (S (S d))) items ++ T)
      with ((L ++ [mkPromize REJECTED r
                    [ThenCallback (VFun (AllSettledThen e i len outer)) d] []]) ++
               as_subscribed E0 outer len (S i) (S (S (S d))) items ++ T)
      by (by rewrite <- app_assoc).
    replace (S (length L))
      with (length (L ++ [mkPromize REJECTED r
                    [ThenCallback (VFun (AllSettledThen e i len outer)) d] []]))
      by (rewrite length_app; simpl; lia).
    rewrite <- (app_assoc (jobs_of _ items)).
    rewrite IH by done.
    cbn [as_settled store_results sel_succeeded_record as_wave1_out].
    rewrite <- !app_assoc. simpl. reflexivity.
Qed.

Lemma as_wave2_exact items : forall i d c R L T Q con,
  Forall item_plain items ->
  d = length L ->
  run (futures items)
    (mkWorld (L ++ as_chain E0 outer len 0 i d items ++ T)
       (E0 ++ [mkLocals c R]) (as_then_jobs d items ++ Q) con) =
  mkWorld (L ++ as_chain E0 outer len 1 i d items ++ T)
    (E0 ++ [mkLocals c (store_results sel_failed_record i items R)])
    (Q ++ as_catch_jobs d items) con.
Proof.
  induction items as [|[v|v|r] items IH]; intros i d c R L T Q con Hpl Hd.
  - simpl. by rewrite app_nil_r.
  - apply Forall_cons in Hpl as [_ Hpl]. simpl. by apply IH.
  - apply Forall_cons in Hpl as [_ Hpl].
    cbn [futures as_chain as_then_jobs run as_then_cell as_catch_cell].
    rewrite <- !app_comm_cons.
    erewrite tick_exact; [|reflexivity| | | |calm_tac].
    2:{ unfold state_of, get_promize; simpl. by rewrite lookup_total_middle. }
    2:{ reflexivity. }
    2:{ simpl. rewrite length_app. simpl. lia. }
    cbn [job_target job_payload job_callbacks].
    unfold get_promize. cbn [heap]. rewrite lookup_total_middle by done.
    cbn [thenCallbacks link_cell].
    rewrite fire_simple by (repeat constructor).
    unfold set_heap, set_microtasks. cbn [heap envs microtasks console].
    rewrite (alter_middle' _ _ _ _ d Hd). cbn [settled_by catchCallbacks link_cell].
    cbn [callbacks_jobs callback_jobs app].
    match goal with
    | |- run _ (mkWorld (L ++ ?a :: ?b :: ?c :: ?rest) _ _ _) = _ =>
        replace (L ++ a :: b :: c :: rest) with ((L ++ [a; b; c]) ++ rest)
          by (by rewrite <- app_assoc)
    end.
    rewrite <- (app_assoc (as_then_jobs _ items)).
    rewrite IH; [|done|rewrite length_app; simpl; lia].
    cbn [as_chain store_results sel_failed_record as_catch_jobs as_then_cell as_catch_cell].
    rewrite <- !app_assoc. reflexivity.
  - apply Forall_cons in Hpl as [Hr Hpl]. simpl in Hr.
    cbn [futures as_chain as_then_jobs run as_then_cell as_catch_cell].
    rewrite <- !app_comm_cons.
    erewrite tick_exact; [|reflexivity| | | |calm_tac].
    2:{ unfold state_of, get_promize; simpl. by rewrite lookup_total_middle. }
    2:{ exact Hr. }
    2:{ simpl. rewrite length_app. simpl. lia. }
    cbn [job_target job_payload job_callbacks].
    unfold get_promize. cbn [heap]. rewrite lookup_total_middle by done.
    unfold set_microtasks. cbn [heap envs microtasks console catchCallbacks link_cell].
    fold e. rewrite fire_AllSettledCatch.
    unfold set_heap. cbn [heap envs microtasks console].
    rewrite (alter_middle' _ _ _ _ d Hd). cbn [settled_by thenCallbacks link_cell].
    match goal with
    | |- run _ (mkWorld (L ++ ?a :: ?b :: ?c :: ?rest) _ _ _) = _ =>
        replace (L ++ a :: b :: c :: rest) with ((L ++ [a; b; c]) ++ rest)
          by (by rewrite <- app_assoc)
    end.
    rewrite <- (app_assoc (as_then_jobs _ items)).
    rewrite IH; [|done|rewrite length_app; simpl; lia].
    cbn [as_chain store_results sel_failed_record as_catch_jobs as_then_cell as_catch_cell].
    rewrite <- !app_assoc. reflexivity.
Qed.

Lemma as_wave3_step i d c R L T Q con it rest :
  is_future it = true ->
  d = length L ->
  tick (mkWorld (L ++ as_then_cell E0 1 i d it :: as_catch_cell E0 outer len 1 d ::
                   new_promize :: rest ++ T)
          (E0 ++ [mkLocals c R]) (OnFulfilledJob (S d) VUndefined :: Q) con) =
  mkWorld ((L ++ [as_then_cell E0 2 i d it; as_catch_cell E0 outer len 2 d;
                  new_promize]) ++ rest ++ T)
    (E0 ++ [mkLocals (c + 1) R])
    (Q ++ (if c + 1 =? len then [OnFulfilledJob outer (VArray e)] else []) ++
       [OnFulfilledJob (S (S d)) VUndefined]) con.
Proof.
  intros Hfut Hd.
  assert (Hd1 : S d = length (L ++ [as_then_cell E0 1 i d it])).
  { rewrite length_app. simpl. lia. }
  replace (L ++ as_then_cell E0 1 i d it :: as_catch_cell E0 outer len 1 d ::
             new_promize :: rest ++ T)
    with ((L ++ [as_then_cell E0 1 i d it]) ++ as_catch_cell E0 outer len 1 d ::
             new_promize :: rest ++ T)
    by (by rewrite <- app_assoc).
  erewrite tick_exact; [|reflexivity| | | |calm_tac].
  2:{ unfold state_of, get_promize; simpl. by rewrite lookup_total_middle. }
  2:{ reflexivity. }
  2:{ simpl. rewrite !length_app. simpl. lia. }
  cbn [job_target job_payload job_callbacks].
  unfold get_promize. cbn [heap]. rewrite lookup_total_middle by done.
  unfold set_microtasks.
  cbn [heap envs microtasks console thenCallbacks as_catch_cell fin_cell].
  fold e. fold fin. rewrite fire_FinallyThen.
  unfold set_heap. cbn [heap envs microtasks console].
  rewrite (alter_middle' _ _ _ _ (S d) Hd1).
  cbn [settled_by catchCallbacks fin_cell].
  rewrite <- !app_assoc. simpl. reflexivity.
Qed.

Lemma as_wave3_exact items : forall i d c R L T Q con,
  d = length L ->
  run (futures items)
    (mkWorld (L ++ as_chain E0 outer len 1 i d items ++ T)
       (E0 ++ [mkLocals c R]) (as_catch_jobs d items ++ Q) con) =
  mkWorld (L ++ as_chain E0 outer len 2 i d items ++ T)
    (E0 ++ [mkLocals (c + Z.of_nat (futures items)) R])
    (Q ++ as_wave3_out d c items) con.
Proof.
  induction items as [|it items IH]; intros i d c R L T Q con Hd.
  - simpl. by rewrite app_nil_r, Z.add_0_r.
  - destruct (is_future it) eqn:Hfut.
    + assert (Hstep :
        run (futures (it :: items))
          (mkWorld (L ++ as_chain E0 outer len 1 i d (it :: items) ++ T)
             (E0 ++ [mkLocals c R]) (as_catch_jobs d (it :: items) ++ Q) con) =
        run (futures items)
          (mkWorld ((L ++ [as_then_cell E0 2 i d it; as_catch_cell E0 outer len 2 d;
                           new_promize]) ++
                      as_chain E0 outer len 1 (S i) (S (S (S d))) items ++ T)
             (E0 ++ [mkLocals (c + 1) R])
             (as_catch_jobs (S (S (S d))) items ++
                (Q ++ (if c + 1 =? len then [OnFulfilledJob outer (VArray e)] else []) ++
                   [OnFulfilledJob (S (S d)) VUndefined])) con)).
      { destruct it as [v|v|r]; [discriminate Hfut| |];
          cbn [futures as_chain as_catch_jobs run];
          rewrite <- !app_comm_cons;
          rewrite (as_wave3_step i d c R L T _ con _ _ Hfut Hd);
          by rewrite <- (app_assoc (as_catch_jobs _ items)). }
      rewrite Hstep. rewrite IH by (rewrite length_app; simpl; lia).
      assert (Hout : as_wave3_out d c (it :: items) =
                (if c + 1 =? len then [OnFulfilledJob outer (VArray e)] else []) ++
                OnFulfilledJob (S (S d)) VUndefined ::
                as_wave3_out (S (S (S d))) (c + 1) items).
      { destruct it; [discriminate Hfut|reflexivity|reflexivity]. }
      assert (Hchain : as_chain E0 outer len 2 i d (it :: items) =
                as_then_cell E0 2 i d it :: as_catch_cell E0 outer len 2 d ::
                new_promize :: as_chain E0 outer len 2 (S i) (S (S (S d))) items).
      { destruct it; [discriminate Hfut|reflexivity|reflexivity]. }
      assert (Hfk : futures (it :: items) = S (futures items)).
      { destruct it; [discriminate Hfut|reflexivity|reflexivity]. }
      rewrite Hout, Hchain, Hfk.
      rewrite <- !app_assoc. simpl.
      replace (c + 1 + Z.of_nat (futures items)) with (c + Z.pos (Pos.of_succ_nat (futures items)))
        by lia.
      reflexivity.
    + destruct it as [v|v|r]; try discriminate Hfut. simpl. by apply IH.
Qed.

End AllSettledWaves.

Lemma length_as_subscribed E0 outer len items : forall i d,
  length (as_subscribed E0 outer len i d items) = futures items.
Proof. induction items as [|[v|v|r] items IH]; intros; simpl; auto. Qed.

Lemma length_as_settled E0 outer len items : forall i d,
  length (as_settled E0 outer len i d items) = futures items.
Proof. induction items as [|[v|v|r] items IH]; intros; simpl; auto. Qed.

Lemma as_wave1_out_jobs E0 outer len items : forall d c,
  c <> len \/ futures items = 0%nat ->
  as_wave1_out E0 outer len d c items = as_then_jobs d items.
Proof.
  induction items as [|[v|v|r] items IH]; intros d c Hc;
    cbn [as_wave1_out as_then_jobs futures] in *.
  - done.
  - by apply IH.
  - destruct Hc as [Hc|Hc]; [|done].
    destruct (Z.eqb_spec c len); [done|]. simpl. f_equal. apply IH. by left.
  - destruct Hc as [Hc|Hc]; [|done]. f_equal. apply IH. by left.
Qed.

Lemma as_then_jobs_no_futures items : forall d,
  futures items = 0%nat -> as_then_jobs d items = [].
Proof.
  induction items as [|[v|v|r] items IH]; intros d Hk; simpl in *; try done.
  by apply IH.
Qed.

Lemma as_catch_jobs_no_futures items : forall d,
  futures items = 0%nat -> as_catch_jobs d items = [].
Proof.
  induction items as [|[v|v|r] items IH]; intros d Hk; simpl in *; try done.
  by apply IH.
Qed.

Lemma as_wave3_out_no_futures E0 outer len items : forall d c,
  futures items = 0%nat -> as_wave3_out E0 outer len d c items = [].
Proof.
  induction items as [|[v|v|r] items IH]; intros d c Hk; simpl in *; try done.
  by apply IH.
Qed.

(** The handler of [finally] that counts the last input schedules the
    fulfilment of the outer instance. *)
Lemma as_wave3_out_resolves E0 outer len items : forall d c,
  (0 < futures items)%nat ->
  c + Z.of_nat (futures items) = len ->
  exists q1 q2,
    as_wave3_out E0 outer len d c items =
      q1 ++ OnFulfilledJob outer (VArray (length E0)) :: q2 /\
    Forall (fun j => (d <= job_target j)%nat) q1 /\
    (length q1 < futures items)%nat.
Proof.
  induction items as [|it items IH]; intros d c Hk Hc; [simpl in Hk; lia|].
  destruct it as [v|v|r].
  - cbn [as_wave3_out futures] in *. by apply IH.
  - cbn [as_wave3_out futures] in *.
    destruct (Z.eqb_spec (c + 1) len) as [Heq|Hneq].
    + exists [], (OnFulfilledJob (S (S d)) VUndefined ::
                   as_wave3_out E0 outer len (S (S (S d))) (c + 1) items).
      simpl. repeat split; [constructor|lia].
    + destruct (IH (S (S (S d))) (c + 1)) as (q1 & q2 & E & Ht & Hl); [lia|lia|].
      exists (OnFulfilledJob (S (S d)) VUndefined :: q1), q2. simpl. rewrite E.
      repeat split; [|lia].
      constructor; [simpl; lia|].
      eapply Forall_impl; [exact Ht|]. simpl. intros. lia.
  - cbn [as_wave3_out futures] in *.
    destruct (Z.eqb_spec (c + 1) len) as [Heq|Hneq].
    + exists [], (OnFulfilledJob (S (S d)) VUndefined ::
                   as_wave3_out E0 outer len (S (S (S d))) (c + 1) items).
      simpl. repeat split; [constructor|lia].
    + destruct (IH (S (S (S d))) (c + 1)) as (q1 & q2 & E & Ht & Hl); [lia|lia|].
      exists (OnFulfilledJob (S (S d)) VUndefined :: q1), q2. simpl. rewrite E.
      repeat split; [|lia].
      constructor; [simpl; lia|].
      eapply Forall_impl; [exact Ht|]. simpl. intros. lia.
Qed.

Lemma as_wave3_out_plain E0 outer len items : forall d c,
  Forall (fun j => plain (job_payload j)) (as_wave3_out E0 outer len d c items).
Proof.
  induction items as [|[v|v|r] items IH]; intros d c; cbn [as_wave3_out].
  - constructor.
  - apply IH.
  - apply Forall_app. split; [destruct (c + 1 =? len); repeat constructor|].
    constructor; [done|apply IH].
  - apply Forall_app. split; [destruct (c + 1 =? len); repeat constructor|].
    constructor; [done|apply IH].
Qed.

Lemma as_settled_not_pending E0 outer len items : forall i d,
  Forall (fun pr => p_state pr <> PENDING) (as_settled E0 outer len i d items).
Proof.
  induction items as [|[v|v|r] items IH]; intros i d; cbn [as_settled].
  - constructor.
  - apply IH.
  - constructor; [done|apply IH].
  - constructor; [done|apply IH].
Qed.

Lemma as_chain_done_quiet E0 outer len items : forall i d,
  Forall (fun pr => p_state pr = PENDING -> simple_promize pr)
    (as_chain E0 outer len 2 i d items).
Proof.
  induction items as [|[v|v|r] items IH]; intros i d; cbn [as_chain].
  - constructor.
  - apply IH.
  - constructor; [done|]. constructor; [done|].
    constructor; [intros _; split; constructor|apply IH].
  - constructor; [done|]. constructor; [done|].
    constructor; [intros _; split; constructor|apply IH].
Qed.

(** Three rounds of stores fill [result]. *)
Lemma stores_full (val : item -> value) (s1 s2 s3 : item -> option value) items :
  (forall it, s3 it = Some (val it) \/
              (s3 it = None /\ (s2 it = Some (val it) \/
                                (s2 it = None /\ s1 it = Some (val it))))) ->
  store_results s3 0 items (store_results s2 0 items (store_results s1 0 items [])) =
  map Some (map val items).
Proof.
  intros Hsel. apply array_full.
  - rewrite length_map. apply Nat.le_antisymm.
    + etrans; [apply length_store_upper|].
      pose proof (length_store_upper s2 items 0 (store_results s1 0 items [])).
      pose proof (length_store_upper s1 items 0 []). simpl in *. lia.
    + destruct (decide (items = [])) as [->|Hne]; [simpl; lia|].
      destruct (exists_last Hne) as (items' & it & ->).
      rewrite length_app. simpl.
      assert (Hl : (items' ++ [it]) !! length items' = Some it)
        by (by rewrite list_lookup_middle).
      set (R1 := store_results s1 0 (items' ++ [it]) []).
      set (R2 := store_results s2 0 (items' ++ [it]) R1).
      pose proof (length_store_lower s3 (items' ++ [it]) 0 R2) as H3.
      pose proof (length_store_lower s2 (items' ++ [it]) 0 R1) as H2.
      fold R2 in H2.
      destruct (Hsel it) as [E3|[E3 [E2|[E2 E1]]]].
      * pose proof (length_store_written s3 _ 0 R2 _ _ _ Hl E3). simpl in *. lia.
      * pose proof (length_store_written s2 _ 0 R1 _ _ _ Hl E2).
        fold R2 in H. simpl in *. lia.
      * pose proof (length_store_written s1 _ 0 [] _ _ _ Hl E1).
        fold R1 in H. simpl in *. lia.
  - intros j v Hj. rewrite list_lookup_fmap in Hj.
    destruct (items !! j) as [it|] eqn:Hit; [|done]. simpl in Hj.
    inversion Hj; subst.
    rewrite array_get_store. rewrite decide_True by lia.
    rewrite Nat.sub_0_r, Hit. simpl.
    destruct (Hsel it) as [E3|[E3 [E2|[E2 E1]]]]; rewrite E3; [done| |].
    + rewrite array_get_store. rewrite decide_True by lia.
      rewrite Nat.sub_0_r, Hit. simpl. by rewrite E2.
    + rewrite array_get_store. rewrite decide_True by lia.
      rewrite Nat.sub_0_r, Hit. simpl. rewrite E2.
      rewrite array_get_store. rewrite decide_True by lia.
      rewrite Nat.sub_0_r, Hit. simpl. by rewrite E1.
Qed.

(** The world [Promize.allSettled([...])] leaves behind, as the first
    thing a program does. *)
Definition as_world (items : list item) : world :=
  let k := futures items in
  let len := Z.of_nat (length items) in
  mkWorld
    (as_subscribed [] k len 0 (S k) items ++
       new_promize :: as_chain [] k len 0 0 (S k) items)
    [mkLocals (plain_count items) (store_results sel_plain_record 0 items [])]
    (jobs_of 0 items ++ loop_resolves [] k len 0 items) [].

(** The same world once the jobs of the input instances have run. *)
Definition as_world1 (items : list item) : world :=
  let k := futures items in
  let len := Z.of_nat (length items) in
  mkWorld
    (as_settled [] k len 0 (S k) items ++
       new_promize :: as_chain [] k len 0 0 (S k) items)
    [mkLocals (plain_count items)
       (store_results sel_succeeded_record 0 items
          (store_results sel_plain_record 0 items []))]
    (loop_resolves [] k len 0 items ++ as_wave1_out [] k len (S k) (plain_count items) items)
    [].

(** And once the instances returned by [then] and by [catch] are settled. *)
Definition as_world3 (items : list item) : world :=
  let k := futures items in
  let len := Z.of_nat (length items) in
  mkWorld
    (as_settled [] k len 0 (S k) items ++
       new_promize :: as_chain [] k len 2 0 (S k) items)
    [mkLocals (plain_count items + Z.of_nat k)
       (store_results sel_failed_record 0 items
          (store_results sel_succeeded_record 0 items
             (store_results sel_plain_record 0 items [])))]
    (loop_resolves [] k len 0 items ++ as_wave3_out [] k len (S k) (plain_count items) items)
    [].

Lemma allSettled_of_exact items :
  Forall item_plain items ->
  allSettled_of items empty_world = (Normal (futures items), as_world items).
Proof.
  intros Hpl. unfold allSettled_of. unfold bind at 1. rewrite make_inputs_spec.
  cbn [empty_world heap envs microtasks console length app].
  unfold allSettled. unfold bind at 1. unfold alloc_locals at 1.
  cbn [heap envs microtasks console length app set_envs].
  unfold constructor. unfold bind at 1. unfold alloc_promize at 1.
  unfold set_envs, set_heap. cbn [heap envs microtasks console].
  rewrite length_replicate, length_inputs_of.
  unfold bind at 1. unfold try_catch.
  pose proof (allSettled_loop_exact [] (futures items) (Z.of_nat (length items)) items
    0 0 [] [] [new_promize] (jobs_of 0 items) [] Hpl) as Hloop.
  cbn [length app] in Hloop.
  rewrite Hloop. unfold ret, as_world.
  cbn [length app]. rewrite Nat.add_1_r, Z.add_0_l. reflexivity.
Qed.

Lemma as_wave1 items :
  Forall item_plain items ->
  run (futures items) (as_world items) = as_world1 items.
Proof.
  intros Hpl. unfold as_world, as_world1.
  exact (as_wave1_exact [] (futures items) (Z.of_nat (length items)) items
           0 (S (futures items)) (plain_count items)
           (store_results sel_plain_record 0 items [])
           [] (new_promize :: as_chain [] (futures items) (Z.of_nat (length items)) 0 0
                                 (S (futures items)) items)
           (loop_resolves [] (futures items) (Z.of_nat (length items)) 0 items) [] Hpl).
Qed.

(** One of the two is empty: the test of line 204 succeeds only when no
    element is a Promize. *)
Lemma loop_resolves_or_futures items :
  loop_resolves [] (futures items) (Z.of_nat (length items)) 0 items = [] \/
  futures items = 0%nat.
Proof.
  destruct (futures items) as [|k] eqn:Hk; [by right|left].
  apply loop_resolves_none. pose proof (count_items items). lia.
Qed.

Lemma as_wave23 items :
  Forall item_plain items ->
  run (2 * futures items) (as_world1 items) = as_world3 items.
Proof.
  intros Hpl.
  replace (2 * futures items)%nat with (futures items + futures items)%nat by lia.
  rewrite run_add. unfold as_world1, as_world3.
  assert (Hlen : S (futures items) =
            length (as_settled [] (futures items) (Z.of_nat (length items)) 0
                      (S (futures items)) items ++ [new_promize])).
  { rewrite length_app, length_as_settled. simpl. lia. }
  assert (Hq1 : loop_resolves [] (futures items) (Z.of_nat (length items)) 0 items ++
                as_wave1_out [] (futures items) (Z.of_nat (length items))
                  (S (futures items)) (plain_count items) items =
                as_then_jobs (S (futures items)) items ++
                loop_resolves [] (futures items) (Z.of_nat (length items)) 0 items).
  { destruct (loop_resolves_or_futures items) as [Hlr|Hk].
    - rewrite Hlr, app_nil_r. simpl.
      apply as_wave1_out_jobs.
      destruct (decide (futures items = 0%nat)); [by right|left].
      pose proof (count_items items). lia.
    - rewrite as_wave1_out_jobs by (by right).
      rewrite as_then_jobs_no_futures by done. by rewrite app_nil_r. }
  rewrite Hq1.
  replace (as_settled [] (futures items) (Z.of_nat (length items)) 0 (S (futures items)) items ++
             new_promize ::
             as_chain [] (futures items) (Z.of_nat (length items)) 0 0 (S (futures items)) items)
    with ((as_settled [] (futures items) (Z.of_nat (length items)) 0 (S (futures items)) items ++
             [new_promize]) ++
            as_chain [] (futures items) (Z.of_nat (length items)) 0 0 (S (futures items)) items ++ [])
    by (rewrite <- !app_assoc, app_nil_r; reflexivity).
  pose proof (as_wave2_exact [] (futures items) (Z.of_nat (length items)) items
                0 (S (futures items)) (plain_count items)
                (store_results sel_succeeded_record 0 items
                   (store_results sel_plain_record 0 items []))
                _ [] (loop_resolves [] (futures items) (Z.of_nat (length items)) 0 items)
                [] Hpl Hlen) as H2.
  cbn [app] in H2. cbn [app]. rewrite !app_nil_r in H2. rewrite !app_nil_r.
  rewrite H2. clear H2.
  assert (Hq2 : loop_resolves [] (futures items) (Z.of_nat (length items)) 0 items ++
                as_catch_jobs (S (futures items)) items =
                as_catch_jobs (S (futures items)) items ++
                loop_resolves [] (futures items) (Z.of_nat (length items)) 0 items).
  { destruct (loop_resolves_or_futures items) as [Hlr|Hk].
    - by rewrite Hlr, app_nil_r.
    - rewrite as_catch_jobs_no_futures by done. by rewrite app_nil_r. }
  rewrite Hq2.
  pose proof (as_wave3_exact [] (futures items) (Z.of_nat (length items)) items
                0 (S (futures items)) (plain_count items)
                (store_results sel_failed_record 0 items
                   (store_results sel_succeeded_record 0 items
                      (store_results sel_plain_record 0 items [])))
                _ [] (loop_resolves [] (futures items) (Z.of_nat (length items)) 0 items)
                [] Hlen) as H3.
  cbn [app] in H3. rewrite !app_nil_r in H3.
  rewrite H3. clear H3.
  rewrite <- !app_assoc. reflexivity.
Qed.

Lemma as_world3_outer items :
  state_of (as_world3 items) (futures items) = PENDING /\
  (futures items < length (heap (as_world3 items)))%nat.
Proof.
  unfold as_world3, state_of, get_promize. cbn [heap]. split.
  - rewrite lookup_total_middle; [done|]. by rewrite length_as_settled.
  - rewrite length_app, length_as_settled. simpl. lia.
Qed.

Lemma as_world3_quiet items : quiet (as_world3 items).
Proof.
  split; unfold as_world3; cbn [heap microtasks].
  - apply Forall_app. split.
    + eapply Forall_impl; [apply as_settled_not_pending|]. simpl. intros pr H1 H2.
      by destruct H1.
    + constructor; [intros _; split; constructor|apply as_chain_done_quiet].
  - apply Forall_app. split; [apply loop_resolves_plain|apply as_wave3_out_plain].
Qed.

Lemma as_world3_queue items :
  items <> [] ->
  exists q1 q2,
    microtasks (as_world3 items) =
      q1 ++ OnFulfilledJob (futures items) (VArray 0%nat) :: q2 /\
    Forall (fun j => job_target j <> futures items) q1 /\
    (length q1 <= futures items)%nat.
Proof.
  intros Hne. unfold as_world3. cbn [microtasks].
  pose proof (count_items items) as Hcount.
  destruct (futures items) as [|k] eqn:Hk.
  - rewrite (loop_resolves_all_plain [] 0%nat _ items 0) by (done || lia).
    rewrite as_wave3_out_no_futures by done.
    exists [], []. simpl. repeat split; [constructor|lia].
  - rewrite loop_resolves_none by lia.
    destruct (as_wave3_out_resolves [] (S k) (Z.of_nat (length items)) items
                (S (S k)) (plain_count items)) as (q1 & q2 & E & Ht & Hl).
    { lia. }
    { lia. }
    exists q1, q2. simpl. rewrite E. simpl. repeat split; [|lia].
    eapply Forall_impl; [exact Ht|]. simpl. intros. lia.
Qed.

Lemma as_world_prefix items t' :
  (t' < futures items)%nat ->
  state_of (run t' (as_world items)) (futures items) = PENDING.
Proof.
  intros Ht.
  pose proof (jobs_of_targets items 0) as Htg.
  assert (Hq : microtasks (as_world items) =
            take t' (jobs_of 0 items) ++ (drop t' (jobs_of 0 items) ++
              loop_resolves [] (futures items) (Z.of_nat (length items)) 0 items)).
  { unfold as_world. cbn [microtasks]. by rewrite app_assoc, take_drop. }
  destruct (run_prefix _ _ _ Hq) as [_ Hst].
  rewrite length_take, (length_jobs_of items 0) in Hst.
  replace (t' `min` futures items)%nat with t' in Hst by lia.
  destruct (Hst (futures items)) as [Hs _].
  { apply Forall_take. eapply Forall_impl; [exact Htg|]. simpl. intros. lia. }
  rewrite Hs. unfold as_world, state_of, get_promize. cbn [heap].
  rewrite lookup_total_middle; [done|]. by rewrite length_as_subscribed.
Qed.

(** X20.  [Promize.allSettled] on a script that is not empty: the new
    instance ends FULFILLED with the [result] array, which holds one record per
    input in input order, tagged [fulfilled] with the value or [rejected]
    with the reason; it is never REJECTED, and never FULFILLED while an
    input instance is still PENDING. *)
Theorem allSettled_fulfills_with_records (items : list item) (t : nat) :
  Forall item_plain items ->
  items <> [] ->
  (4 * futures items < t)%nat ->
  let w := exec (allSettled_of items) empty_world in
  let outer := futures items in
  eval (allSettled_of items) empty_world = Normal outer /\
  state_of (run t w) outer = FULFILLED /\
  value_of (run t w) outer = VArray 0%nat /\
  array_of (run t w) 0%nat = map Some (map outcome_record items) /\
  (forall t', state_of (run t' w) outer <> REJECTED) /\
  (forall t' p,
     state_of (run t' w) outer = FULFILLED -> (p < futures items)%nat ->
     state_of (run t' w) p <> PENDING).
Proof.
  intros Hpl Hne Ht w outer. subst w outer.
  unfold exec, eval. rewrite allSettled_of_exact by done. cbn [fst snd].
  assert (Hsplit1 : forall n, (futures items <= n)%nat ->
            run n (as_world items) = run (n - futures items) (as_world1 items)).
  { intros n Hn. replace n with (futures items + (n - futures items))%nat at 1 by lia.
    rewrite run_add. by rewrite as_wave1. }
  assert (Hsplit : forall n, (3 * futures items <= n)%nat ->
            run n (as_world items) = run (n - 3 * futures items) (as_world3 items)).
  { intros n Hn. rewrite Hsplit1 by lia.
    replace (n - futures items)%nat
      with (2 * futures items + (n - 3 * futures items))%nat by lia.
    rewrite run_add. by rewrite as_wave23. }
  destruct (as_world3_queue items Hne) as (q1 & q2 & Hq & Hq1 & Hlen).
  destruct (as_world3_outer items) as [Hpend Hvalid].
  assert (Hfinal : forall n, (4 * futures items < n)%nat ->
            state_of (run n (as_world items)) (futures items) = FULFILLED /\
            value_of (run n (as_world items)) (futures items) = VArray 0%nat).
  { intros n Hn. rewrite Hsplit by lia.
    apply (first_job_wins _ q1 (OnFulfilledJob (futures items) (VArray 0%nat)) q2);
      [exact Hq|exact Hq1|exact Hpend|exact Hvalid|reflexivity|lia]. }
  split; [reflexivity|]. split; [apply (Hfinal t Ht)|]. split; [apply (Hfinal t Ht)|].
  split; [|split].
  - rewrite Hsplit by lia. unfold array_of, get_locals.
    rewrite run_quiet by apply as_world3_quiet.
    unfold as_world3. cbn [envs]. simpl lookup_total. cbn [result].
    apply stores_full. intros [v|v|r]; simpl; auto.
  - intros t' Hrej.
    destruct (run_stable (S (4 * futures items)) (run t' (as_world items)) (futures items))
      as [Hs _]; [by rewrite Hrej|].
    rewrite <- run_add in Hs.
    destruct (Hfinal (t' + S (4 * futures items))%nat) as [Hful _]; [lia|].
    congruence.
  - intros t' p Hful Hp.
    destruct (decide (t' < futures items)%nat) as [Hlt|Hge].
    + rewrite as_world_prefix in Hful by done. discriminate Hful.
    + rewrite Hsplit1 by lia.
      assert (Hp1 : state_of (as_world1 items) p <> PENDING).
      { unfold as_world1, state_of, get_promize. cbn [heap].
        rewrite lookup_total_app_l by (by rewrite length_as_settled).
        apply (Forall_lookup_total_1 (fun pr => p_state pr <> PENDING));
          [apply as_settled_not_pending|by rewrite length_as_settled]. }
      destruct (run_stable (t' - futures items) (as_world1 items) p Hp1) as [Hs _].
      by rewrite Hs.
Qed.

(** * Further properties of the code *)

(** ** [Promize.resolve] on a value that is not a Promize *)

(** X1.  [Promize.resolve(x)] with [x] not a Promize never raises and
    returns a new instance that is still PENDING when the call returns
    (the settlement is scheduled, not performed) and that ends FULFILLED
    with exactly [x] once the jobs queued before it have run. *)
Theorem resolve_settles (w : world) (x : value) (n : nat) :
  queue_wf w ->
  plain x ->
  (length (microtasks w) < n)%nat ->
  eval (resolve x) w = Normal (length (heap w)) /\
  state_of (exec (resolve x) w) (length (heap w)) = PENDING /\
  microtasks (exec (resolve x) w) =
    microtasks w ++ [OnFulfilledJob (length (heap w)) x] /\
  state_of (run n (exec (resolve x) w)) (length (heap w)) = FULFILLED /\
  value_of (run n (exec (resolve x) w)) (length (heap w)) = x.
Proof.
  intros Hwf Hx Hn. split; [reflexivity|].
  split; [apply state_of_allocated|]. split; [reflexivity|].
  unfold exec. rewrite resolve_spec. simpl.
  apply (first_job_wins _ (microtasks w) (OnFulfilledJob (length (heap w)) x) [] n);
    simpl; auto.
  - by apply queue_wf_fresh.
  - apply state_of_allocated.
  - rewrite length_app. simpl. lia.
Qed.

(** ** The constructor and the executor *)

Definition statement_payload (s : statement) : value :=
  match s with CallResolve v | CallReject v | ThrowStmt v => v end.

(** What the statement asks for: [throw] inside the executor is turned
    into a call of the failure capability by lines 51-53. *)
Definition statement_job (this : pid) (s : statement) : job :=
  match s with
  | CallResolve v => OnFulfilledJob this v
  | CallReject v => OnRejectedJob this v
  | ThrowStmt v => OnRejectedJob this v
  end.

(** The statements of an executor body that are reached: those up to and
    including the first [throw]. *)
Fixpoint reached (body : list statement) : list statement :=
  match body with
  | [] => []
  | ThrowStmt v :: _ => [ThrowStmt v]
  | s :: rest => s :: reached rest
  end.

Lemma user_executor_exact this body : forall w,
  exec (try_catch (user_executor body this) (fun error => onRejected this error)) w =
    set_microtasks (microtasks w ++ map (statement_job this) (reached body)) w /\
  eval (try_catch (user_executor body this) (fun error => onRejected this error)) w =
    Normal tt.
Proof.
  induction body as [|s body IH]; intros w.
  - unfold exec, eval, try_catch; simpl. rewrite app_nil_r. by destruct w.
  - destruct (IH (set_microtasks (microtasks w ++ [statement_job this s]) w)) as [IHx IHe].
    unfold exec, eval, try_catch, user_executor in *. simpl forEach.
    destruct s as [v|v|v]; unfold bind, throw, onFulfilled, onRejected,
      queueMicrotask, modify in *; simpl in *.
    + destruct (forEach body _ _) as [[[]|e] w1]; simpl in *;
        rewrite <- app_assoc in IHx; simpl in IHx; auto.
    + destruct (forEach body _ _) as [[[]|e] w1]; simpl in *;
        rewrite <- app_assoc in IHx; simpl in IHx; auto.
    + auto.
Qed.

(** X2.  [new Promize(executor)] never raises, whatever the executor
    does.  The executor runs at once and only schedules: the new instance
    is PENDING when the constructor returns.  Its outcome is decided by
    the first statement of the executor among [resolve(v)], [reject(v)]
    and [throw v] ([v] not a Promize): FULFILLED with [v] for [resolve],
    REJECTED with [v] for [reject] and for [throw]; later calls and a
    later [throw] change nothing, and the statements behind a [throw] are
    never reached. *)
Theorem executor_first_statement_decides (w : world) (s : statement)
    (rest : list statement) (n : nat) :
  queue_wf w ->
  plain (statement_payload s) ->
  (length (microtasks w) < n)%nat ->
  let this := length (heap w) in
  let w' := exec (constructor (user_executor (s :: rest))) w in
  eval (constructor (user_executor (s :: rest))) w = Normal this /\
  state_of w' this = PENDING /\
  microtasks w' = microtasks w ++ map (statement_job this) (reached (s :: rest)) /\
  state_of (run n w') this = job_state (statement_job this s) /\
  value_of (run n w') this = statement_payload s.
Proof.
  intros Hwf Hpl Hn this w'.
  set (w0 := set_heap (heap w ++ [new_promize]) w).
  destruct (user_executor_exact this (s :: rest) w0) as [Hx He].
  assert (Hc : constructor (user_executor (s :: rest)) w =
               (Normal this,
                set_microtasks (microtasks w0 ++
                  map (statement_job this) (reached (s :: rest))) w0)).
  { unfold constructor. unfold bind at 1. unfold alloc_promize at 1.
    fold this. fold w0. unfold bind at 1. unfold exec, eval in Hx, He.
    destruct (try_catch _ _ w0) as [[[]|e] w1]; simpl in Hx, He; [|discriminate He].
    by rewrite Hx. }
  subst w'. unfold exec, eval. rewrite Hc. cbn [fst snd].
  assert (Hr : exists js, map (statement_job this) (reached (s :: rest)) =
                 statement_job this s :: js).
  { destruct s; simpl; eauto. }
  destruct Hr as [js Hr].
  assert (Hst : state_of (set_microtasks (microtasks w0 ++
                  map (statement_job this) (reached (s :: rest))) w0) this = PENDING).
  { subst w0 this. apply state_of_allocated. }
  split; [done|]. split; [exact Hst|]. split; [done|].
  assert (Hp : job_payload (statement_job this s) = statement_payload s)
    by (by destruct s).
  assert (Ht : job_target (statement_job this s) = this) by (by destruct s).
  pose proof (first_job_wins
    (set_microtasks (microtasks w0 ++
       map (statement_job this) (reached (s :: rest))) w0)
    (microtasks w) (statement_job this s) js n) as H.
  rewrite Ht, Hp in H. apply H.
  - rewrite Hr. reflexivity.
  - by apply queue_wf_fresh.
  - exact Hst.
  - subst this w0. simpl. rewrite length_app. simpl. lia.
  - exact Hpl.
  - exact Hn.
Qed.

(** ** [Promize.race] on the empty array *)

(** X3.  [Promize.race([])] never raises and schedules nothing: the
    callback of [forEach] is not called, the queue is as it was and the
    new instance is PENDING; started from the empty world it is PENDING
    after any number of queue turns. *)
Theorem race_empty_never_settles (w : world) (n : nat) :
  eval (race []) w = Normal (length (heap w)) /\
  microtasks (exec (race []) w) = microtasks w /\
  state_of (exec (race []) w) (length (heap w)) = PENDING /\
  state_of (run n (exec (race []) empty_world)) 0%nat = PENDING.
Proof.
  repeat split.
  - apply state_of_allocated.
  - by rewrite run_quiescent.
Qed.

(** ** Errors never leave a microtask *)

(** X4.  The closure that [#onFulfilled] or [#onRejected] hands to
    [queueMicrotask] never raises, in any world and for any payload: an
    error raised by a handler is trapped by the closures that [then]
    pushed (lines 74-78 and 95-100), and every turn of the queue removes
    exactly the job it runs, what that job schedules being queued behind
    the jobs already waiting. *)
Theorem microtask_never_throws (j : job) (w : world) :
  eval (run_job j) w = Normal tt /\
  (forall cb v, eval (run_callback cb v) w = Normal tt) /\
  (forall p, eval (executeCallbacks p) w = Normal tt) /\
  (forall q, microtasks w = j :: q ->
     exists js, microtasks (tick w) = q ++ js).
Proof.
  split; [|split; [|split]].
  - unfold eval. destruct j as [p v|p v]; simpl; unfold bind at 1, gets;
      destruct (state_of w p); try reflexivity;
      destruct v;
      try (unfold bind, updateStateAndValue, alter_promize, modify;
           apply executeCallbacks_normal);
      unfold bind;
      match goal with
      | |- context [then_ ?a ?b ?c ?w0] =>
          destruct (then_normal a b c w0) as [w1 ->]
      end; reflexivity.
  - intros cb v. apply run_callback_normal.
  - intros p. apply executeCallbacks_normal.
  - intros q Hq. rewrite (tick_cons j q) by done.
    destruct (run_job_changes_only j (set_microtasks q w)) as [_ _ [js Hjs] _].
    exists js. exact Hjs.
Qed.

(** ** [#executeCallbacks] and the registration of handlers *)

Lemma clear_then_keeps : keeps_settlement clear_then.
Proof. by intros []. Qed.

Lemma clear_catch_keeps : keeps_settlement clear_catch.
Proof. by intros []. Qed.

Lemma set_heap_fire_state cbs v w f p :
  keeps_settlement f ->
  state_of (set_heap (alter f p (heap w)) (fire cbs v w)) p = state_of w p /\
  value_of (set_heap (alter f p (heap w)) (fire cbs v w)) p = value_of w p.
Proof.
  intros Hf. unfold state_of, value_of, get_promize. cbn [heap set_heap].
  apply lookup_total_alter_keeps, Hf.
Qed.

Lemma allocated_of_settled w p : state_of w p <> PENDING -> (p < length (heap w))%nat.
Proof.
  intros H. destruct (decide (p < length (heap w))%nat) as [|Hge]; [done|].
  exfalso. apply H, state_of_fresh. lia.
Qed.

Lemma fire_nil v w : fire [] v w = w.
Proof. reflexivity. Qed.

(** X5.  [#executeCallbacks] runs every registered callback at most once:
    the callbacks it has run are removed (lines 265 and 273), so running
    it a second time at once changes nothing, in any world and for any
    instance. *)
Theorem executeCallbacks_runs_callbacks_once (w : world) (p : pid) :
  exec (executeCallbacks p) (exec (executeCallbacks p) w) =
  exec (executeCallbacks p) w.
Proof.
  destruct (state_of w p) eqn:Hst.
  - unfold exec. rewrite (executeCallbacks_pending w p Hst). cbn [snd].
    by rewrite (executeCallbacks_pending w p Hst).
  - rewrite (executeCallbacks_rejected_any w p Hst). cbv zeta.
    set (w1 := fire (catchCallbacks (get_promize w p)) (value_of w p) w).
    set (w2 := set_heap (alter clear_catch p (heap w1)) w1).
    assert (Hs1 : state_of w1 p = REJECTED).
    { unfold w1. by rewrite (ext_state _ _ (frames_fire _ _ w)). }
    pose proof (allocated_of_settled w1 p ltac:(by rewrite Hs1)) as Hlt.
    assert (Hs2 : state_of w2 p = REJECTED).
    { unfold w2, state_of, get_promize. cbn [heap set_heap].
      by rewrite (proj1 (lookup_total_alter_keeps _ _ _ _ clear_catch_keeps)). }
    rewrite (executeCallbacks_rejected_any w2 p Hs2). cbv zeta.
    assert (Hc : catchCallbacks (get_promize w2 p) = []).
    { unfold get_promize, w2. cbn [heap set_heap].
      rewrite lookup_total_alter. by rewrite decide_True. }
    rewrite Hc, fire_nil. unfold w2, set_heap.
    cbn [heap envs microtasks console].
    f_equal. rewrite list_alter_alter_eq.
    apply list_alter_ext; [by intros []|done].
  - rewrite (executeCallbacks_fulfilled_any w p Hst). cbv zeta.
    set (w1 := fire (thenCallbacks (get_promize w p)) (value_of w p) w).
    set (w2 := set_heap (alter clear_then p (heap w1)) w1).
    assert (Hs1 : state_of w1 p = FULFILLED).
    { unfold w1. by rewrite (ext_state _ _ (frames_fire _ _ w)). }
    pose proof (allocated_of_settled w1 p ltac:(by rewrite Hs1)) as Hlt.
    assert (Hs2 : state_of w2 p = FULFILLED).
    { unfold w2, state_of, get_promize. cbn [heap set_heap].
      by rewrite (proj1 (lookup_total_alter_keeps _ _ _ _ clear_then_keeps)). }
    rewrite (executeCallbacks_fulfilled_any w2 p Hs2). cbv zeta.
    assert (Hc : thenCallbacks (get_promize w2 p) = []).
    { unfold get_promize, w2. cbn [heap set_heap].
      rewrite lookup_total_alter. by rewrite decide_True. }
    rewrite Hc, fire_nil. unfold w2, set_heap.
    cbn [heap envs microtasks console].
    f_equal. rewrite list_alter_alter_eq.
    apply list_alter_ext; [by intros []|done].
Qed.

(** X6.  [then] on an instance that is still PENDING only registers: it
    never raises, returns a new PENDING instance, appends its two
    closures behind the ones registered earlier, and calls no handler:
    the queue, the console and the locals of the combinators are as they
    were, and so is the state of every instance. *)
Theorem then_on_pending_only_registers (w : world) (p : pid) (f r : value) :
  state_of w p = PENDING ->
  let next := length (heap w) in
  let w' := exec (then_ p f r) w in
  eval (then_ p f r) w = Normal next /\
  microtasks w' = microtasks w /\ console w' = console w /\ envs w' = envs w /\
  length (heap w') = S (length (heap w)) /\
  (forall q, state_of w' q = state_of w q /\ value_of w' q = value_of w q) /\
  ((p < length (heap w))%nat ->
   thenCallbacks (get_promize w' p) =
     thenCallbacks (get_promize w p) ++ [ThenCallback f next] /\
   catchCallbacks (get_promize w' p) =
     catchCallbacks (get_promize w p) ++ [CatchCallback r next]).
Proof.
  intros Hp next w'. subst w'. unfold exec, eval. rewrite then_pending by done.
  cbn [fst snd set_heap heap envs microtasks console].
  split; [done|]. split; [done|]. split; [done|]. split; [done|]. split; [|split].
  - rewrite length_alter, length_app. simpl. lia.
  - intros q. unfold state_of, value_of, get_promize. cbn [heap set_heap].
    destruct (lookup_total_alter_keeps (heap w ++ [new_promize]) p
                (subscribe f r (length (heap w))) q (subscribe_keeps _ _ _)) as [-> ->].
    by rewrite lookup_total_alloc.
  - intros Hlt. unfold get_promize. cbn [heap set_heap].
    rewrite lookup_total_alter, decide_True by (rewrite length_app; simpl; lia).
    rewrite lookup_total_alloc. done.
Qed.

(** X7.  On an instance that is already settled and whose callbacks have
    run, [then] calls the matching handler before it returns, exactly
    once and with the settled value, and schedules the settlement of the
    instance it returns with what the handler returned; the instance is
    left without registered callbacks on that side, so a later [then]
    does not call this handler again. *)
Theorem then_on_settled_runs_handler_at_once (w : world) (p : pid) (other : value) :
  (state_of w p = FULFILLED -> thenCallbacks (get_promize w p) = [] ->
   let w' := exec (then_ p (VFun ConsoleLog) other) w in
   console w' = console w ++ [[value_of w p]] /\
   microtasks w' = microtasks w ++ [OnFulfilledJob (length (heap w)) VUndefined] /\
   thenCallbacks (get_promize w' p) = [] /\
   state_of w' p = FULFILLED /\ value_of w' p = value_of w p) /\
  (state_of w p = REJECTED -> catchCallbacks (get_promize w p) = [] ->
   let w' := exec (then_ p other (VFun ConsoleLog)) w in
   console w' = console w ++ [[value_of w p]] /\
   microtasks w' = microtasks w ++ [OnFulfilledJob (length (heap w)) VUndefined] /\
   catchCallbacks (get_promize w' p) = [] /\
   state_of w' p = REJECTED /\ value_of w' p = value_of w p).
Proof.
  split; intros Hst Hcb w'; subst w'; unfold exec; rewrite then_exact; cbn [snd];
    pose proof (allocated_of_settled w p ltac:(by rewrite Hst)) as Hlt;
    set (next := length (heap w));
    set (w0 := set_heap (alter (subscribe _ _ next) p (heap w ++ [new_promize])) w).
  - assert (Hrec : get_promize w0 p = subscribe (VFun ConsoleLog) other next (get_promize w p)).
    { unfold get_promize, w0. cbn [heap set_heap].
      rewrite lookup_total_alter, decide_True by (rewrite length_app; simpl; lia).
      by rewrite lookup_total_alloc. }
    assert (Hs0 : state_of w0 p = FULFILLED) by (unfold state_of; by rewrite Hrec).
    rewrite (executeCallbacks_fulfilled w0 p Hs0) by (rewrite Hrec; cbn; by rewrite Hcb).
    set (v := value_of w p).
    replace (value_of w0 p) with v by (unfold value_of; by rewrite Hrec).
    replace (thenCallbacks (get_promize w0 p)) with [ThenCallback (VFun ConsoleLog) next]
      by (rewrite Hrec; cbn; by rewrite Hcb).
    assert (Hf : fire [ThenCallback (VFun ConsoleLog) next] v w0 =
                 mkWorld (heap w0) (envs w) (microtasks w ++ [OnFulfilledJob next VUndefined])
                   (console w ++ [[v]])) by reflexivity.
    rewrite Hf. cbn [set_heap heap envs microtasks console].
    split; [done|]. split; [done|].
    unfold state_of, value_of, get_promize. cbn [heap set_heap].
    rewrite lookup_total_alter, decide_True
      by (unfold w0; cbn [heap set_heap]; rewrite length_alter, length_app; simpl; lia).
    fold (get_promize w0 p). rewrite Hrec. cbn. split; [done|].
    split; [exact Hst|done].
  - assert (Hrec : get_promize w0 p = subscribe other (VFun ConsoleLog) next (get_promize w p)).
    { unfold get_promize, w0. cbn [heap set_heap].
      rewrite lookup_total_alter, decide_True by (rewrite length_app; simpl; lia).
      by rewrite lookup_total_alloc. }
    assert (Hs0 : state_of w0 p = REJECTED) by (unfold state_of; by rewrite Hrec).
    rewrite (executeCallbacks_rejected w0 p Hs0) by (rewrite Hrec; cbn; by rewrite Hcb).
    set (v := value_of w p).
    replace (value_of w0 p) with v by (unfold value_of; by rewrite Hrec).
    replace (catchCallbacks (get_promize w0 p)) with [CatchCallback (VFun ConsoleLog) next]
      by (rewrite Hrec; cbn; by rewrite Hcb).
    assert (Hf : fire [CatchCallback (VFun ConsoleLog) next] v w0 =
                 mkWorld (heap w0) (envs w) (microtasks w ++ [OnFulfilledJob next VUndefined])
                   (console w ++ [[v]])) by reflexivity.
    rewrite Hf. cbn [set_heap heap envs microtasks console].
    split; [done|]. split; [done|].
    unfold state_of, value_of, get_promize. cbn [heap set_heap].
    rewrite lookup_total_alter, decide_True
      by (unfold w0; cbn [heap set_heap]; rewrite length_alter, length_app; simpl; lia).
    fold (get_promize w0 p). rewrite Hrec. cbn. split; [done|].
    split; [exact Hst|done].
Qed.

(** ** An invariant of every reachable world *)

(** What holds of the private fields of an instance between two
    operations: [#value] is [undefined] until the instance settles
    (line 47); a settled instance never holds a Promize as its value
    (lines 290 and 326 divert such payloads); the callbacks of the side
    on which it settled have run and are gone (lines 265 and 273). *)
Definition tidy_promize (pr : promize) : Prop :=
  match p_state pr with
  | PENDING => p_value pr = VUndefined
  | FULFILLED => plain (p_value pr) /\ thenCallbacks pr = []
  | REJECTED => plain (p_value pr) /\ catchCallbacks pr = []
  end.

Definition tidy (w : world) : Prop := Forall tidy_promize (heap w).

(** Inside an operation the callbacks of an instance whose
    [#executeCallbacks] is running are still registered (they are
    removed when the iteration ends, lines 265 and 273): such instances
    are set apart, only what the invariant says of their value holds of
    them. *)
Definition tidy_value (pr : promize) : Prop :=
  match p_state pr with
  | PENDING => p_value pr = VUndefined
  | _ => plain (p_value pr)
  end.

Definition tidy_but (busy : pid -> Prop) (w : world) : Prop :=
  forall p pr, heap w !! p = Some pr ->
    tidy_value pr /\ (~ busy p -> tidy_promize pr).

(** An operation that keeps the invariant, also when it is called by a
    handler. *)
Definition keeps_tidy {A} (m : M A) : Prop :=
  forall busy w, tidy_but busy w -> tidy_but busy (snd (m w)).

(** The inner call of [then] keeps it. *)
Class ClientThenTidy : Prop :=
  client_then_tidy : forall p f r, keeps_tidy (client_then p f r).

Context {reenter_tidy : ClientThenTidy}.

Lemma tidy_promize_value pr : tidy_promize pr -> tidy_value pr.
Proof. unfold tidy_promize, tidy_value. destruct (p_state pr); tauto. Qed.

Lemma tidy_tidy_but w : tidy w <-> tidy_but (fun _ => False) w.
Proof.
  unfold tidy, tidy_but. rewrite Forall_lookup. split.
  - intros H p pr Hp. specialize (H p pr Hp). split; [by apply tidy_promize_value|done].
  - intros H p pr Hp. apply (H p pr Hp). tauto.
Qed.

Lemma tidy_but_weaken (busy busy' : pid -> Prop) w :
  (forall p, busy p -> busy' p) -> tidy_but busy w -> tidy_but busy' w.
Proof.
  intros Hb H p pr Hp. destruct (H p pr Hp) as [Hv Ht].
  split; [exact Hv|]. intros Hn. apply Ht. intros Hp'. apply Hn, Hb, Hp'.
Qed.

Lemma keeps_tidy_heap_free {A} (m : M A) : heap_free m -> keeps_tidy m.
Proof. intros Hm busy w Hw. unfold tidy_but. by rewrite heap_free_heap. Qed.

Lemma keeps_tidy_ret {A} (a : A) : keeps_tidy (ret a).
Proof. by intros busy w. Qed.

Lemma keeps_tidy_throw {A} e : keeps_tidy (@throw A e).
Proof. by intros busy w. Qed.

Lemma keeps_tidy_bind {A B} (m : M A) (k : A -> M B) :
  keeps_tidy m -> (forall a, keeps_tidy (k a)) -> keeps_tidy (bind m k).
Proof.
  intros Hm Hk busy w Hw. unfold bind. specialize (Hm busy w Hw).
  destruct (m w) as [[a|e] w1]; simpl in *; [by apply Hk|done].
Qed.

Lemma keeps_tidy_try_catch {A} (m : M A) (h : value -> M A) :
  keeps_tidy m -> (forall e, keeps_tidy (h e)) -> keeps_tidy (try_catch m h).
Proof.
  intros Hm Hh busy w Hw. unfold try_catch. specialize (Hm busy w Hw).
  destruct (m w) as [[a|e] w1]; simpl in *; [done|by apply Hh].
Qed.

Lemma keeps_tidy_forEach {A} (l : list A) (f : A -> M unit) :
  (forall x, keeps_tidy (f x)) -> keeps_tidy (forEach l f).
Proof.
  intros Hf. induction l as [|x l IH]; simpl.
  - apply keeps_tidy_ret.
  - apply keeps_tidy_bind; auto.
Qed.

Lemma keeps_tidy_queue j : keeps_tidy (queueMicrotask j).
Proof. apply keeps_tidy_heap_free, heap_free_queueMicrotask. Qed.

Lemma keeps_tidy_resolve_when e b outer : keeps_tidy (resolve_when_completed e b outer).
Proof. apply keeps_tidy_heap_free, heap_free_resolve_when_completed. Qed.

Lemma keeps_tidy_alter_locals e f : keeps_tidy (alter_locals e f).
Proof. apply keeps_tidy_heap_free, heap_free_alter_locals. Qed.

Lemma keeps_tidy_alloc_locals : keeps_tidy alloc_locals.
Proof. by intros busy w Hw. Qed.

Lemma keeps_tidy_gets {A} (f : world -> A) : keeps_tidy (gets f).
Proof. by intros busy w. Qed.

Lemma keeps_tidy_alloc : keeps_tidy alloc_promize.
Proof.
  intros busy w Hw p pr. unfold alloc_promize; simpl.
  rewrite lookup_app_Some. intros [Hp|[_ Hp]]; [by apply Hw|].
  destruct (p - length (heap w))%nat; [|done].
  simpl in Hp. inversion Hp; subst. split; [reflexivity|]. intros _. reflexivity.
Qed.

Lemma keeps_tidy_constructor executor :
  (forall this, keeps_tidy (executor this)) -> keeps_tidy (constructor executor).
Proof.
  intros He. unfold constructor.
  apply keeps_tidy_bind; [apply keeps_tidy_alloc|]. intros this.
  apply keeps_tidy_bind; [|intros; apply keeps_tidy_ret].
  apply keeps_tidy_try_catch; [apply He|]. intros e. apply keeps_tidy_queue.
Qed.

(** Handlers keep the invariant: the closures of the class do not touch
    the heap, a client function calls [then]. *)
Lemma keeps_tidy_call_func f args : keeps_tidy (call_func f args).
Proof.
  revert args. induction f; intros args;
    try (apply keeps_tidy_heap_free, heap_free_call_func; reflexivity); simpl.
  - apply keeps_tidy_bind; [apply IHf|]. intros _. apply keeps_tidy_ret.
  - apply keeps_tidy_bind; [apply IHf|]. intros _. apply keeps_tidy_throw.
  - apply keeps_tidy_bind.
    + assert (Hb : keeps_tidy (forEach body (run_stmt (first_argument args)))).
      { apply keeps_tidy_forEach. intros [es|p f r]; simpl.
        - apply keeps_tidy_heap_free, heap_free_console_log.
        - apply keeps_tidy_bind; [apply client_then_tidy|]. intros _.
          apply keeps_tidy_ret. }
      destruct once as [c|]; simpl; [|exact Hb].
      apply keeps_tidy_bind; [apply keeps_tidy_gets|]. intros n.
      destruct (n =? 0); [|apply keeps_tidy_ret].
      apply keeps_tidy_bind; [apply keeps_tidy_alter_locals|]. intros _. exact Hb.
    + intros _. destruct ending; simpl; [apply keeps_tidy_ret|apply keeps_tidy_throw].
Qed.

Lemma keeps_tidy_run_callback cb v : keeps_tidy (run_callback cb v).
Proof.
  destruct cb as [h n|h n]; destruct h; simpl;
    try apply keeps_tidy_queue;
    (apply keeps_tidy_try_catch; [|intros ?; apply keeps_tidy_queue]);
    (apply keeps_tidy_bind; [apply keeps_tidy_call_func|intros ?; apply keeps_tidy_queue]).
Qed.

Lemma tidy_but_fire busy cbs v w : tidy_but busy w -> tidy_but busy (fire cbs v w).
Proof.
  apply (keeps_tidy_forEach cbs (fun cb => run_callback cb v)).
  intros cb. apply keeps_tidy_run_callback.
Qed.

Lemma tidy_but_alter busy w (f : promize -> promize) q :
  tidy_but busy w ->
  (forall pr, heap w !! q = Some pr ->
     tidy_value (f pr) /\ (~ busy q -> tidy_promize (f pr))) ->
  tidy_but busy (set_heap (alter f q (heap w)) w).
Proof.
  intros Hw Hf p pr. cbn [heap set_heap].
  rewrite list_lookup_alter. case_decide as Hd; [subst p|apply Hw].
  destruct (heap w !! q) as [pr0|] eqn:Hq; simpl; [|done].
  intros E. inversion E; subst. by apply Hf.
Qed.

(** [#executeCallbacks] ends the iteration over the callbacks of [q]. *)
Lemma executeCallbacks_tidy busy q w :
  tidy_but (fun p => busy p \/ p = q) w ->
  tidy_but busy (exec (executeCallbacks q) w).
Proof.
  intros Hw.
  assert (Hclear : forall w1 (clr : promize -> promize),
    tidy_but (fun p => busy p \/ p = q) w1 ->
    (forall pr, tidy_value pr -> p_state pr = state_of w q ->
       tidy_promize (clr pr)) ->
    state_of w1 q = state_of w q ->
    tidy_but busy (set_heap (alter clr q (heap w1)) w1)).
  { intros w1 clr Hw1 Hclr Hs p pr. cbn [heap set_heap].
    rewrite list_lookup_alter. case_decide as Hd; [subst p|].
    - destruct (heap w1 !! q) as [pr0|] eqn:Hq; simpl; [|done].
      intros E. inversion E; subst.
      assert (Ht : tidy_promize (clr pr0)).
      { apply Hclr; [by apply (Hw1 q pr0 Hq)|].
        rewrite <- Hs. unfold state_of, get_promize.
        by rewrite (list_lookup_total_correct _ _ _ Hq). }
      split; [by apply tidy_promize_value|done].
    - intros Hp.
      destruct (Hw1 p pr Hp) as [Hv Ht]. split; [exact Hv|].
      intros Hb. apply Ht. intros [Hb'|Hb']; [by apply Hb|congruence]. }
  destruct (state_of w q) eqn:Hst.
  - unfold exec. rewrite (executeCallbacks_pending w q Hst). cbn [snd].
    intros p pr Hp. destruct (Hw p pr Hp) as [Hv Ht]. split; [exact Hv|].
    intros Hb. destruct (decide (p = q)) as [->|Hne].
    + unfold state_of, get_promize in Hst.
      rewrite (list_lookup_total_correct _ _ _ Hp) in Hst.
      unfold tidy_promize. unfold tidy_value in Hv. by rewrite Hst in *.
    + apply Ht. intros [Hb'|Hb']; [by apply Hb|by apply Hne].
  - rewrite (executeCallbacks_rejected_any w q Hst). cbv zeta.
    apply Hclear.
    + by apply tidy_but_fire.
    + intros pr Hv Hs. unfold tidy_promize, tidy_value in *. simpl.
      rewrite Hs in *. done.
    + by rewrite (ext_state _ _ (frames_fire _ _ w)).
  - rewrite (executeCallbacks_fulfilled_any w q Hst). cbv zeta.
    apply Hclear.
    + by apply tidy_but_fire.
    + intros pr Hv Hs. unfold tidy_promize, tidy_value in *. simpl.
      rewrite Hs in *. done.
    + by rewrite (ext_state _ _ (frames_fire _ _ w)).
Qed.

Lemma tidy_value_subscribe f r next pr :
  tidy_value pr -> tidy_value (subscribe f r next pr).
Proof. by destruct pr as [[] v tc cc]. Qed.

Lemma keeps_tidy_then q f r : keeps_tidy (then_ q f r).
Proof.
  intros busy w Hw. fold (exec (then_ q f r) w). unfold exec. rewrite then_exact.
  cbn [snd]. apply executeCallbacks_tidy.
  set (w1 := set_heap (heap w ++ [new_promize]) w).
  assert (Hw1 : tidy_but busy w1) by apply (keeps_tidy_alloc busy w Hw).
  change (set_heap (alter _ q (heap w ++ [new_promize])) w)
    with (set_heap (alter (subscribe f r (length (heap w))) q (heap w1)) w1).
  apply tidy_but_alter.
  - by apply (tidy_but_weaken busy); [tauto|].
  - intros pr Hq. destruct (Hw1 q pr Hq) as [Hv _].
    split; [by apply tidy_value_subscribe|]. intros Hb. exfalso. apply Hb. by right.
Qed.

Lemma keeps_tidy_catch q cb : keeps_tidy (catch q cb).
Proof. unfold catch. apply keeps_tidy_then. Qed.

Lemma keeps_tidy_finally q cb : keeps_tidy (finally q cb).
Proof. unfold finally. apply keeps_tidy_then. Qed.

Lemma keeps_tidy_invoke_then v f r : keeps_tidy (invoke_then v f r).
Proof. destruct v; simpl; try apply keeps_tidy_throw. apply keeps_tidy_then. Qed.

Lemma keeps_tidy_all_loop e outer len values : forall i,
  keeps_tidy (all_loop e outer len i values).
Proof.
  induction values as [|v values IH]; intros i; simpl; [apply keeps_tidy_ret|].
  apply keeps_tidy_bind; [|intros; apply IH].
  destruct (negb _).
  - apply keeps_tidy_bind; [apply keeps_tidy_resolve_when|intros ?].
    apply keeps_tidy_bind; [apply keeps_tidy_alter_locals|intros ?].
    apply keeps_tidy_alter_locals.
  - apply keeps_tidy_bind; [apply keeps_tidy_invoke_then|]. intros d.
    apply keeps_tidy_bind; [apply keeps_tidy_catch|]. intros. apply keeps_tidy_ret.
Qed.

Lemma keeps_tidy_allSettled_loop e outer len values : forall i,
  keeps_tidy (allSettled_loop e outer len i values).
Proof.
  induction values as [|v values IH]; intros i; simpl; [apply keeps_tidy_ret|].
  apply keeps_tidy_bind; [|intros; apply IH].
  destruct (negb _).
  - apply keeps_tidy_bind; [apply keeps_tidy_resolve_when|intros ?].
    apply keeps_tidy_bind; [apply keeps_tidy_alter_locals|intros ?].
    apply keeps_tidy_alter_locals.
  - apply keeps_tidy_bind; [apply keeps_tidy_invoke_then|]. intros d.
    apply keeps_tidy_bind; [apply keeps_tidy_catch|]. intros c.
    apply keeps_tidy_bind; [apply keeps_tidy_finally|]. intros. apply keeps_tidy_ret.
Qed.

Lemma keeps_tidy_race_step outer v : keeps_tidy (race_step outer v).
Proof.
  unfold race_step.
  apply keeps_tidy_bind.
  { destruct (negb _); [apply keeps_tidy_queue|apply keeps_tidy_ret]. }
  intros _. apply keeps_tidy_bind; [apply keeps_tidy_invoke_then|]. intros d.
  apply keeps_tidy_bind; [apply keeps_tidy_catch|]. intros. apply keeps_tidy_ret.
Qed.

Lemma keeps_tidy_run_job j : keeps_tidy (run_job j).
Proof.
  intros busy w Hw. fold (exec (run_job j) w).
  destruct (decide (state_of w (job_target j) = PENDING)) as [Hst|Hst];
    [|by rewrite run_job_settled].
  destruct (instanceof_Promize (job_payload j)) eqn:Hpl.
  - assert (E : exists inner,
      exec (run_job j) w =
      exec (then_ inner (VFun (OnFulfilledBind (job_target j)))
                        (VFun (OnRejectedBind (job_target j)))) w).
    { destruct j as [p v|p v]; simpl in *; destruct v; try discriminate Hpl;
        exists p0; unfold exec, bind, gets; rewrite Hst;
        by destruct (then_ _ _ _ w) as [[]]. }
    destruct E as [inner ->]. by apply keeps_tidy_then.
  - rewrite run_job_plain by done. apply executeCallbacks_tidy.
    apply tidy_but_alter.
    + by apply (tidy_but_weaken busy); [tauto|].
    + intros pr Hq. split; [by destruct j|]. intros Hb. exfalso. apply Hb. by right.
Qed.

Lemma tidy_tick w : tidy w -> tidy (tick w).
Proof.
  rewrite !tidy_tidy_but. intros Hw. unfold tick.
  destruct (microtasks w) as [|j q]; [done|].
  by apply keeps_tidy_run_job.
Qed.

Lemma tidy_perform a w : tidy w -> tidy (perform a w).
Proof.
  destruct a; [apply tidy_tick|..]; rewrite !tidy_tidy_but; intros Hw;
    simpl; unfold exec.
  - apply keeps_tidy_constructor; [|done]. intros this.
    apply keeps_tidy_forEach. intros []; first [apply keeps_tidy_queue|apply keeps_tidy_throw].
  - by apply keeps_tidy_then.
  - by apply keeps_tidy_catch.
  - by apply keeps_tidy_finally.
  - apply keeps_tidy_constructor; [|done]. intros this. apply keeps_tidy_queue.
  - apply keeps_tidy_constructor; [|done]. intros this. apply keeps_tidy_queue.
  - apply keeps_tidy_bind; [apply keeps_tidy_alloc_locals| |done]. intros e.
    apply keeps_tidy_constructor. intros outer. apply keeps_tidy_all_loop.
  - apply keeps_tidy_bind; [apply keeps_tidy_alloc_locals| |done]. intros e.
    apply keeps_tidy_constructor. intros outer. apply keeps_tidy_allSettled_loop.
  - apply keeps_tidy_constructor; [|done]. intros outer.
    apply keeps_tidy_forEach. intros v. apply keeps_tidy_race_step.
  - by apply keeps_tidy_call_func.
Qed.

Lemma tidy_perform_all acts : forall w, tidy w -> tidy (perform_all acts w).
Proof.
  induction acts as [|a acts IH]; intros w Hw; simpl; [done|].
  apply IH. by apply tidy_perform.
Qed.

Lemma tidy_lookup w p : tidy w -> tidy_promize (get_promize w p).
Proof.
  intros Hw. unfold get_promize.
  destruct (decide (p < length (heap w))%nat) as [Hlt|Hge].
  - by apply Forall_lookup_total_1.
  - rewrite lookup_total_fresh by lia. reflexivity.
Qed.

(** X8.  In every world reached from the empty one by any sequence of
    queue turns and client calls (constructor, [then], [catch],
    [finally], the static factories and combinators, calls of function
    values), every instance satisfies: while PENDING its value is
    [undefined]; once settled its value is never a Promize; once
    FULFILLED no then-callback is left registered, once REJECTED no
    catch-callback is.  Every single operation keeps that invariant. *)
Theorem reachable_worlds_are_tidy (acts : list action) (p : pid) :
  let w := perform_all acts empty_world in
  (state_of w p = PENDING -> value_of w p = VUndefined) /\
  (state_of w p <> PENDING -> plain (value_of w p)) /\
  (state_of w p = FULFILLED -> thenCallbacks (get_promize w p) = []) /\
  (state_of w p = REJECTED -> catchCallbacks (get_promize w p) = []) /\
  (forall a w0, tidy w0 -> tidy (perform a w0)).
Proof.
  intros w.
  assert (Hw : tidy w) by (apply tidy_perform_all; constructor).
  pose proof (tidy_lookup w p Hw) as Hp.
  unfold tidy_promize in Hp. unfold state_of, value_of.
  split; [|split; [|split; [|split]]].
  - intros Hs. by rewrite Hs in Hp.
  - intros Hs. destruct (p_state (get_promize w p)); [done|apply Hp|apply Hp].
  - intros Hs. rewrite Hs in Hp. apply Hp.
  - intros Hs. rewrite Hs in Hp. apply Hp.
  - apply tidy_perform.
Qed.

(** ** C10: [Promize.race] on a sequence with a non-Promize element *)

(** What the round of [race] on an instance schedules (lines 250-251),
    by the state of the instance: nothing while it is pending; the
    rejection of the instance that [then] returns when it is rejected;
    the fulfilment of [outer] when it is fulfilled. *)
Definition race_round_jobs (w : world) (outer q : pid) : list job :=
  match state_of w q with
  | PENDING => []
  | REJECTED => [OnRejectedJob (length (heap w)) (value_of w q)]
  | FULFILLED => [OnFulfilledJob outer (value_of w q);
                  OnFulfilledJob (length (heap w)) VUndefined]
  end.

Lemma race_step_jobs outer q w :
  tidy w ->
  microtasks (exec (race_step outer (VPromize q)) w) =
    microtasks w ++ race_round_jobs w outer q.
Proof.
  intros Hw. pose proof (tidy_lookup w q Hw) as Hq.
  unfold exec, race_step. simpl. unfold bind at 1. unfold ret at 1.
  unfold bind at 1. rewrite then_exact.
  set (L := length (heap w)).
  set (w0 := set_heap (alter (subscribe (VFun (OnFulfilledBind outer)) VUndefined L) q
                         (heap w ++ [new_promize])) w).
  set (w1 := exec (executeCallbacks q) w0).
  assert (Hfr : extends w0 w1) by apply frames_executeCallbacks.
  assert (H0L : state_of w0 L = PENDING).
  { unfold w0, state_of, get_promize. cbn [heap set_heap].
    rewrite (proj1 (lookup_total_alter_keeps _ _ _ _ (subscribe_keeps _ _ _))).
    rewrite lookup_total_alloc. by apply state_of_fresh. }
  assert (H1L : state_of w1 L = PENDING) by (by rewrite (ext_state _ _ Hfr)).
  unfold catch, bind. rewrite then_pending by exact H1L.
  unfold ret. cbn [fst snd microtasks set_heap].
  assert (H0q : state_of w0 q = state_of w q).
  { unfold w0, state_of, get_promize. cbn [heap set_heap].
    rewrite (proj1 (lookup_total_alter_keeps _ _ _ _ (subscribe_keeps _ _ _))).
    by rewrite lookup_total_alloc. }
  unfold race_round_jobs. fold L.
  destruct (state_of w q) eqn:Hst.
  - unfold w1, exec. rewrite executeCallbacks_pending by (by rewrite H0q).
    cbn [snd]. unfold w0. cbn [microtasks set_heap]. by rewrite app_nil_r.
  - pose proof (settled_valid w q ltac:(by rewrite Hst)) as Hlt.
    pose proof (get_promize_subscribed w q (VFun (OnFulfilledBind outer)) VUndefined Hlt)
      as Hrec. fold L in Hrec. fold w0 in Hrec.
    unfold tidy_promize in Hq. unfold state_of in Hst. rewrite Hst in Hq.
    destruct Hq as [Hpl Hcc].
    unfold w1. rewrite executeCallbacks_rejected.
    + cbn [microtasks set_heap].
      unfold value_of. rewrite Hrec. cbn [subscribe p_value catchCallbacks].
      rewrite Hcc. reflexivity.
    + unfold state_of. by rewrite Hrec.
    + rewrite Hrec. cbn [subscribe catchCallbacks]. by rewrite Hcc.
  - pose proof (settled_valid w q ltac:(by rewrite Hst)) as Hlt.
    pose proof (get_promize_subscribed w q (VFun (OnFulfilledBind outer)) VUndefined Hlt)
      as Hrec. fold L in Hrec. fold w0 in Hrec.
    unfold tidy_promize in Hq. unfold state_of in Hst. rewrite Hst in Hq.
    destruct Hq as [Hpl Hcc].
    unfold w1. rewrite executeCallbacks_fulfilled.
    + cbn [microtasks set_heap].
      unfold value_of. rewrite Hrec. cbn [subscribe p_value thenCallbacks].
      rewrite Hcc. cbn [app]. unfold fire, exec. simpl.
      by rewrite <- app_assoc.
    + unfold state_of. by rewrite Hrec.
    + rewrite Hrec. cbn [subscribe thenCallbacks]. by rewrite Hcc.
Qed.

Lemma tidy_race_step outer v w : tidy w -> tidy (exec (race_step outer v) w).
Proof. rewrite !tidy_tidy_but. apply keeps_tidy_race_step. Qed.

(** The rounds on instances none of which is fulfilled schedule nothing
    for [outer]. *)
Lemma race_steps_jobs outer pre : forall w,
  tidy w ->
  (outer < length (heap w))%nat ->
  Forall (fun q => state_of w q <> FULFILLED) pre ->
  exists w' js,
    forEach (map VPromize pre) (race_step outer) w = (Normal tt, w') /\
    extends w w' /\ tidy w' /\
    microtasks w' = microtasks w ++ js /\
    Forall (fun j => job_target j <> outer) js /\
    (length js <= length pre)%nat.
Proof.
  induction pre as [|q pre IH]; intros w Hw Ho Hpre.
  - exists w, []. simpl. rewrite app_nil_r.
    split; [done|]. split; [apply extends_refl|]. by repeat split.
  - inversion Hpre as [|? ? Hq Hrest]; subst.
    destruct (race_step_promize_normal outer q w) as [w1 E1].
    pose proof (frames_race_step outer (VPromize q) w) as F1.
    pose proof (race_step_jobs outer q w Hw) as Q1.
    pose proof (tidy_race_step outer (VPromize q) w Hw) as T1.
    unfold exec in F1, Q1, T1. rewrite E1 in F1, Q1, T1. cbn [snd] in F1, Q1, T1.
    destruct (IH w1) as (w2 & js & E2 & F2 & T2 & Q2 & N2 & L2).
    { exact T1. }
    { pose proof (ext_heap _ _ F1). lia. }
    { eapply Forall_impl; [exact Hrest|]. simpl. intros p Hp.
      by rewrite (ext_state _ _ F1). }
    exists w2, (race_round_jobs w outer q ++ js).
    split; [simpl; unfold bind; by rewrite E1|].
    split; [by apply (extends_trans w w1 w2)|].
    split; [exact T2|].
    split; [by rewrite Q2, Q1, app_assoc|].
    split.
    + apply Forall_app. split; [|exact N2].
      unfold race_round_jobs. destruct (state_of w q); [constructor| |done].
      repeat constructor. simpl. lia.
    + rewrite length_app. simpl.
      assert (length (race_round_jobs w outer q) <= 1)%nat; [|lia].
      unfold race_round_jobs. destruct (state_of w q); simpl; [lia|lia|done].
Qed.

(** [race] up to the first non-Promize element [v]: the rounds on the
    instances before it, then the fulfilment with [v] and, behind it,
    the rejection with the error that [v.then] raised (line 251) and the
    constructor caught (line 52). *)
Lemma race_shape w pre v post :
  plain v ->
  exists w1,
    forEach (map VPromize pre) (race_step (length (heap w)))
      (set_heap (heap w ++ [new_promize]) w) = (Normal tt, w1) /\
    race (map VPromize pre ++ v :: post) w =
      (Normal (length (heap w)),
       set_microtasks
         (microtasks w1 ++ [OnFulfilledJob (length (heap w)) v;
                            OnRejectedJob (length (heap w)) (then_TypeError v)]) w1).
Proof.
  intros Hv.
  destruct (race_steps_normal (length (heap w)) pre
              (set_heap (heap w ++ [new_promize]) w)) as [w1 E1].
  exists w1. split; [exact E1|].
  unfold race, constructor. unfold bind at 1. unfold alloc_promize at 1.
  unfold bind at 1. unfold try_catch.
  rewrite (forEach_throw_cut _ v post _ _ w1 _ _ E1
             (race_step_plain (length (heap w)) v w1 Hv)).
  unfold onRejected, queueMicrotask, modify, ret, set_microtasks.
  cbn [fst snd heap envs microtasks console]. by rewrite <- app_assoc.
Qed.

Lemma tidy_alloc w : tidy w -> tidy (set_heap (heap w ++ [new_promize]) w).
Proof. rewrite !tidy_tidy_but. apply keeps_tidy_alloc. Qed.

(** C10, amended.  [race] never raises, for any input.  When the input
    has a non-Promize element, let [v] be the first: the elements behind
    it are not visited; whatever the instances before it, the call
    queues the fulfilment of the new instance with [v] and directly
    behind it its rejection with the [TypeError] that [v.then] raised
    and the constructor caught; the new instance is PENDING when the
    call returns.  In a world that is tidy and whose queue is well
    formed (every reachable world is) the new instance ends FULFILLED
    with [v] unless an instance before [v] is already FULFILLED at the
    call: instances that are pending or already REJECTED lose; if some
    are already FULFILLED, the first of them wins with its value. *)
Theorem race_never_raises (w : world) (pre : list pid) (v : value)
    (post : list value) (n : nat) :
  plain v ->
  let values := map VPromize pre ++ v :: post in
  let outer := length (heap w) in
  let w' := exec (race values) w in
  (forall vs w0, eval (race vs) w0 = Normal (length (heap w0))) /\
  race values w = race (map VPromize pre ++ [v]) w /\
  (exists js,
     microtasks w' =
       microtasks w ++ js ++
       [OnFulfilledJob outer v; OnRejectedJob outer (then_TypeError v)]) /\
  state_of w' outer = PENDING /\
  (tidy w -> queue_wf w ->
   Forall (fun q => state_of w q <> FULFILLED) pre ->
   (length (microtasks w) + length pre < n)%nat ->
     state_of (run n w') outer = FULFILLED /\
     value_of (run n w') outer = v) /\
  (forall pre1 q pre2,
   tidy w -> queue_wf w ->
   pre = pre1 ++ q :: pre2 ->
   Forall (fun q => state_of w q <> FULFILLED) pre1 ->
   state_of w q = FULFILLED ->
   (length (microtasks w) + length pre1 < n)%nat ->
     state_of (run n w') outer = FULFILLED /\
     value_of (run n w') outer = value_of w q).
Proof.
  intros Hv values outer w'.
  set (w0 := set_heap (heap w ++ [new_promize]) w).
  assert (Ho0 : (outer < length (heap w0))%nat).
  { unfold w0, outer. cbn [heap set_heap]. rewrite length_app. simpl. lia. }
  destruct (race_shape w pre v post Hv) as (w1 & E1 & Er).
  fold w0 in E1. fold outer in E1, Er.
  assert (F1 : extends w0 w1).
  { pose proof (frames_forEach (map VPromize pre) (race_step outer)
                  (frames_race_step outer) w0) as F.
    unfold exec in F. by rewrite E1 in F. }
  assert (Hw' : w' = set_microtasks
            (microtasks w1 ++ [OnFulfilledJob outer v;
                               OnRejectedJob outer (then_TypeError v)]) w1).
  { unfold w', exec, values. by rewrite Er. }
  assert (Hs' : state_of w' outer = PENDING).
  { rewrite Hw'. change (state_of (set_microtasks _ w1) outer) with (state_of w1 outer).
    rewrite (ext_state _ _ F1). unfold w0. rewrite state_of_alloc.
    by apply state_of_fresh. }
  assert (Hl' : (outer < length (heap w'))%nat).
  { rewrite Hw'. cbn [heap set_microtasks]. pose proof (ext_heap _ _ F1). lia. }
  split; [|split; [|split; [|split; [|split]]]].
  - intros vs w2. unfold eval, race.
    by destruct (constructor_normal (fun outer => forEach vs (race_step outer)) w2)
      as [w3 ->].
  - by apply race_cut.
  - destruct (ext_queue _ _ F1) as [js Hjs]. exists js.
    rewrite Hw'. cbn [microtasks set_microtasks]. rewrite Hjs.
    unfold w0. cbn [microtasks set_heap]. by rewrite <- app_assoc.
  - exact Hs'.
  - intros Hw Hwf Hpre Hn.
    destruct (race_steps_jobs outer pre w0) as (w2 & js & E2 & _ & _ & Q2 & N2 & L2).
    { by apply tidy_alloc. }
    { exact Ho0. }
    { eapply Forall_impl; [exact Hpre|]. simpl. intros p Hp.
      unfold w0. by rewrite state_of_alloc. }
    rewrite E1 in E2. inversion E2; subst w2.
    apply (first_job_wins w' (microtasks w ++ js) (OnFulfilledJob outer v)
             [OnRejectedJob outer (then_TypeError v)] n); try done.
    + rewrite Hw'. cbn [microtasks set_microtasks]. rewrite Q2.
      unfold w0. cbn [microtasks set_heap]. by rewrite <- app_assoc.
    + apply Forall_app. split; [|exact N2]. by apply queue_wf_fresh.
    + rewrite length_app. lia.
  - intros pre1 q pre2 Hw Hwf Hsplit Hpre1 Hq Hn.
    destruct (race_steps_jobs outer pre1 w0) as (wa & js & Ea & Fa & Ta & Qa & Na & La).
    { by apply tidy_alloc. }
    { exact Ho0. }
    { eapply Forall_impl; [exact Hpre1|]. simpl. intros p Hp.
      unfold w0. by rewrite state_of_alloc. }
    assert (Hqa : state_of wa q = FULFILLED /\ value_of wa q = value_of w q).
    { rewrite (ext_state _ _ Fa), (ext_value _ _ Fa). unfold w0.
      rewrite state_of_alloc. unfold value_of. by rewrite get_promize_alloc. }
    destruct (race_step_promize_normal outer q wa) as [wb Eb].
    pose proof (race_step_jobs outer q wa Ta) as Qb.
    unfold exec in Qb. rewrite Eb in Qb. cbn [snd] in Qb.
    unfold race_round_jobs in Qb. rewrite (proj1 Hqa), (proj2 Hqa) in Qb.
    destruct (race_steps_normal outer pre2 wb) as [wc Ec].
    pose proof (frames_forEach (map VPromize pre2) (race_step outer)
                  (frames_race_step outer) wb) as Fc.
    unfold exec in Fc. rewrite Ec in Fc. cbn [snd] in Fc.
    destruct (ext_queue _ _ Fc) as [jc Qc].
    assert (E1' : forEach (map VPromize pre) (race_step outer) w0 = (Normal tt, wc)).
    { rewrite Hsplit, map_app, forEach_app. unfold bind. rewrite Ea.
      simpl. unfold bind. by rewrite Eb. }
    rewrite E1 in E1'. inversion E1'; subst w1.
    pose proof (tidy_lookup w q Hw) as Hqt.
    unfold tidy_promize in Hqt. unfold state_of in Hq. rewrite Hq in Hqt.
    apply (first_job_wins w' (microtasks w ++ js) (OnFulfilledJob outer (value_of w q))
             (OnFulfilledJob (length (heap wa)) VUndefined :: jc ++
              [OnFulfilledJob outer v; OnRejectedJob outer (then_TypeError v)]) n);
      try done.
    + rewrite Hw'. cbn [microtasks set_microtasks]. rewrite Qc, Qb, Qa.
      unfold w0. cbn [microtasks set_heap].
      repeat (rewrite <- !app_assoc; cbn [app]). reflexivity.
    + apply Forall_app. split; [|exact Na]. by apply queue_wf_fresh.
    + apply Hqt.
    + rewrite length_app. lia.
Qed.

(** ** One link of a chain: what the handlers decide *)

(** [typeof h === 'function'] (lines 65 and 87). *)
Definition is_function (h : value) : bool :=
  match h with VFun _ => true | _ => false end.

(** The record of a fresh instance after [then(f, r)] returned [d]. *)
Definition then_cell (f r : value) (d : pid) : promize :=
  mkPromize PENDING VUndefined [ThenCallback f d] [CatchCallback r d].

(** The closure of [then] that a job runs: the first for a fulfilment,
    the second for a rejection. *)
Definition link_callback (j : job) (f r : value) (d : pid) : callback :=
  match j with
  | OnFulfilledJob _ _ => ThenCallback f d
  | OnRejectedJob _ _ => CatchCallback r d
  end.

(** The function value [f], called with [args], returns [x] (raises [e])
    and schedules nothing. *)
Definition returns (f : func) (args : list value) (x : value) : Prop :=
  forall w, exists w',
    call_func f args w = (Normal x, w') /\ microtasks w' = microtasks w.

Definition raises (f : func) (args : list value) (e : value) : Prop :=
  forall w, exists w',
    call_func f args w = (Throw e, w') /\ microtasks w' = microtasks w.

(** Running the callback [cb] on [v] schedules exactly the job [j]. *)
Definition schedules (cb : callback) (v : value) (j : job) : Prop :=
  forall w, exists w',
    run_callback cb v w = (Normal tt, w') /\ microtasks w' = microtasks w ++ [j].

Lemma schedules_returns f v x d :
  returns f [v] x ->
  schedules (ThenCallback (VFun f) d) v (OnFulfilledJob d x) /\
  schedules (CatchCallback (VFun f) d) v (OnFulfilledJob d x).
Proof.
  intros Hf. split; intros w; destruct (Hf w) as (w' & E & Q); simpl;
    unfold try_catch, bind; rewrite E;
    unfold onFulfilled, queueMicrotask, modify;
    (eexists; split; [reflexivity|]); simpl; by rewrite Q.
Qed.

Lemma schedules_raises f v e d :
  raises f [v] e ->
  schedules (ThenCallback (VFun f) d) v (OnRejectedJob d e) /\
  schedules (CatchCallback (VFun f) d) v (OnRejectedJob d e).
Proof.
  intros Hf. split; intros w; destruct (Hf w) as (w' & E & Q); simpl;
    unfold try_catch, bind; rewrite E;
    unfold onRejected, queueMicrotask, modify;
    (eexists; split; [reflexivity|]); simpl; by rewrite Q.
Qed.

Lemma schedules_passes h v d :
  is_function h = false ->
  schedules (ThenCallback h d) v (OnFulfilledJob d v) /\
  schedules (CatchCallback h d) v (OnRejectedJob d v).
Proof.
  intros Hh. split; intros w; destruct h; try discriminate Hh; simpl;
    unfold onFulfilled, onRejected, queueMicrotask, modify;
    (eexists; split; [reflexivity|]); reflexivity.
Qed.

Lemma returns_console_log args : returns ConsoleLog args VUndefined.
Proof. intros w. eexists. split; reflexivity. Qed.

(** A client function that does not call [then] prints what it logs and
    completes: [x => { ..; return e }] returns the value of [e],
    [x => { ..; throw e }] raises it. *)
Lemma forEach_logs body arg : forall w,
  forallb calm_stmt body = true ->
  exists c, forEach body (run_stmt arg) w = (Normal tt, set_console c w).
Proof.
  induction body as [|s body IH]; intros w Hc; simpl in *.
  - exists (console w). by destruct w.
  - apply andb_prop in Hc as [Hs Hb]. destruct s as [es|]; [|discriminate].
    unfold bind; simpl.
    destruct (IH (set_console (console w ++ [map (eval_expr arg) es]) w) Hb) as [c E].
    rewrite E. by exists c.
Qed.

Lemma guarded_logs once body arg w :
  forallb calm_stmt body = true ->
  exists w', guarded once (forEach body (run_stmt arg)) w = (Normal tt, w') /\
    microtasks w' = microtasks w.
Proof.
  intros Hc. destruct once as [c|]; simpl.
  - unfold bind, gets. destruct (_ =? _); [|by eexists].
    simpl. destruct (forEach_logs body arg
      (set_envs (alter (fun l => mkLocals (completedPromises l + 1) (result l)) c (envs w)) w) Hc)
      as [con E].
    unfold increment_completed, alter_locals, modify. simpl. rewrite E. by eexists.
  - destruct (forEach_logs body arg w Hc) as [con E]. rewrite E. by eexists.
Qed.

Lemma returns_arrow once body e args :
  forallb calm_stmt body = true ->
  returns (Arrow once body (Return e)) args (eval_expr (first_argument args) e).
Proof.
  intros Hc w. simpl. unfold bind.
  destruct (guarded_logs once body (first_argument args) w Hc) as (w' & E & Q).
  rewrite E. by exists w'.
Qed.

Lemma raises_arrow once body e args :
  forallb calm_stmt body = true ->
  raises (Arrow once body (Raise e)) args (eval_expr (first_argument args) e).
Proof.
  intros Hc w. simpl. unfold bind.
  destruct (guarded_logs once body (first_argument args) w Hc) as (w' & E & Q).
  rewrite E. by exists w'.
Qed.

(** The closures of [finally] (lines 115-121) call the callback without
    argument. *)
Lemma returns_finally_then cb v x : returns cb [] x -> returns (FinallyThen cb) [v] v.
Proof.
  intros Hcb w. destruct (Hcb w) as (w' & E & Q). exists w'.
  simpl. unfold bind. rewrite E. by split.
Qed.

Lemma raises_finally_catch cb v x : returns cb [] x -> raises (FinallyCatch cb) [v] v.
Proof.
  intros Hcb w. destruct (Hcb w) as (w' & E & Q). exists w'.
  simpl. unfold bind. rewrite E. by split.
Qed.

Lemma raises_finally cb v e :
  raises cb [] e -> raises (FinallyThen cb) [v] e /\ raises (FinallyCatch cb) [v] e.
Proof.
  intros Hcb. split; intros w; destruct (Hcb w) as (w' & E & Q); exists w';
    simpl; unfold bind; rewrite E; by split.
Qed.

Lemma lookup_total_after (l : list promize) x y : (l ++ [x; y]) !!! S (length l) = y.
Proof.
  replace (l ++ [x; y]) with ((l ++ [x]) ++ y :: []) by (by rewrite <- app_assoc).
  apply lookup_total_middle. rewrite length_app. simpl. lia.
Qed.

(** The world a factory call followed by one [then] leaves, when the
    queue was empty: the factory's job is the only one queued. *)
Definition link_world (w : world) (j : job) (f r : value) : world :=
  mkWorld (heap w ++ [then_cell f r (S (length (heap w))); new_promize])
    (envs w) [j] (console w).

Lemma resolve_then_exact w v f r :
  microtasks w = [] ->
  (let! p := resolve v in then_ p f r) w =
    (Normal (S (length (heap w))),
     link_world w (OnFulfilledJob (length (heap w)) v) f r).
Proof.
  intros Hq. unfold bind at 1. rewrite resolve_spec.
  rewrite then_pending by apply state_of_allocated.
  unfold link_world, set_heap. cbn [heap envs microtasks console].
  rewrite Hq, length_app. cbn [length app]. rewrite Nat.add_1_r.
  f_equal. f_equal. rewrite <- app_assoc. cbn [app].
  by rewrite alter_middle.
Qed.

Lemma reject_then_exact w v f r :
  microtasks w = [] ->
  (let! p := reject v in then_ p f r) w =
    (Normal (S (length (heap w))),
     link_world w (OnRejectedJob (length (heap w)) v) f r).
Proof.
  intros Hq. unfold bind at 1. rewrite reject_spec.
  rewrite then_pending by apply state_of_allocated.
  unfold link_world, set_heap. cbn [heap envs microtasks console].
  rewrite Hq, length_app. cbn [length app]. rewrite Nat.add_1_r.
  f_equal. f_equal. rewrite <- app_assoc. cbn [app].
  by rewrite alter_middle.
Qed.

(** After the factory's job has run, the instance that [then] returned is
    settled by the job that the closure of [then] scheduled, whatever
    else the handler did. *)
Lemma link_outcome w j f r j' n :
  job_target j = length (heap w) ->
  plain (job_payload j) ->
  schedules (link_callback j f r (S (length (heap w)))) (job_payload j) j' ->
  job_target j' = S (length (heap w)) ->
  plain (job_payload j') ->
  (2 <= n)%nat ->
  state_of (run n (link_world w j f r)) (S (length (heap w))) = job_state j' /\
  value_of (run n (link_world w j f r)) (S (length (heap w))) = job_payload j' /\
  state_of (run n (link_world w j f r)) (length (heap w)) = job_state j /\
  value_of (run n (link_world w j f r)) (length (heap w)) = job_payload j.
Proof.
  intros Ht Hpl Hsch Ht' Hpl' Hn.
  set (L := length (heap w)) in *.
  set (W0 := link_world w j f r).
  assert (Hst0 : state_of W0 (job_target j) = PENDING).
  { rewrite Ht. unfold state_of, get_promize, W0, link_world. cbn [heap].
    by rewrite lookup_total_middle. }
  assert (Hlt0 : (job_target j < length (heap W0))%nat).
  { rewrite Ht. unfold W0, link_world. cbn [heap]. rewrite length_app. simpl. lia. }
  assert (Hcbs : job_callbacks j (get_promize W0 (job_target j)) =
                 [link_callback j f r (S L)]).
  { rewrite Ht. unfold get_promize, W0, link_world. cbn [heap].
    rewrite lookup_total_middle by done. by destruct j. }
  pose proof (tick_settling j [] W0 eq_refl Hst0 Hpl Hlt0) as Htick.
  cbv zeta in Htick. rewrite Hcbs in Htick.
  set (ws := settling j [] W0) in *.
  destruct (Hsch ws) as (w1 & E1 & Q1).
  assert (Hf : fire [link_callback j f r (S L)] (job_payload j) ws = w1).
  { unfold fire, exec. simpl forEach. unfold bind. by rewrite E1. }
  rewrite Hf in Htick.
  pose proof (frames_fire [link_callback j f r (S L)] (job_payload j) ws) as [s1 v1 _ h1].
  rewrite Hf in s1, v1, h1.
  assert (Hws : forall p, p <> L ->
            state_of ws p = state_of W0 p /\ value_of ws p = value_of W0 p).
  { intros p Hp. unfold state_of, value_of, ws. rewrite get_promize_settling.
    rewrite decide_False by (rewrite Ht; intros [? _]; congruence). done. }
  assert (HwsL : state_of ws L = job_state j /\ value_of ws L = job_payload j).
  { unfold state_of, value_of, ws. rewrite get_promize_settling.
    by rewrite decide_True by (rewrite Ht; split; [done|by rewrite <- Ht]). }
  assert (Hlen : (S (S L) <= length (heap ws))%nat).
  { unfold ws, settling, W0, link_world. cbn [heap set_heap set_microtasks].
    rewrite length_alter, length_app. simpl. lia. }
  set (clr := match j with OnFulfilledJob _ _ => clear_then | OnRejectedJob _ _ => clear_catch end) in *.
  assert (Hk : keeps_settlement clr) by (subst clr; destruct j; by intros []).
  replace n with (1 + (n - 1))%nat by lia. rewrite run_add.
  change (run 1 W0) with (tick W0). rewrite Htick.
  set (W1 := set_heap _ w1).
  assert (HW1 : forall p, state_of W1 p = state_of ws p /\ value_of W1 p = value_of ws p).
  { intros p. unfold W1, state_of, value_of, get_promize. cbn [heap set_heap].
    destruct (lookup_total_alter_keeps (heap w1) (job_target j) clr p Hk) as [-> ->].
    split; [apply s1|apply v1]. }
  assert (Hq1 : microtasks W1 = [] ++ j' :: []).
  { unfold W1. cbn [microtasks set_heap]. rewrite Q1. reflexivity. }
  assert (Hs1 : state_of W1 (job_target j') = PENDING).
  { rewrite Ht'. rewrite (proj1 (HW1 _)), (proj1 (Hws (S L) ltac:(lia))).
    unfold state_of, get_promize, W0, link_world. cbn [heap].
    unfold L. by rewrite lookup_total_after. }
  assert (Hlt1 : (job_target j' < length (heap W1))%nat).
  { rewrite Ht'. unfold W1. cbn [heap set_heap]. rewrite length_alter. lia. }
  destruct (first_job_wins W1 [] j' [] (n - 1) Hq1 (Forall_nil_2 _) Hs1 Hlt1 Hpl')
    as [Hs Hv]; [simpl; lia|].
  rewrite Ht' in Hs, Hv. split; [exact Hs|]. split; [exact Hv|].
  assert (Hj : state_of W1 L = job_state j /\ value_of W1 L = job_payload j).
  { rewrite (proj1 (HW1 _)), (proj2 (HW1 _)). exact HwsL. }
  destruct (run_stable (n - 1) W1 L) as [Hs2 Hv2].
  { destruct Hj as [-> _]. by destruct j. }
  destruct Hj. split; congruence.
Qed.

(** ** The handlers of [then] *)

(** X9.  [Promize.resolve(v).then(f, r)] with [f] a function, run from a
    world whose queue is empty ([v] not a Promize): [then] never raises;
    if [f(v)] returns [x] (not a Promize) the instance that [then]
    returned ends FULFILLED with [x]; if [f(v)] raises [e] it ends
    REJECTED with [e], the error being trapped (lines 74-78); the handler
    [r] plays no part.  The functions [f] are those that schedule
    nothing: among them every client function that does not call [then],
    which returns or raises whatever value its last statement says. *)
Theorem then_handler_decides (w : world) (v : value) (f : func) (r : value) (n : nat) :
  microtasks w = [] ->
  plain v ->
  (2 <= n)%nat ->
  let script := let! p := resolve v in then_ p (VFun f) r in
  let next := S (length (heap w)) in
  eval script w = Normal next /\
  state_of (exec script w) next = PENDING /\
  (forall x, returns f [v] x -> plain x ->
     state_of (run n (exec script w)) next = FULFILLED /\
     value_of (run n (exec script w)) next = x) /\
  (forall e, raises f [v] e -> plain e ->
     state_of (run n (exec script w)) next = REJECTED /\
     value_of (run n (exec script w)) next = e) /\
  (forall once body e, forallb calm_stmt body = true ->
     returns (Arrow once body (Return e)) [v] (eval_expr v e) /\
     raises (Arrow once body (Raise e)) [v] (eval_expr v e)).
Proof.
  intros Hq Hv Hn script next. subst script next.
  unfold exec, eval. rewrite resolve_then_exact by done. cbn [fst snd].
  split; [done|]. split; [|split; [|split]].
  - unfold state_of, get_promize, link_world. cbn [heap].
    by rewrite lookup_total_after.
  - intros x Hx Hpx.
    destruct (link_outcome w (OnFulfilledJob (length (heap w)) v) (VFun f) r
                (OnFulfilledJob (S (length (heap w))) x) n) as (Hs & Hv' & _); auto.
    apply (schedules_returns f v x _ Hx).
  - intros e He Hpe.
    destruct (link_outcome w (OnFulfilledJob (length (heap w)) v) (VFun f) r
                (OnRejectedJob (S (length (heap w))) e) n) as (Hs & Hv' & _); auto.
    apply (schedules_raises f v e _ He).
  - intros once body e Hc. split.
    + by apply (returns_arrow once body e [v]).
    + by apply (raises_arrow once body e [v]).
Qed.

(** X10.  [Promize.reject(v).then(f, h)] with [h] a function, run from a
    world whose queue is empty ([v] not a Promize): if [h(v)] returns [x]
    (not a Promize) the instance that [then] returned ends FULFILLED with
    [x], the rejection being handled; if [h(v)] raises [e] it ends
    REJECTED with [e]; the handler [f] plays no part.  [catch(h)] is the
    case where [f] is [undefined].  The functions [h] are those that
    schedule nothing, as in X9. *)
Theorem catch_handler_decides (w : world) (v : value) (f : value) (h : func) (n : nat) :
  microtasks w = [] ->
  plain v ->
  (2 <= n)%nat ->
  let script := let! p := reject v in then_ p f (VFun h) in
  let next := S (length (heap w)) in
  eval script w = Normal next /\
  (forall p w0, catch p (VFun h) w0 = then_ p VUndefined (VFun h) w0) /\
  (forall x, returns h [v] x -> plain x ->
     state_of (run n (exec script w)) next = FULFILLED /\
     value_of (run n (exec script w)) next = x) /\
  (forall e, raises h [v] e -> plain e ->
     state_of (run n (exec script w)) next = REJECTED /\
     value_of (run n (exec script w)) next = e) /\
  (forall once body e, forallb calm_stmt body = true ->
     returns (Arrow once body (Return e)) [v] (eval_expr v e) /\
     raises (Arrow once body (Raise e)) [v] (eval_expr v e)).
Proof.
  intros Hq Hv Hn script next. subst script next.
  unfold exec, eval. rewrite reject_then_exact by done. cbn [fst snd].
  split; [done|]. split; [done|]. split; [|split].
  - intros x Hx Hpx.
    destruct (link_outcome w (OnRejectedJob (length (heap w)) v) f (VFun h)
                (OnFulfilledJob (S (length (heap w))) x) n) as (Hs & Hv' & _); auto.
    apply (schedules_returns h v x _ Hx).
  - intros e He Hpe.
    destruct (link_outcome w (OnRejectedJob (length (heap w)) v) f (VFun h)
                (OnRejectedJob (S (length (heap w))) e) n) as (Hs & Hv' & _); auto.
    apply (schedules_raises h v e _ He).
  - intros once body e Hc. split.
    + by apply (returns_arrow once body e [v]).
    + by apply (raises_arrow once body e [v]).
Qed.

(** ** [finally] *)

(** X11.  [finally(cb)] passes the outcome through, run from a world
    whose queue is empty ([v] not a Promize).  The callback is called
    without argument (lines 116 and 119).  When [cb()] returns, its
    result is dropped: after [Promize.resolve(v).finally(cb)] the
    returned instance ends FULFILLED with [v], after
    [Promize.reject(v).finally(cb)] it ends REJECTED with [v].  When
    [cb()] raises [e], the returned instance ends REJECTED with [e] in
    both cases.  [console.log] as callback prints an empty line, once; a
    client function as callback reads [undefined] for its parameter. *)
Theorem finally_passes_outcome (w : world) (v : value) (cb : func) (n : nat) :
  microtasks w = [] ->
  plain v ->
  (2 <= n)%nat ->
  let on_resolved := let! p := resolve v in finally p cb in
  let on_rejected := let! p := reject v in finally p cb in
  let next := S (length (heap w)) in
  eval on_resolved w = Normal next /\ eval on_rejected w = Normal next /\
  (forall x, returns cb [] x ->
     (state_of (run n (exec on_resolved w)) next = FULFILLED /\
      value_of (run n (exec on_resolved w)) next = v) /\
     (state_of (run n (exec on_rejected w)) next = REJECTED /\
      value_of (run n (exec on_rejected w)) next = v)) /\
  (forall e, raises cb [] e -> plain e ->
     (state_of (run n (exec on_resolved w)) next = REJECTED /\
      value_of (run n (exec on_resolved w)) next = e) /\
     (state_of (run n (exec on_rejected w)) next = REJECTED /\
      value_of (run n (exec on_rejected w)) next = e)) /\
  (cb = ConsoleLog ->
     console (run 1 (exec on_resolved w)) = console w ++ [[]] /\
     console (run 1 (exec on_rejected w)) = console w ++ [[]]) /\
  (forall once body e, forallb calm_stmt body = true ->
     returns (Arrow once body (Return e)) [] (eval_expr VUndefined e) /\
     raises (Arrow once body (Raise e)) [] (eval_expr VUndefined e)).
Proof.
  intros Hq Hv Hn on_resolved on_rejected next. subst on_resolved on_rejected next.
  unfold finally, exec, eval.
  rewrite resolve_then_exact, reject_then_exact by done. cbn [fst snd].
  split; [done|]. split; [done|]. split; [|split; [|split]].
  - intros x Hx. split.
    + destruct (link_outcome w (OnFulfilledJob (length (heap w)) v)
                  (VFun (FinallyThen cb)) (VFun (FinallyCatch cb))
                  (OnFulfilledJob (S (length (heap w))) v) n) as (Hs & Hv' & _); auto.
      apply schedules_returns. by apply (returns_finally_then cb v x).
    + destruct (link_outcome w (OnRejectedJob (length (heap w)) v)
                  (VFun (FinallyThen cb)) (VFun (FinallyCatch cb))
                  (OnRejectedJob (S (length (heap w))) v) n) as (Hs & Hv' & _); auto.
      apply schedules_raises. by apply (raises_finally_catch cb v x).
  - intros e He Hpe. split.
    + destruct (link_outcome w (OnFulfilledJob (length (heap w)) v)
                  (VFun (FinallyThen cb)) (VFun (FinallyCatch cb))
                  (OnRejectedJob (S (length (heap w))) e) n) as (Hs & Hv' & _); auto.
      apply schedules_raises. by apply (raises_finally cb v e).
    + destruct (link_outcome w (OnRejectedJob (length (heap w)) v)
                  (VFun (FinallyThen cb)) (VFun (FinallyCatch cb))
                  (OnRejectedJob (S (length (heap w))) e) n) as (Hs & Hv' & _); auto.
      apply schedules_raises. by apply (raises_finally cb v e).
  - intros ->. split.
    + change (run 1 ?W) with (tick W).
      rewrite (tick_exact (OnFulfilledJob (length (heap w)) v) []); try done.
      * unfold get_promize, link_world. cbn [heap job_target].
        rewrite lookup_total_middle by done. reflexivity.
      * unfold state_of, get_promize, link_world. cbn [heap job_target].
        by rewrite lookup_total_middle.
      * unfold link_world. cbn [heap job_target]. rewrite length_app. simpl. lia.
      * unfold get_promize, link_world. cbn [heap job_target job_callbacks].
        by rewrite lookup_total_middle.
    + change (run 1 ?W) with (tick W).
      rewrite (tick_exact (OnRejectedJob (length (heap w)) v) []); try done.
      * unfold get_promize, link_world. cbn [heap job_target].
        rewrite lookup_total_middle by done. reflexivity.
      * unfold state_of, get_promize, link_world. cbn [heap job_target].
        by rewrite lookup_total_middle.
      * unfold link_world. cbn [heap job_target]. rewrite length_app. simpl. lia.
      * unfold get_promize, link_world. cbn [heap job_target job_callbacks].
        by rewrite lookup_total_middle.
  - intros once body e Hc. split.
    + by apply (returns_arrow once body e []).
    + by apply (raises_arrow once body e []).
Qed.

(** ** Chains of links without the matching handler *)

(** [p.then(f1, r1).then(f2, r2)...]: the instance the last link
    returns. *)
Fixpoint then_chain (p : pid) (hs : list (value * value)) : M pid :=
  match hs with
  | [] => ret p
  | (f, r) :: rest => let! q := then_ p f r in then_chain q rest
  end.

(** Records of the instances of a chain, the first of which [then]
    linked to the instance [d]. *)
Fixpoint chain_cells (d : pid) (hs : list (value * value)) : list promize :=
  match hs with
  | [] => []
  | (f, r) :: rest => then_cell f r d :: chain_cells (S d) rest
  end.

(** The handler of a link that a job of the kind of [j] would call. *)
Definition matching_handler (j : job) (h : value * value) : value :=
  match j with
  | OnFulfilledJob _ _ => h.1
  | OnRejectedJob _ _ => h.2
  end.

(** The job [j], aimed at the instance [d]. *)
Lemma length_chain_cells hs : forall d, length (chain_cells d hs) = length hs.
Proof. induction hs as [|[f r] hs IH]; intros d; simpl; auto. Qed.

Lemma then_chain_exact hs : forall H E q C,
  then_chain (length H) hs (mkWorld (H ++ [new_promize]) E q C) =
    (Normal (length H + length hs)%nat,
     mkWorld (H ++ chain_cells (S (length H)) hs ++ [new_promize]) E q C).
Proof.
  induction hs as [|[f r] hs IH]; intros H E q C.
  - simpl. unfold ret. by rewrite Nat.add_0_r.
  - cbn [then_chain]. unfold bind.
    rewrite then_pending by apply state_of_allocated.
    unfold set_heap. cbn [heap envs microtasks console].
    rewrite length_app. cbn [length]. rewrite Nat.add_1_r.
    rewrite <- app_assoc. cbn [app]. rewrite alter_middle.
    replace (H ++ subscribe f r (S (length H)) new_promize :: [new_promize])
      with ((H ++ [then_cell f r (S (length H))]) ++ [new_promize])
      by (by rewrite <- app_assoc).
    replace (S (length H)) with (length (H ++ [then_cell f r (S (length H))])) at 1
      by (rewrite length_app; simpl; lia).
    rewrite IH. rewrite length_app. cbn [length chain_cells].
    rewrite <- app_assoc. cbn [app].
    f_equal; [f_equal; lia|].
    by rewrite Nat.add_1_r.
Qed.

(** The jobs run down the chain: each link without the matching handler
    forwards the settlement to the next instance. *)
Lemma chain_run hs : forall j H E C,
  job_target j = length H ->
  plain (job_payload j) ->
  Forall (fun h => is_function (matching_handler j h) = false) hs ->
  run (length hs)
    (mkWorld (H ++ chain_cells (S (length H)) hs ++ [new_promize]) E [j] C) =
  mkWorld (H ++ map (settled_by j) (chain_cells (S (length H)) hs) ++ [new_promize])
    E [forwarded j (length H + length hs)%nat] C.
Proof.
  induction hs as [|[f r] hs IH]; intros j H E C Ht Hpl Hhs.
  - simpl. rewrite Nat.add_0_r, <- Ht. by destruct j.
  - apply Forall_cons in Hhs as [Hh Hhs].
    cbn [length run chain_cells map app].
    erewrite (tick_exact j []); [|reflexivity| | | |].
    2:{ rewrite Ht. unfold state_of, get_promize. cbn [heap].
        by rewrite lookup_total_middle. }
    2:{ exact Hpl. }
    2:{ rewrite Ht. cbn [heap]. rewrite length_app. simpl. lia. }
    2:{ rewrite Ht. unfold get_promize. cbn [heap].
        rewrite lookup_total_middle by done.
        destruct j; simpl in Hh |- *; [destruct f|destruct r];
          try discriminate Hh; reflexivity. }
    rewrite Ht. unfold get_promize. cbn [heap].
    rewrite lookup_total_middle by done.
    rewrite alter_middle.
    assert (Hf : forall W,
      fire (job_callbacks j (then_cell f r (S (length H)))) (job_payload j) W =
      set_microtasks (microtasks W ++ [forwarded j (S (length H))]) W).
    { intros W. destruct j as [p v|p v]; simpl in Hh |- *;
        destruct (schedules_passes _ v (S (length H)) Hh) as [H1 H2].
      - unfold fire, exec. simpl forEach. unfold bind.
        destruct f; try discriminate Hh; reflexivity.
      - unfold fire, exec. simpl forEach. unfold bind.
        destruct r; try discriminate Hh; reflexivity. }
    rewrite Hf. unfold set_heap, set_microtasks. cbn [heap envs microtasks console app].
    replace (H ++ settled_by j (then_cell f r (S (length H))) ::
               chain_cells (S (S (length H))) hs ++ [new_promize])
      with ((H ++ [settled_by j (then_cell f r (S (length H)))]) ++
               chain_cells (S (length (H ++ [settled_by j (then_cell f r (S (length H)))]))) hs ++
               [new_promize]).
    2:{ rewrite <- app_assoc. cbn [app]. rewrite length_app. cbn [length].
        by rewrite Nat.add_1_r. }
    assert (Ht2 : job_target (forwarded j (S (length H))) =
                  length (H ++ [settled_by j (then_cell f r (S (length H)))])).
    { rewrite length_app. cbn [length]. rewrite Nat.add_1_r. by destruct j. }
    assert (Hpl2 : plain (job_payload (forwarded j (S (length H))))) by (by destruct j).
    assert (Hhs2 : Forall (fun h => is_function
                     (matching_handler (forwarded j (S (length H))) h) = false) hs).
    { eapply Forall_impl; [exact Hhs|]. intros h. by destruct j. }
    rewrite (IH _ _ E C Ht2 Hpl2 Hhs2).
    rewrite length_app. cbn [length]. rewrite Nat.add_1_r.
    rewrite <- app_assoc. cbn [app].
    f_equal.
    + f_equal. f_equal. f_equal. clear. induction (chain_cells _ hs) as [|c cs IHc];
        simpl; [done|]. f_equal; [by destruct j|exact IHc].
    + f_equal. destruct j; simpl; f_equal; lia.
Qed.

Lemma chain_final j hs H E C n :
  job_target j = length H ->
  plain (job_payload j) ->
  Forall (fun h => is_function (matching_handler j h) = false) hs ->
  (length hs < n)%nat ->
  run n (mkWorld (H ++ chain_cells (S (length H)) hs ++ [new_promize]) E [j] C) =
  mkWorld (H ++ map (settled_by j) (chain_cells (S (length H)) hs) ++
             [settled_by j new_promize]) E [] C.
Proof.
  intros Ht Hpl Hhs Hn.
  replace n with (length hs + (1 + (n - length hs - 1)))%nat by lia.
  rewrite run_add, chain_run by done. rewrite run_add.
  change (run 1 ?W) with (tick W).
  set (last := (length H + length hs)%nat).
  assert (Hlen : last = length (H ++ map (settled_by j) (chain_cells (S (length H)) hs))).
  { rewrite length_app, length_map, length_chain_cells. reflexivity. }
  rewrite (app_assoc H).
  erewrite (tick_exact (forwarded j last) []); [|reflexivity| | | |].
  2:{ unfold state_of, get_promize. cbn [heap].
      replace (job_target (forwarded j last)) with last by (by destruct j).
      by rewrite lookup_total_middle. }
  2:{ by destruct j. }
  2:{ replace (job_target (forwarded j last)) with last by (by destruct j).
      cbn [heap]. rewrite length_app, <- Hlen. simpl. lia. }
  2:{ replace (job_target (forwarded j last)) with last by (by destruct j).
      unfold get_promize. cbn [heap]. rewrite lookup_total_middle by done.
      by destruct j. }
  replace (job_target (forwarded j last)) with last by (by destruct j).
  unfold get_promize. cbn [heap]. rewrite lookup_total_middle by done.
  rewrite (alter_middle' _ _ _ _ last Hlen).
  replace (job_callbacks (forwarded j last) new_promize) with (@nil callback)
    by (by destruct j).
  rewrite fire_nil. unfold set_heap, set_microtasks. cbn [heap envs microtasks console].
  rewrite run_quiescent by reflexivity.
  rewrite <- app_assoc. by destruct j.
Qed.

Lemma chain_states j (cells : list promize) H T i :
  (length H <= i < length H + length cells)%nat ->
  p_state ((H ++ map (settled_by j) cells ++ T) !!! i) = job_state j /\
  p_value ((H ++ map (settled_by j) cells ++ T) !!! i) = job_payload j.
Proof.
  intros Hi.
  rewrite lookup_total_app_r by lia.
  rewrite lookup_total_app_l by (rewrite length_map; lia).
  apply (Forall_lookup_total_1
           (fun pr => p_state pr = job_state j /\ p_value pr = job_payload j)).
  - apply Forall_fmap, Forall_true. intros pr. by destruct j.
  - rewrite length_map. lia.
Qed.

Lemma chain_outcome j hs w n i :
  job_target j = length (heap w) ->
  plain (job_payload j) ->
  Forall (fun h => is_function (matching_handler j h) = false) hs ->
  (length hs < n)%nat ->
  (i <= length hs)%nat ->
  let W := run n (mkWorld (heap w ++ chain_cells (S (length (heap w))) hs ++ [new_promize])
                    (envs w) [j] (console w)) in
  state_of W (length (heap w) + i) = job_state j /\
  value_of W (length (heap w) + i) = job_payload j /\
  microtasks W = [] /\ console W = console w.
Proof.
  intros Ht Hpl Hhs Hn Hi W. subst W. rewrite chain_final by done.
  cbn [microtasks console]. unfold state_of, value_of, get_promize. cbn [heap].
  split; [|split; [|done]].
  - destruct (decide (i = length hs)) as [->|Hne].
    + rewrite app_assoc.
      rewrite lookup_total_middle
        by (by rewrite length_app, length_map, length_chain_cells).
      by destruct j.
    + apply chain_states. rewrite length_chain_cells. lia.
  - destruct (decide (i = length hs)) as [->|Hne].
    + rewrite app_assoc.
      rewrite lookup_total_middle
        by (by rewrite length_app, length_map, length_chain_cells).
      by destruct j.
    + apply chain_states. rewrite length_chain_cells. lia.
Qed.

(** X12.  A fulfilment passes unchanged through any number of links whose
    first handler is not a function, whatever their second handler is
    (so through any number of [catch(h)]): after
    [Promize.resolve(v).then(f1, r1)...then(fk, rk)], run from a world
    whose queue is empty ([v] not a Promize), every instance of the chain
    ends FULFILLED with [v]; no handler is called and the queue is empty
    again after [k + 1] turns. *)
Theorem fulfilment_passes_through_chain (w : world) (v : value)
    (hs : list (value * value)) (n i : nat) :
  microtasks w = [] ->
  plain v ->
  Forall (fun h => is_function h.1 = false) hs ->
  (length hs < n)%nat ->
  (i <= length hs)%nat ->
  let script := let! p := resolve v in then_chain p hs in
  let W := run n (exec script w) in
  eval script w = Normal (length (heap w) + length hs)%nat /\
  state_of W (length (heap w) + i) = FULFILLED /\
  value_of W (length (heap w) + i) = v /\
  microtasks W = [] /\ console W = console w.
Proof.
  intros Hq Hv Hhs Hn Hi script W. subst W script.
  unfold exec, eval, bind. rewrite resolve_spec, Hq. cbn [app].
  rewrite then_chain_exact. cbn [fst snd]. split; [done|].
  apply (chain_outcome (OnFulfilledJob (length (heap w)) v) hs w n i); auto.
Qed.

(** X13.  A rejection passes unchanged through any number of links whose
    second handler is not a function, whatever their first handler is
    (so through any number of [then(f)]): after
    [Promize.reject(v).then(f1, r1)...then(fk, rk)], run from a world
    whose queue is empty ([v] not a Promize), every instance of the chain
    ends REJECTED with [v]; no handler is called and the queue is empty
    again after [k + 1] turns. *)
Theorem rejection_passes_through_chain (w : world) (v : value)
    (hs : list (value * value)) (n i : nat) :
  microtasks w = [] ->
  plain v ->
  Forall (fun h => is_function h.2 = false) hs ->
  (length hs < n)%nat ->
  (i <= length hs)%nat ->
  let script := let! p := reject v in then_chain p hs in
  let W := run n (exec script w) in
  eval script w = Normal (length (heap w) + length hs)%nat /\
  state_of W (length (heap w) + i) = REJECTED /\
  value_of W (length (heap w) + i) = v /\
  microtasks W = [] /\ console W = console w.
Proof.
  intros Hq Hv Hhs Hn Hi script W. subst W script.
  unfold exec, eval, bind. rewrite reject_spec, Hq. cbn [app].
  rewrite then_chain_exact. cbn [fst snd]. split; [done|].
  apply (chain_outcome (OnRejectedJob (length (heap w)) v) hs w n i); auto.
Qed.

(** ** [Promize.race] on a script *)

(** Records of the input instances once the loop of [race] has
    subscribed them; [d] is the identity of the next instance to be
    created. *)
Fixpoint race_subscribed (outer d : pid) (items : list item) : list promize :=
  match items with
  | [] => []
  | Plain _ :: rest => race_subscribed outer d rest
  | _ :: rest =>
      sub_cell (OnFulfilledBind outer) d :: race_subscribed outer (S (S d)) rest
  end.

(** Records of the instances the loop creates: for every input instance
    the one returned by [then] and the one returned by [catch]. *)
Fixpoint race_chain (outer d : pid) (items : list item) : list promize :=
  match items with
  | [] => []
  | Plain _ :: rest => race_chain outer d rest
  | _ :: rest =>
      link_cell (VFun (OnRejectedBind outer)) (S d) :: new_promize ::
      race_chain outer (S (S d)) rest
  end.

(** Records of the input instances once their own jobs have run. *)
Fixpoint race_settled (outer d : pid) (items : list item) : list promize :=
  match items with
  | [] => []
  | Plain _ :: rest => race_settled outer d rest
  | Succeeded v :: rest =>
      mkPromize FULFILLED v [] [CatchCallback VUndefined d] ::
      race_settled outer (S (S d)) rest
  | Failed r :: rest =>
      mkPromize REJECTED r [ThenCallback (VFun (OnFulfilledBind outer)) d] [] ::
      race_settled outer (S (S d)) rest
  end.

(** Jobs scheduled while the jobs of the input instances run: a fulfilled
    input calls the success capability of the result at once; a rejected
    one only rejects the instance that [then] returned. *)
Fixpoint race_wave1_out (outer d : pid) (items : list item) : list job :=
  match items with
  | [] => []
  | Plain _ :: rest => race_wave1_out outer d rest
  | Succeeded v :: rest =>
      OnFulfilledJob outer v :: OnFulfilledJob d VUndefined ::
      race_wave1_out outer (S (S d)) rest
  | Failed r :: rest =>
      OnRejectedJob d r :: race_wave1_out outer (S (S d)) rest
  end.

Fixpoint first_plain (items : list item) : option value :=
  match items with
  | [] => None
  | Plain v :: _ => Some v
  | _ :: rest => first_plain rest
  end.

Fixpoint first_succeeded (items : list item) : option value :=
  match items with
  | [] => None
  | Succeeded v :: _ => Some v
  | _ :: rest => first_succeeded rest
  end.

Fixpoint first_failed_reason (items : list item) : option value :=
  match items with
  | [] => None
  | Failed r :: _ => Some r
  | _ :: rest => first_failed_reason rest
  end.

(** The outcome of [race] on a script. *)
Definition race_outcome (items : list item) : option (STATES * value) :=
  match first_plain items, first_succeeded items, first_failed_reason items with
  | Some v, _, _ => Some (FULFILLED, v)
  | None, Some v, _ => Some (FULFILLED, v)
  | None, None, Some r => Some (REJECTED, r)
  | None, None, None => None
  end.

(** The world [Promize.race([...])] leaves behind, as the first thing a
    program does, when no element is a plain value. *)
Definition race_world (items : list item) : world :=
  let k := futures items in
  mkWorld (race_subscribed k (S k) items ++ new_promize :: race_chain k (S k) items)
    [] (jobs_of 0 items) [].

(** The same world once the jobs of the input instances have run. *)
Definition race_world1 (items : list item) : world :=
  let k := futures items in
  mkWorld (race_settled k (S k) items ++ new_promize :: race_chain k (S k) items)
    [] (race_wave1_out k (S k) items) [].

Lemma race_step_fresh outer L M E q con :
  race_step outer (VPromize (length L)) (mkWorld (L ++ new_promize :: M) E q con) =
  (Normal tt,
   mkWorld (L ++ sub_cell (OnFulfilledBind outer) (length (L ++ new_promize :: M)) :: M ++
              [link_cell (VFun (OnRejectedBind outer)) (S (length (L ++ new_promize :: M)));
               new_promize])
     E q con).
Proof.
  exact (then_catch_fresh L M E q con (OnFulfilledBind outer) (VFun (OnRejectedBind outer))).
Qed.

Lemma race_loop_exact outer items : forall L T E q con,
  Forall (fun it => is_future it = true) items ->
  forEach (inputs_of (length L) items) (race_step outer)
    (mkWorld (L ++ replicate (futures items) new_promize ++ T) E q con) =
  (Normal tt,
   mkWorld
     (L ++ race_subscribed outer (length L + futures items + length T) items ++ T ++
        race_chain outer (length L + futures items + length T) items)
     E q con).
Proof.
  induction items as [|[v|v|r] items IH]; intros L T E q con Hf.
  - simpl. by rewrite !app_nil_r.
  - apply Forall_cons in Hf as [Hv _]. discriminate Hv.
  - apply Forall_cons in Hf as [_ Hf].
    cbn [inputs_of forEach futures replicate app]. unfold bind at 1.
    rewrite race_step_fresh.
    set (d := length (L ++ new_promize :: replicate (futures items) new_promize ++ T)).
    assert (Hd : d = (length L + S (futures items) + length T)%nat).
    { subst d. rewrite !length_app. simpl. rewrite length_app, length_replicate. lia. }
    replace (L ++ sub_cell (OnFulfilledBind outer) d ::
               (replicate (futures items) new_promize ++ T) ++
               [link_cell (VFun (OnRejectedBind outer)) (S d); new_promize])
      with ((L ++ [sub_cell (OnFulfilledBind outer) d]) ++
               replicate (futures items) new_promize ++
               (T ++ [link_cell (VFun (OnRejectedBind outer)) (S d); new_promize]))
      by (rewrite <- !app_assoc; reflexivity).
    replace (S (length L)) with (length (L ++ [sub_cell (OnFulfilledBind outer) d]))
      by (rewrite length_app; simpl; lia).
    rewrite IH by done.
    rewrite !length_app. simpl length.
    replace (length L + 1 + futures items + (length T + 2))%nat with (S (S d)) by lia.
    cbn [race_subscribed race_chain]. rewrite <- Hd. rewrite <- !app_assoc. simpl.
    reflexivity.
  - apply Forall_cons in Hf as [_ Hf].
    cbn [inputs_of forEach futures replicate app]. unfold bind at 1.
    rewrite race_step_fresh.
    set (d := length (L ++ new_promize :: replicate (futures items) new_promize ++ T)).
    assert (Hd : d = (length L + S (futures items) + length T)%nat).
    { subst d. rewrite !length_app. simpl. rewrite length_app, length_replicate. lia. }
    replace (L ++ sub_cell (OnFulfilledBind outer) d ::
               (replicate (futures items) new_promize ++ T) ++
               [link_cell (VFun (OnRejectedBind outer)) (S d); new_promize])
      with ((L ++ [sub_cell (OnFulfilledBind outer) d]) ++
               replicate (futures items) new_promize ++
               (T ++ [link_cell (VFun (OnRejectedBind outer)) (S d); new_promize]))
      by (rewrite <- !app_assoc; reflexivity).
    replace (S (length L)) with (length (L ++ [sub_cell (OnFulfilledBind outer) d]))
      by (rewrite length_app; simpl; lia).
    rewrite IH by done.
    rewrite !length_app. simpl length.
    replace (length L + 1 + futures items + (length T + 2))%nat with (S (S d)) by lia.
    cbn [race_subscribed race_chain]. rewrite <- Hd. rewrite <- !app_assoc. simpl.
    reflexivity.
Qed.

Lemma race_of_exact items :
  Forall (fun it => is_future it = true) items ->
  race_of items empty_world = (Normal (futures items), race_world items).
Proof.
  intros Hf. unfold race_of. unfold bind at 1. rewrite make_inputs_spec.
  cbn [empty_world heap envs microtasks console length app].
  unfold race, constructor. unfold bind at 1. unfold alloc_promize at 1.
  unfold set_heap. cbn [heap envs microtasks console].
  rewrite length_replicate.
  unfold bind at 1. unfold try_catch.
  pose proof (race_loop_exact (futures items) items [] [new_promize] []
                (jobs_of 0 items) [] Hf) as Hloop.
  cbn [length app] in Hloop.
  rewrite Hloop. unfold ret, race_world.
  cbn [length app]. rewrite Nat.add_1_r. reflexivity.
Qed.

Lemma length_race_settled outer items : forall d,
  length (race_settled outer d items) = futures items.
Proof. induction items as [|[v|v|r] items IH]; intros; simpl; auto. Qed.

Lemma race_wave1_exact outer items : forall d L T Q E con,
  Forall item_plain items ->
  run (futures items)
    (mkWorld (L ++ race_subscribed outer d items ++ T) E
       (jobs_of (length L) items ++ Q) con) =
  mkWorld (L ++ race_settled outer d items ++ T) E
    (Q ++ race_wave1_out outer d items) con.
Proof.
  induction items as [|[v|v|r] items IH]; intros d L T Q E con Hpl.
  - simpl. by rewrite app_nil_r.
  - apply Forall_cons in Hpl as [_ Hpl]. simpl. by apply IH.
  - apply Forall_cons in Hpl as [Hv Hpl]. simpl in Hv.
    cbn [futures race_subscribed jobs_of run].
    rewrite <- !app_comm_cons.
    erewrite tick_exact; [|reflexivity| | | |calm_tac].
    2:{ unfold state_of, get_promize; simpl. by rewrite lookup_total_middle. }
    2:{ exact Hv. }
    2:{ simpl. rewrite length_app. simpl. lia. }
    cbn [job_target job_payload job_callbacks].
    unfold get_promize. cbn [heap].
    rewrite lookup_total_middle by reflexivity.
    unfold set_microtasks. cbn [heap envs microtasks console thenCallbacks sub_cell].
    rewrite fire_simple by (repeat constructor).
    unfold set_heap, set_microtasks. cbn [heap envs microtasks console callbacks_jobs callback_jobs app].
    rewrite alter_middle. cbn [settled_by catchCallbacks sub_cell].
    replace (L ++ mkPromize FULFILLED v [] [CatchCallback VUndefined d] ::
               race_subscribed outer (S (S d)) items ++ T)
      with ((L ++ [mkPromize FULFILLED v [] [CatchCallback VUndefined d]]) ++
               race_subscribed outer (S (S d)) items ++ T)
      by (by rewrite <- app_assoc).
    replace (S (length L))
      with (length (L ++ [mkPromize FULFILLED v [] [CatchCallback VUndefined d]]))
      by (rewrite length_app; simpl; lia).
    rewrite <- (app_assoc (jobs_of _ items)).
    rewrite IH by done.
    cbn [race_settled race_wave1_out].
    rewrite <- !app_assoc. simpl. reflexivity.
  - apply Forall_cons in Hpl as [Hv Hpl]. simpl in Hv.
    cbn [futures race_subscribed jobs_of run].
    rewrite <- !app_comm_cons.
    erewrite tick_exact; [|reflexivity| | | |calm_tac].
    2:{ unfold state_of, get_promize; simpl. by rewrite lookup_total_middle. }
    2:{ exact Hv. }
    2:{ simpl. rewrite length_app. simpl. lia. }
    cbn [job_target job_payload job_callbacks].
    unfold get_promize. cbn [heap].
    rewrite lookup_total_middle by reflexivity.
    unfold set_microtasks. cbn [heap envs microtasks console catchCallbacks sub_cell].
    rewrite fire_simple by (repeat constructor).
    unfold set_heap, set_microtasks. cbn [heap envs microtasks console callbacks_jobs callback_jobs app].
    rewrite alter_middle. cbn [settled_by thenCallbacks sub_cell].
    replace (L ++ mkPromize REJECTED r [ThenCallback (VFun (OnFulfilledBind outer)) d] [] ::
               race_subscribed outer (S (S d)) items ++ T)
      with ((L ++ [mkPromize REJECTED r [ThenCallback (VFun (OnFulfilledBind outer)) d] []]) ++
               race_subscribed outer (S (S d)) items ++ T)
      by (by rewrite <- app_assoc).
    replace (S (length L))
      with (length (L ++ [mkPromize REJECTED r [ThenCallback (VFun (OnFulfilledBind outer)) d] []]))
      by (rewrite length_app; simpl; lia).
    rewrite <- (app_assoc (jobs_of _ items)).
    rewrite IH by done.
    cbn [race_settled race_wave1_out].
    rewrite <- !app_assoc. simpl. reflexivity.
Qed.

Lemma race_wave1 items :
  Forall item_plain items ->
  run (futures items) (race_world items) = race_world1 items.
Proof.
  intros Hpl. unfold race_world, race_world1.
  pose proof (race_wave1_exact (futures items) items (S (futures items)) []
                (new_promize :: race_chain (futures items) (S (futures items)) items)
                [] [] [] Hpl) as H.
  cbn [app length] in H. rewrite app_nil_r in H. exact H.
Qed.

Lemma first_plain_none items :
  first_plain items = None -> Forall (fun it => is_future it = true) items.
Proof.
  induction items as [|[v|v|r] items IH]; simpl; intros H;
    [constructor|discriminate|by constructor; auto|by constructor; auto].
Qed.

Lemma first_plain_split items v :
  first_plain items = Some v ->
  exists pre post,
    items = pre ++ Plain v :: post /\ Forall (fun it => is_future it = true) pre.
Proof.
  induction items as [|[x|x|x] items IH]; simpl; intros H.
  - discriminate.
  - injection H as ->. exists [], items. split; [done|constructor].
  - destruct (IH H) as (pre & post & -> & Hpre).
    exists (Succeeded x :: pre), post. split; [done|by constructor].
  - destruct (IH H) as (pre & post & -> & Hpre).
    exists (Failed x :: pre), post. split; [done|by constructor].
Qed.

Lemma first_succeeded_split items v :
  Forall (fun it => is_future it = true) items ->
  first_succeeded items = Some v ->
  exists pre post,
    items = pre ++ Succeeded v :: post /\ Forall (fun it => is_failed it = true) pre.
Proof.
  induction items as [|[x|x|x] items IH]; simpl; intros Hf H.
  - discriminate.
  - apply Forall_cons in Hf as [Hx _]. discriminate Hx.
  - injection H as ->. exists [], items. split; [done|constructor].
  - apply Forall_cons in Hf as [_ Hf].
    destruct (IH Hf H) as (pre & post & -> & Hpre).
    exists (Failed x :: pre), post. split; [done|by constructor].
Qed.

Lemma first_succeeded_none items :
  Forall (fun it => is_future it = true) items ->
  first_succeeded items = None ->
  Forall (fun it => is_failed it = true) items.
Proof.
  induction items as [|[x|x|x] items IH]; simpl; intros Hf H.
  - constructor.
  - apply Forall_cons in Hf as [Hx _]. discriminate Hx.
  - discriminate.
  - apply Forall_cons in Hf as [_ Hf]. constructor; auto.
Qed.

Lemma futures_all items :
  Forall (fun it => is_future it = true) items -> futures items = length items.
Proof.
  induction items as [|[x|x|x] items IH]; simpl; intros Hf; auto;
    apply Forall_cons in Hf as [Hx Hf]; try discriminate Hx; auto.
Qed.

Lemma inputs_of_split pre v post : forall p,
  Forall (fun it => is_future it = true) pre ->
  inputs_of p (pre ++ Plain v :: post) =
    map VPromize (seq p (length pre)) ++ v :: inputs_of (p + length pre) post.
Proof.
  induction pre as [|[x|x|x] pre IH]; intros p Hf; simpl.
  - by rewrite Nat.add_0_r.
  - apply Forall_cons in Hf as [Hx _]. discriminate Hx.
  - apply Forall_cons in Hf as [_ Hf]. rewrite IH by done.
    by rewrite Nat.add_succ_r.
  - apply Forall_cons in Hf as [_ Hf]. rewrite IH by done.
    by rewrite Nat.add_succ_r.
Qed.

(** The jobs scheduled for rejected inputs target the instances that
    [then] returned, never the result. *)
Lemma race_wave1_out_failed outer items : forall d,
  Forall (fun it => is_failed it = true) items ->
  (outer < d)%nat ->
  Forall (fun j => job_target j <> outer) (race_wave1_out outer d items) /\
  length (race_wave1_out outer d items) = length items.
Proof.
  induction items as [|[x|x|x] items IH]; intros d Hf Hd; simpl.
  - split; [constructor|done].
  - apply Forall_cons in Hf as [Hx _]. discriminate Hx.
  - apply Forall_cons in Hf as [Hx _]. discriminate Hx.
  - apply Forall_cons in Hf as [_ Hf].
    destruct (IH (S (S d)) Hf) as [H1 H2]; [lia|].
    split; [constructor; [simpl; lia|done]|by rewrite H2].
Qed.

Lemma race_wave1_out_split outer pre v post : forall d,
  Forall (fun it => is_failed it = true) pre ->
  (outer < d)%nat ->
  exists q rest,
    race_wave1_out outer d (pre ++ Succeeded v :: post) =
      q ++ OnFulfilledJob outer v :: rest /\
    Forall (fun j => job_target j <> outer) q /\
    length q = length pre.
Proof.
  induction pre as [|[x|x|x] pre IH]; intros d Hf Hd; simpl.
  - exists [], (OnFulfilledJob d VUndefined :: race_wave1_out outer (S (S d)) post).
    split; [done|]. split; [constructor|done].
  - apply Forall_cons in Hf as [Hx _]. discriminate Hx.
  - apply Forall_cons in Hf as [Hx _]. discriminate Hx.
  - apply Forall_cons in Hf as [_ Hf].
    destruct (IH (S (S d)) Hf) as (q & rest & -> & Hq & Hlen); [lia|].
    exists (OnRejectedJob d x :: q), rest. split; [done|].
    split; [constructor; [simpl; lia|done]|simpl; by rewrite Hlen].
Qed.

Lemma race_world1_outer items :
  state_of (race_world1 items) (futures items) = PENDING /\
  (futures items < length (heap (race_world1 items)))%nat.
Proof.
  unfold race_world1, state_of, get_promize. cbn [heap]. split.
  - rewrite lookup_total_middle; [done|]. by rewrite length_race_settled.
  - rewrite length_app, length_race_settled. simpl. lia.
Qed.

(** After the first turn behind the jobs of the inputs, when the first
    input is rejected: the instance that [then] returned is rejected and
    its catch-callback has called the failure capability of the result. *)
Lemma race_first_failed_tick r post :
  let items := Failed r :: post in
  let k := futures items in
  Forall item_plain items ->
  exists W,
    tick (race_world1 items) = W /\
    microtasks W =
      race_wave1_out k (S (S (S k))) post ++
      [OnRejectedJob k r; OnFulfilledJob (S (S k)) VUndefined] /\
    state_of W k = PENDING /\ (k < length (heap W))%nat.
Proof.
  intros items k Hpl.
  assert (Hr : plain r) by (by apply Forall_cons in Hpl as [Hr _]).
  set (H0 := race_settled k (S k) items ++ [new_promize]).
  assert (HH0 : length H0 = S k).
  { unfold H0. rewrite length_app, length_race_settled. cbn [length]. unfold k. lia. }
  assert (Hheap : heap (race_world1 items) =
    H0 ++ link_cell (VFun (OnRejectedBind k)) (S (S k)) ::
      new_promize :: race_chain k (S (S (S k))) post).
  { unfold race_world1, H0. fold k. cbn [heap items race_chain].
    by rewrite <- app_assoc. }
  assert (Hq : microtasks (race_world1 items) =
    OnRejectedJob (S k) r :: race_wave1_out k (S (S (S k))) post) by reflexivity.
  eexists. split; [reflexivity|].
  rewrite (tick_exact (OnRejectedJob (S k) r) _ _ Hq).
  - cbn [job_target job_payload job_callbacks]. unfold get_promize. rewrite Hheap.
    rewrite lookup_total_middle by done. cbn [catchCallbacks link_cell].
    rewrite fire_simple by (repeat constructor).
    cbn [microtasks set_heap set_microtasks callbacks_jobs callback_jobs app].
    split; [done|].
    unfold state_of, get_promize. cbn [heap set_heap set_microtasks].
    rewrite (alter_middle' _ _ _ _ (S k)) by (by rewrite HH0).
    split.
    + rewrite lookup_total_app_l by lia.
      unfold H0. rewrite lookup_total_middle; [done|].
      by rewrite length_race_settled.
    + rewrite length_app, HH0. lia.
  - unfold state_of, get_promize. cbn [job_target]. rewrite Hheap.
    by rewrite lookup_total_middle.
  - exact Hr.
  - cbn [job_target]. rewrite Hheap, length_app, HH0. cbn [length]. lia.
  - cbn [job_target job_callbacks]. unfold get_promize. rewrite Hheap.
    by rewrite lookup_total_middle.
Qed.

Lemma state_of_make_inputs items q :
  state_of (exec (make_inputs items) empty_world) q = PENDING.
Proof.
  unfold exec. rewrite make_inputs_spec. unfold state_of, get_promize.
  cbn [snd heap empty_world app].
  destruct (decide (q < futures items)%nat) as [Hlt|Hge].
  - rewrite list_lookup_total_alt, lookup_replicate_2 by done. reflexivity.
  - rewrite lookup_total_fresh by (rewrite length_replicate; lia). reflexivity.
Qed.

(** X14.  [Promize.race] on an array literal of plain values,
    [Promize.resolve(v)] and [Promize.reject(r)] calls ([v], [r] not
    Promizes), run as a program.  If the array holds a plain value, the
    result ends FULFILLED with the first one.  Otherwise, if it holds a
    [Promize.resolve(v)], the result ends FULFILLED with the value of
    the first of them, even when [Promize.reject] calls stand before it:
    a rejection reaches the result through the instance that [then]
    returned and its [catch] (line 251), one queue turn later than a
    fulfilment.  Otherwise the result ends REJECTED with the reason of
    the first element; on the empty array it stays PENDING. *)
Theorem race_of_script_outcome (items : list item) (t : nat) :
  Forall item_plain items ->
  (2 * futures items < t)%nat ->
  let w := exec (race_of items) empty_world in
  let outer := futures items in
  eval (race_of items) empty_world = Normal outer /\
  match race_outcome items with
  | Some (st, v) => state_of (run t w) outer = st /\ value_of (run t w) outer = v
  | None => items = [] /\ state_of (run t w) outer = PENDING
  end.
Proof.
  intros Hpl Ht w outer. subst w outer.
  assert (Heval : eval (race_of items) empty_world = Normal (futures items)).
  { unfold eval, race_of, bind. rewrite make_inputs_spec.
    destruct (constructor_normal
                (fun outer => forEach (inputs_of (length (heap empty_world)) items)
                                (race_step outer))
                (mkWorld (heap empty_world ++ replicate (futures items) new_promize)
                   (envs empty_world)
                   (microtasks empty_world ++ jobs_of (length (heap empty_world)) items)
                   (console empty_world))) as [w' E].
    unfold race. rewrite E. cbn [fst heap empty_world app]. by rewrite length_replicate. }
  split; [exact Heval|].
  unfold race_outcome.
  destruct (first_plain items) as [v|] eqn:Hfp.
  - (* a plain value *)
    destruct (first_plain_split items v Hfp) as (pre & post & -> & Hpre).
    assert (Hv : plain v).
    { apply Forall_app in Hpl as [_ Hpl]. by apply Forall_cons in Hpl as [Hv _]. }
    set (items := pre ++ Plain v :: post) in *.
    set (w1 := exec (make_inputs items) empty_world).
    assert (Hw1 : make_inputs items empty_world =
                  (Normal (inputs_of 0 items), w1)).
    { unfold w1, exec. by rewrite make_inputs_spec. }
    assert (Hlen : length (heap w1) = futures items).
    { unfold w1, exec. rewrite make_inputs_spec. cbn [snd heap empty_world app].
      by rewrite length_replicate. }
    assert (Hq1 : microtasks w1 = jobs_of 0 items).
    { unfold w1, exec. by rewrite make_inputs_spec. }
    assert (Hwf : queue_wf w1).
    { unfold queue_wf. rewrite Hq1, Hlen. apply (jobs_of_targets items 0). }
    assert (E : exec (race_of items) empty_world =
                exec (race (map VPromize (seq 0 (length pre)) ++ v :: inputs_of (0 + length pre) post)) w1).
    { unfold exec at 1, race_of, bind. rewrite Hw1.
      unfold items. by rewrite inputs_of_split. }
    rewrite E, <- Hlen.
    apply race_plain_wins; auto.
    + apply Forall_forall. intros q _. apply state_of_make_inputs.
    + rewrite Hq1, length_jobs_of. lia.
  - pose proof (first_plain_none items Hfp) as Hfut.
    assert (E : exec (race_of items) empty_world = race_world items).
    { unfold exec. by rewrite race_of_exact. }
    rewrite E.
    assert (Hsplit : run t (race_world items) =
                     run (t - futures items) (race_world1 items)).
    { replace t with (futures items + (t - futures items))%nat at 1 by lia.
      by rewrite run_add, race_wave1. }
    destruct (race_world1_outer items) as [Hpend Hvalid].
    destruct (first_succeeded items) as [v|] eqn:Hfs.
    + (* a fulfilled input, behind rejected ones only *)
      destruct (first_succeeded_split items v Hfut Hfs) as (pre & post & Hitems & Hpre).
      assert (Hv : plain v).
      { rewrite Hitems in Hpl. apply Forall_app in Hpl as [_ Hpl].
        by apply Forall_cons in Hpl as [Hv _]. }
      destruct (race_wave1_out_split (futures items) pre v post (S (futures items)) Hpre)
        as (q & rest & Hq & Hqt & Hql); [lia|].
      rewrite <- Hitems in Hq.
      assert (Hk : (length pre < futures items)%nat).
      { rewrite (futures_all items Hfut), Hitems, length_app. simpl. lia. }
      rewrite Hsplit.
      apply (first_job_wins _ q (OnFulfilledJob (futures items) v) rest); auto.
      lia.
    + pose proof (first_succeeded_none items Hfut Hfs) as Hfail.
      destruct items as [|[x|x|x] post]; simpl.
      * split; [done|]. by rewrite run_quiescent.
      * discriminate Hfp.
      * discriminate Hfs.
      * (* rejected inputs only *)
        apply Forall_cons in Hfail as [_ Hfail].
        destruct (race_first_failed_tick x post Hpl) as (W & HW & HqW & HsW & HlW).
        destruct (race_wave1_out_failed (futures (Failed x :: post)) post
                    (S (S (S (futures (Failed x :: post))))) Hfail) as [Hqt Hql]; [lia|].
        assert (Hk : (length post < futures (Failed x :: post))%nat).
        { rewrite (futures_all _ Hfut). simpl. lia. }
        rewrite Hsplit.
        replace (t - futures (Failed x :: post))%nat
          with (1 + (t - futures (Failed x :: post) - 1))%nat by lia.
        rewrite run_add. change (run 1 ?W0) with (tick W0). rewrite HW.
        apply (first_job_wins W
                 (race_wave1_out (futures (Failed x :: post))
                    (S (S (S (futures (Failed x :: post))))) post)
                 (OnRejectedJob (futures (Failed x :: post)) x)
                 [OnFulfilledJob (S (S (futures (Failed x :: post)))) VUndefined]); auto.
        -- by apply Forall_cons in Hpl as [Hx _].
        -- rewrite Hql. lia.
Qed.

(** ** The programs at the end of the drafts *)

(** Lines 356-357:
    [const p = Promize.race([Promize.reject(a), v, Promize.resolve(b)]);
     p.then(console.log, console.log);] *)
Definition race_demo (a v b : value) : M pid :=
  let! p := race_of [Failed a; Plain v; Succeeded b] in
  then_ p (VFun ConsoleLog) (VFun ConsoleLog).

(** Lines 595 and 605:
    [const rejectedPromise =
       Promize.resolve(new Promize((resolve, reject) => reject(x)));
     rejectedPromise.then(console.log, console.log);] *)
Definition adoption_demo (x : value) : M pid :=
  let! inner := constructor (user_executor [CallReject x]) in
  let! outer := resolve (VPromize inner) in
  then_ outer (VFun ConsoleLog) (VFun ConsoleLog).

(** X15.  The program of lines 356-357, for any three values that are
    not Promizes in the places of the reason, the plain element and the
    value: it prints the plain element, once, and nothing else; the
    result of [race] ends FULFILLED with it; the third element is never
    subscribed to; after eight queue turns the queue is empty. *)
Theorem race_demo_prints_plain_element (a v b : value) (n : nat) :
  plain a -> plain v -> plain b ->
  (8 <= n)%nat ->
  let W := run n (exec (race_demo a v b) empty_world) in
  eval (race_demo a v b) empty_world = Normal 5%nat /\
  console W = [[v]] /\
  microtasks W = [] /\
  state_of W 2%nat = FULFILLED /\ value_of W 2%nat = v /\
  get_promize W 1%nat = mkPromize FULFILLED b [] [].
Proof.
  intros Ha Hv Hb Hn W. subst W.
  replace n with (8 + (n - 8))%nat by lia. rewrite run_add.
  assert (H8 : microtasks (run 8 (exec (race_demo a v b) empty_world)) = []).
  { destruct a; try discriminate Ha; destruct v; try discriminate Hv;
      destruct b; try discriminate Hb; reflexivity. }
  rewrite run_quiescent by exact H8.
  destruct a; try discriminate Ha; destruct v; try discriminate Hv;
    destruct b; try discriminate Hb; vm_compute; auto 10.
Qed.

(** X16.  The program of lines 595-605, for any reason that is not a
    Promize: the instance given to [Promize.resolve] is adopted, so the
    rejection of the inner instance reaches the second handler of
    [then]: the reason itself is printed, once, and nothing else; the
    instance that [Promize.resolve] returned ends REJECTED with the
    reason; after five queue turns the queue is empty. *)
Theorem adoption_demo_prints_inner_reason (x : value) (n : nat) :
  plain x ->
  (5 <= n)%nat ->
  let W := run n (exec (adoption_demo x) empty_world) in
  eval (adoption_demo x) empty_world = Normal 2%nat /\
  console W = [[x]] /\
  microtasks W = [] /\
  state_of W 1%nat = REJECTED /\ value_of W 1%nat = x /\
  state_of W 2%nat = FULFILLED /\ value_of W 2%nat = VUndefined.
Proof.
  intros Hx Hn W. subst W.
  replace n with (5 + (n - 5))%nat by lia. rewrite run_add.
  assert (H5 : microtasks (run 5 (exec (adoption_demo x) empty_world)) = []).
  { destruct x; try discriminate Hx; reflexivity. }
  rewrite run_quiescent by exact H5.
  destruct x; try discriminate Hx; vm_compute; auto 10.
Qed.

(** ** Several handlers on one instance *)








(** ** Factories around factories *)

(** The two static factories. *)
Inductive factory : Type := ByResolve | ByReject.

Definition call_factory (k : factory) (x : value) : M pid :=
  match k with
  | ByResolve => resolve x
  | ByReject => reject x
  end.

(** The job that the factory [k] schedules for the instance [p] it
    creates. *)
Definition factory_job (k : factory) (p : pid) (x : value) : job :=
  match k with
  | ByResolve => OnFulfilledJob p x
  | ByReject => OnRejectedJob p x
  end.

(** [k_n(... k_2(k_1(p)))]: every factory is given the instance that the
    one before created. *)
Fixpoint wrap (p : pid) (ks : list factory) : M pid :=
  match ks with
  | [] => ret p
  | k :: rest => let! q := call_factory k (VPromize p) in wrap q rest
  end.

(** The jobs these factory calls schedule. *)
Fixpoint adopt_jobs (p : pid) (ks : list factory) : list job :=
  match ks with
  | [] => []
  | k :: rest => factory_job k (S p) (VPromize p) :: adopt_jobs (S p) rest
  end.

(** The record of the instance [p] while PENDING, once the instance
    [S p] has subscribed its two capabilities to it; [d] is the instance
    that [then] returned. *)
Definition adopt_cell (p d : pid) : promize :=
  then_cell (VFun (OnFulfilledBind (S p))) (VFun (OnRejectedBind (S p))) d.

Fixpoint adopt_cells (p d : pid) (m : nat) : list promize :=
  match m with
  | O => []
  | S m' => adopt_cell p d :: adopt_cells (S p) (S d) m'
  end.

Lemma length_adopt_jobs ks : forall p, length (adopt_jobs p ks) = length ks.
Proof. induction ks as [|k ks IH]; intros p; simpl; auto. Qed.

Lemma length_adopt_cells m : forall p d, length (adopt_cells p d m) = m.
Proof. induction m as [|m IH]; intros p d; simpl; auto. Qed.

Lemma call_factory_spec k x w :
  call_factory k x w =
    (Normal (length (heap w)),
     mkWorld (heap w ++ [new_promize]) (envs w)
       (microtasks w ++ [factory_job k (length (heap w)) x]) (console w)).
Proof. by destruct k. Qed.

Lemma wrap_exact ks : forall H E q C,
  wrap (length H) ks (mkWorld (H ++ [new_promize]) E q C) =
    (Normal (length H + length ks)%nat,
     mkWorld (H ++ replicate (S (length ks)) new_promize) E
       (q ++ adopt_jobs (length H) ks) C).
Proof.
  induction ks as [|k ks IH]; intros H E q C.
  - simpl. unfold ret. by rewrite Nat.add_0_r, app_nil_r.
  - cbn [wrap]. unfold bind. rewrite call_factory_spec.
    cbn [heap envs microtasks console]. rewrite length_app. cbn [length].
    rewrite Nat.add_1_r.
    replace (S (length H)) with (length (H ++ [new_promize])) at 1 2
      by (rewrite length_app; simpl; lia).
    rewrite IH. rewrite length_app. cbn [length adopt_jobs replicate].
    rewrite <- !app_assoc. cbn [app]. rewrite Nat.add_1_r.
    f_equal. f_equal. lia.
Qed.

(** The turn of a wrapper whose argument is still PENDING: it only
    subscribes. *)
Lemma adopt_pending_run ks : forall Hp T Q E C,
  run (length ks)
    (mkWorld (Hp ++ replicate (S (length ks)) new_promize ++ T) E
       (adopt_jobs (length Hp) ks ++ Q) C) =
  mkWorld (Hp ++ adopt_cells (length Hp) (length Hp + S (length ks) + length T) (length ks) ++
             [new_promize] ++ T ++ replicate (length ks) new_promize) E Q C.
Proof.
  induction ks as [|k ks IH]; intros Hp T Q E C.
  - simpl. by rewrite app_nil_r.
  - cbn [length run adopt_jobs replicate app].
    set (W := mkWorld (Hp ++ new_promize :: new_promize :: replicate (length ks) new_promize ++ T)
                E (factory_job k (S (length Hp)) (VPromize (length Hp)) ::
                   adopt_jobs (S (length Hp)) ks ++ Q) C).
    assert (Hst : state_of (set_microtasks (adopt_jobs (S (length Hp)) ks ++ Q) W)
                    (S (length Hp)) = PENDING).
    { unfold state_of, get_promize, W. cbn [heap set_microtasks].
      replace (Hp ++ new_promize :: new_promize :: replicate (length ks) new_promize ++ T)
        with ((Hp ++ [new_promize]) ++ new_promize :: replicate (length ks) new_promize ++ T)
        by (by rewrite <- app_assoc).
      rewrite lookup_total_middle; [done|]. rewrite length_app. simpl. lia. }
    assert (Hin : state_of (set_microtasks (adopt_jobs (S (length Hp)) ks ++ Q) W)
                    (length Hp) = PENDING).
    { unfold state_of, get_promize, W. cbn [heap set_microtasks].
      by rewrite lookup_total_middle. }
    assert (Ht : tick W =
      exec (then_ (length Hp) (VFun (OnFulfilledBind (S (length Hp))))
              (VFun (OnRejectedBind (S (length Hp)))))
        (set_microtasks (adopt_jobs (S (length Hp)) ks ++ Q) W)).
    { rewrite (tick_cons _ (adopt_jobs (S (length Hp)) ks ++ Q)) by reflexivity.
      destruct (run_job_adopt _ (S (length Hp)) (length Hp) Hst) as [H1 H2].
      by destruct k. }
    rewrite Ht, then_pending_exec by exact Hin.
    unfold W, set_heap, set_microtasks. cbn [heap envs microtasks console].
    rewrite <- app_assoc. cbn [app]. rewrite alter_middle.
    rewrite !length_app. cbn [length]. rewrite length_app, length_replicate.
    set (d := (length Hp + S (S (length ks + length T)))%nat).
    replace (Hp ++ subscribe (VFun (OnFulfilledBind (S (length Hp))))
                     (VFun (OnRejectedBind (S (length Hp)))) d new_promize ::
               new_promize :: (replicate (length ks) new_promize ++ T) ++ [new_promize])
      with ((Hp ++ [adopt_cell (length Hp) d]) ++
               replicate (S (length ks)) new_promize ++ (T ++ [new_promize])).
    2:{ rewrite <- !app_assoc. reflexivity. }
    replace (S (length Hp)) with (length (Hp ++ [adopt_cell (length Hp) d]))
      by (rewrite length_app; simpl; lia).
    rewrite IH. rewrite !length_app. cbn [length adopt_cells].
    rewrite <- !app_assoc. cbn [app].
    replace (length Hp + 1)%nat with (S (length Hp)) by lia.
    replace (S (length Hp) + S (length ks) + (length T + 1))%nat with (S d) by (unfold d; lia).
    replace (length Hp + S (S (length ks)) + length T)%nat with d by (unfold d; lia).
    reflexivity.
Qed.

(** An instance that [then] returned, fulfilled with what the capability
    returned. *)
Definition done_undefined : promize := mkPromize FULFILLED VUndefined [] [].

Lemma settled_by_forwarded j d pr : settled_by (forwarded j d) pr = settled_by j pr.
Proof. by destruct j. Qed.

Lemma map_settled_by_forwarded j d (l : list promize) :
  map (settled_by (forwarded j d)) l = map (settled_by j) l.
Proof. induction l as [|c l IH]; simpl; [done|]. by rewrite settled_by_forwarded, IH. Qed.

Lemma forwarded_forwarded j d d' : forwarded (forwarded j d) d' = forwarded j d'.
Proof. by destruct j. Qed.

(** The settlement runs up the wrappers: every wrapper that subscribed
    is settled by the capability its argument called, two turns after
    its argument. *)
Lemma adopt_settle_run m : forall j Hp Dp E C,
  job_target j = length Hp ->
  plain (job_payload j) ->
  run (2 * m)
    (mkWorld (Hp ++ adopt_cells (length Hp) (S (length Hp + m + 1 + length Dp)) m ++
                [new_promize] ++ Dp ++ replicate (S m) new_promize) E
       [j; OnFulfilledJob (length Hp + m + 1 + length Dp) VUndefined] C) =
  mkWorld (Hp ++ map (settled_by j)
                   (adopt_cells (length Hp) (S (length Hp + m + 1 + length Dp)) m) ++
             [new_promize] ++ Dp ++ replicate m done_undefined ++ [new_promize]) E
    [forwarded j (length Hp + m);
     OnFulfilledJob (length Hp + m + 1 + length Dp + m) VUndefined] C.
Proof.
  induction m as [|m IH]; intros j Hp Dp E C Ht Hpl.
  - cbn [Nat.mul run adopt_cells map replicate app]. rewrite !Nat.add_0_r.
    rewrite <- Ht. by destruct j.
  - replace (2 * S m)%nat with (S (S (2 * m))) by lia.
    cbn [run adopt_cells map].
    set (p := length Hp) in *.
    set (d := (p + S m + 1 + length Dp)%nat).
    set (mid := adopt_cells (S p) (S (S d)) m).
    set (P1 := Hp ++ [settled_by j (adopt_cell p (S d))]).
    assert (HP1 : length P1 = S p).
    { unfold P1. rewrite length_app. simpl. lia. }
    assert (Hd : d = length (P1 ++ mid ++ [new_promize] ++ Dp)).
    { rewrite !length_app, HP1. unfold mid. rewrite length_adopt_cells.
      cbn [length]. unfold d. lia. }
    (* first turn: the instance [p] is settled *)
    assert (T1 : tick (mkWorld (Hp ++ (adopt_cell p (S d) :: mid) ++ [new_promize] ++ Dp ++
                                  replicate (S (S m)) new_promize) E
                         [j; OnFulfilledJob d VUndefined] C) =
                 mkWorld ((P1 ++ mid ++ [new_promize] ++ Dp) ++
                            new_promize :: replicate (S m) new_promize) E
                   [OnFulfilledJob d VUndefined; forwarded j (S p);
                    OnFulfilledJob (S d) VUndefined] C).
    { erewrite (tick_exact j); [|reflexivity| | | |].
      2:{ rewrite Ht. unfold state_of, get_promize. cbn [heap app].
          by rewrite lookup_total_middle. }
      2:{ exact Hpl. }
      2:{ rewrite Ht. cbn [heap]. rewrite length_app. simpl. lia. }
      2:{ rewrite Ht. unfold get_promize. cbn [heap app].
          rewrite lookup_total_middle by done. by destruct j. }
      rewrite Ht. unfold get_promize. cbn [heap app].
      rewrite lookup_total_middle by done.
      rewrite (alter_middle' _ _ _ _ p) by done.
      rewrite fire_simple by (destruct j; repeat constructor).
      unfold set_heap, set_microtasks. cbn [heap envs microtasks console app].
      unfold P1. rewrite <- !app_assoc. cbn [app replicate].
      f_equal. by destruct j. }
    (* second turn: the instance that [then] returned one level below *)
    assert (T2 : tick (mkWorld ((P1 ++ mid ++ [new_promize] ++ Dp) ++
                                  new_promize :: replicate (S m) new_promize) E
                         [OnFulfilledJob d VUndefined; forwarded j (S p);
                          OnFulfilledJob (S d) VUndefined] C) =
                 mkWorld ((P1 ++ mid ++ [new_promize] ++ Dp) ++
                            done_undefined :: replicate (S m) new_promize) E
                   [forwarded j (S p); OnFulfilledJob (S d) VUndefined] C).
    { erewrite (tick_exact (OnFulfilledJob d VUndefined)); [|reflexivity| | | |].
      2:{ unfold state_of, get_promize. cbn [heap job_target].
          by rewrite (lookup_total_middle _ _ _ d Hd). }
      2:{ reflexivity. }
      2:{ cbn [heap job_target]. rewrite length_app, <- Hd. simpl. lia. }
      2:{ cbn [job_target job_callbacks]. unfold get_promize. cbn [heap].
          by rewrite (lookup_total_middle _ _ _ d Hd). }
      cbn [job_target job_payload job_callbacks]. unfold get_promize. cbn [heap].
      rewrite (lookup_total_middle _ _ _ d Hd). cbn [thenCallbacks new_promize].
      rewrite fire_nil. unfold set_heap, set_microtasks. cbn [heap envs microtasks console].
      by rewrite (alter_middle' _ _ _ _ d Hd). }
    rewrite T1, T2.
    (* the remaining levels *)
    replace ((P1 ++ mid ++ [new_promize] ++ Dp) ++
               done_undefined :: replicate (S m) new_promize)
      with (P1 ++ adopt_cells (length P1)
                    (S (length P1 + m + 1 + length (Dp ++ [done_undefined]))) m ++
              [new_promize] ++ (Dp ++ [done_undefined]) ++ replicate (S m) new_promize).
    2:{ rewrite HP1, length_app. cbn [length].
        replace (S (S p + m + 1 + (length Dp + 1))) with (S (S d)) by (unfold d; lia).
        fold mid. rewrite <- !app_assoc. reflexivity. }
    replace (S d) with (length P1 + m + 1 + length (Dp ++ [done_undefined]))%nat
      by (rewrite HP1, length_app; cbn [length]; unfold d; lia).
    assert (Ht' : job_target (forwarded j (S p)) = length P1).
    { rewrite HP1. by destruct j. }
    assert (Hpl' : plain (job_payload (forwarded j (S p)))) by (by destruct j).
    rewrite (IH (forwarded j (S p)) P1 (Dp ++ [done_undefined]) E C Ht' Hpl').
    rewrite forwarded_forwarded, map_settled_by_forwarded.
    rewrite HP1, length_app. cbn [length].
    replace (S p + m + 1 + (length Dp + 1))%nat with (S d) by (unfold d; lia).
    fold mid. unfold P1. rewrite <- !app_assoc. cbn [app replicate].
    f_equal. f_equal; [f_equal; lia|f_equal; f_equal; unfold d; lia].
Qed.

(** A wrapper whose argument is already settled: the matching callback
    runs inside [then] and calls the capability of the wrapper. *)
Lemma adopt_settled_tick j0 k H T E Q C :
  job_target j0 = length H ->
  plain (job_payload j0) ->
  tick (mkWorld (H ++ settled_by j0 new_promize :: new_promize :: T) E
          (factory_job k (S (length H)) (VPromize (length H)) :: Q) C) =
  mkWorld (H ++ settled_by j0 (adopt_cell (length H) (length H + 2 + length T)) ::
             new_promize :: T ++ [new_promize]) E
    (Q ++ [forwarded j0 (S (length H));
           OnFulfilledJob (length H + 2 + length T) VUndefined]) C.
Proof.
  intros Ht Hpl.
  set (W := mkWorld (H ++ settled_by j0 new_promize :: new_promize :: T) E
              (factory_job k (S (length H)) (VPromize (length H)) :: Q) C).
  assert (Hst : state_of (set_microtasks Q W) (S (length H)) = PENDING).
  { unfold state_of, get_promize, W. cbn [heap set_microtasks].
    replace (H ++ settled_by j0 new_promize :: new_promize :: T)
      with ((H ++ [settled_by j0 new_promize]) ++ new_promize :: T)
      by (by rewrite <- app_assoc).
    rewrite lookup_total_middle; [done|]. rewrite length_app. simpl. lia. }
  assert (Htick : tick W =
    exec (then_ (length H) (VFun (OnFulfilledBind (S (length H))))
            (VFun (OnRejectedBind (S (length H))))) (set_microtasks Q W)).
  { rewrite (tick_cons _ Q) by reflexivity.
    destruct (run_job_adopt _ (S (length H)) (length H) Hst) as [H1 H2].
    by destruct k. }
  rewrite Htick. unfold exec. rewrite then_exact. cbn [snd].
  unfold W, set_heap, set_microtasks. cbn [heap envs microtasks console].
  rewrite <- app_assoc. cbn [app]. rewrite alter_middle.
  rewrite length_app. cbn [length].
  replace (length H + S (S (length T)))%nat with (length H + 2 + length T)%nat by lia.
  set (d := (length H + 2 + length T)%nat).
  set (cell := subscribe (VFun (OnFulfilledBind (S (length H))))
                 (VFun (OnRejectedBind (S (length H)))) d (settled_by j0 new_promize)).
  set (W0 := mkWorld (H ++ cell :: new_promize :: T ++ [new_promize]) E Q C).
  assert (Hrec : get_promize W0 (length H) = cell).
  { unfold get_promize, W0. cbn [heap]. by rewrite lookup_total_middle. }
  destruct j0 as [p v|p v]; cbn [job_payload] in Hpl.
  - rewrite (executeCallbacks_fulfilled W0 (length H))
      by (unfold state_of; by rewrite Hrec).
    unfold value_of. rewrite Hrec. cbn [cell subscribe settled_by p_value thenCallbacks
      new_promize catchCallbacks app].
    rewrite fire_simple by (repeat constructor).
    unfold W0, set_heap, set_microtasks. cbn [heap envs microtasks console].
    rewrite alter_middle. reflexivity.
  - rewrite (executeCallbacks_rejected W0 (length H))
      by (unfold state_of; by rewrite Hrec).
    unfold value_of. rewrite Hrec. cbn [cell subscribe settled_by p_value thenCallbacks
      new_promize catchCallbacks app].
    rewrite fire_simple by (repeat constructor).
    unfold W0, set_heap, set_microtasks. cbn [heap envs microtasks console].
    rewrite alter_middle. reflexivity.
Qed.

(** The whole run of [k_n(... k_1(k_0(v)))] from a world whose queue is
    empty: every instance ends settled the way [k_0] asked for. *)
Lemma nested_run k0 v ks H E C t :
  plain v ->
  (3 * length ks + 1 <= t)%nat ->
  exists cells D,
    run t (mkWorld (H ++ replicate (S (length ks)) new_promize) E
             (factory_job k0 (length H) v :: adopt_jobs (length H) ks) C) =
    mkWorld (H ++ map (settled_by (factory_job k0 (length H) v)) cells ++ D) E [] C /\
    length cells = S (length ks).
Proof.
  intros Hv Ht.
  set (L := length H).
  set (j0 := factory_job k0 L v).
  assert (Ht0 : job_target j0 = L) by (by destruct k0).
  assert (Hpl0 : plain (job_payload j0)) by (by destruct k0).
  (* the innermost instance is settled *)
  assert (TA : forall T Q,
    tick (mkWorld (H ++ new_promize :: T) E (j0 :: Q) C) =
    mkWorld (H ++ settled_by j0 new_promize :: T) E Q C).
  { intros T Q. erewrite (tick_exact j0); [|reflexivity| | | |].
    2:{ rewrite Ht0. unfold state_of, get_promize. cbn [heap].
        by rewrite lookup_total_middle. }
    2:{ exact Hpl0. }
    2:{ rewrite Ht0. cbn [heap]. rewrite length_app. simpl. lia. }
    2:{ rewrite Ht0. unfold get_promize. cbn [heap].
        rewrite lookup_total_middle by done. by destruct j0. }
    rewrite Ht0. unfold get_promize. cbn [heap].
    rewrite lookup_total_middle by done.
    replace (job_callbacks j0 new_promize) with (@nil callback) by (by destruct j0).
    rewrite fire_nil. unfold set_heap, set_microtasks. cbn [heap envs microtasks console].
    by rewrite (alter_middle' _ _ _ _ L). }
  destruct ks as [|k1 ks].
  - exists [new_promize], []. split; [|done].
    replace t with (1 + (t - 1))%nat by lia. rewrite run_add.
    cbn [length replicate adopt_jobs]. change (run 1 ?W) with (tick W).
    rewrite TA. by rewrite run_quiescent.
  - cbn [length] in Ht |- *.
    remember (length ks) as n eqn:Hn.
    set (d1 := (L + 2 + n)%nat).
    set (Hp := H ++ [settled_by j0 (adopt_cell L d1)]).
    assert (HHp : length Hp = S L).
    { unfold Hp. rewrite length_app. simpl. lia. }
    set (j1 := forwarded j0 (S L)).
    exists (adopt_cell L d1 :: adopt_cells (S L) (S d1) n ++ [new_promize]),
           (replicate n done_undefined ++ [done_undefined]).
    split; [|cbn [length]; rewrite length_app, length_adopt_cells; simpl; lia].
    replace t with (1 + (1 + (n + (2 * n + (1 + (1 + (t - 3 * S n - 1)))))))%nat by lia.
    rewrite run_add. change (run 1 ?W) with (tick W).
    cbn [replicate adopt_jobs]. rewrite TA.
    rewrite run_add. change (run 1 ?W) with (tick W).
    pose proof (adopt_settled_tick j0 k1 H (replicate n new_promize) E
                  (adopt_jobs (S L) ks) C Ht0 Hpl0) as HB1.
    rewrite length_replicate in HB1. fold L in HB1. fold d1 j1 in HB1.
    rewrite HB1.
    (* the wrappers whose argument is still pending subscribe *)
    rewrite run_add.
    pose proof (adopt_pending_run ks Hp [new_promize] [j1; OnFulfilledJob d1 VUndefined] E C)
      as HB2.
    rewrite <- Hn, HHp in HB2. cbn [length] in HB2.
    replace (S L + S n + 1)%nat with (S d1) in HB2 by (unfold d1; lia).
    replace (H ++ settled_by j0 (adopt_cell L d1) ::
               new_promize :: replicate n new_promize ++ [new_promize])
      with (Hp ++ replicate (S n) new_promize ++ [new_promize])
      by (unfold Hp; rewrite <- !app_assoc; reflexivity).
    rewrite HB2.
    (* the settlement runs up the wrappers *)
    rewrite run_add.
    pose proof (adopt_settle_run n j1 Hp [] E C) as HC.
    rewrite HHp in HC. cbn [length app] in HC.
    replace (S L + n + 1 + 0)%nat with d1 in HC by (unfold d1; lia).
    cbn [app replicate]. cbn [replicate] in HC.
    rewrite HC by (unfold j1; by destruct j0).
    unfold j1. rewrite forwarded_forwarded, map_settled_by_forwarded.
    (* the outermost wrapper and the last instance that [then] returned *)
    set (cells := map (settled_by j0) (adopt_cells (S L) (S d1) n)).
    assert (Hc : length (Hp ++ cells) = (S L + n)%nat).
    { rewrite length_app, HHp. unfold cells. by rewrite length_map, length_adopt_cells. }
    rewrite run_add. change (run 1 ?W) with (tick W).
    rewrite (app_assoc Hp cells).
    erewrite (tick_exact (forwarded j0 (S L + n))); [|reflexivity| | | |].
    2:{ unfold state_of, get_promize. cbn [heap].
        replace (job_target (forwarded j0 (S L + n))) with (S L + n)%nat by (by destruct j0).
        by rewrite (lookup_total_middle _ _ _ (S L + n)%nat). }
    2:{ by destruct j0. }
    2:{ replace (job_target (forwarded j0 (S L + n))) with (S L + n)%nat by (by destruct j0).
        cbn [heap]. rewrite length_app, Hc. simpl. lia. }
    2:{ replace (job_target (forwarded j0 (S L + n))) with (S L + n)%nat by (by destruct j0).
        unfold get_promize. cbn [heap].
        rewrite (lookup_total_middle _ _ _ (S L + n)%nat) by done. by destruct j0. }
    replace (job_target (forwarded j0 (S L + n))) with (S L + n)%nat by (by destruct j0).
    unfold get_promize. cbn [heap].
    rewrite (lookup_total_middle _ _ _ (S L + n)%nat) by done.
    replace (job_callbacks (forwarded j0 (S L + n)) new_promize) with (@nil callback)
      by (by destruct j0).
    rewrite fire_nil. unfold set_heap, set_microtasks. cbn [heap envs microtasks console].
    rewrite (alter_middle' _ _ _ _ (S L + n)%nat) by done.
    rewrite settled_by_forwarded.
    rewrite run_add. change (run 1 ?W) with (tick W).
    set (P2 := (Hp ++ cells) ++ settled_by j0 new_promize :: replicate n done_undefined).
    assert (HP2 : (d1 + n)%nat = length P2).
    { unfold P2. rewrite length_app, Hc. cbn [length]. rewrite length_replicate.
      unfold d1. lia. }
    replace ((Hp ++ cells) ++ settled_by j0 new_promize ::
               replicate n done_undefined ++ [new_promize])
      with (P2 ++ new_promize :: []) by (unfold P2; by rewrite <- !app_assoc).
    erewrite (tick_exact (OnFulfilledJob (d1 + n) VUndefined)); [|reflexivity| | | |].
    2:{ unfold state_of, get_promize. cbn [heap job_target].
        by rewrite (lookup_total_middle _ _ _ _ HP2). }
    2:{ reflexivity. }
    2:{ cbn [heap job_target]. rewrite length_app, <- HP2. simpl. lia. }
    2:{ cbn [job_target job_callbacks]. unfold get_promize. cbn [heap].
        by rewrite (lookup_total_middle _ _ _ _ HP2). }
    cbn [job_target job_payload job_callbacks]. unfold get_promize. cbn [heap].
    rewrite (lookup_total_middle _ _ _ _ HP2). cbn [thenCallbacks new_promize].
    rewrite fire_nil. unfold set_heap, set_microtasks. cbn [heap envs microtasks console].
    rewrite (alter_middle' _ _ _ _ _ HP2). cbn [settled_by catchCallbacks new_promize].
    rewrite run_quiescent by reflexivity.
    fold done_undefined. unfold P2, Hp, cells.
    cbn [map]. rewrite map_app. cbn [map].
    repeat (rewrite <- !app_assoc; cbn [app]). reflexivity.
Qed.

(** X18.  Adoption flattens any nesting of the static factories: after
    [k_n(... k_1(k_0(v)))], where every [k_i] is [Promize.resolve] or
    [Promize.reject] and [v] is not a Promize, run from a world whose
    queue is empty, every one of the [n + 1] instances ends settled the
    way the innermost call asks for, FULFILLED with [v] when [k_0] is
    [Promize.resolve] and REJECTED with [v] when it is [Promize.reject],
    whichever factories wrap it; the queue is empty again after
    [3 n + 1] turns. *)
Theorem nested_factories_adopt_innermost_outcome (w : world) (k0 : factory)
    (v : value) (ks : list factory) (t i : nat) :
  microtasks w = [] ->
  plain v ->
  (3 * length ks + 1 <= t)%nat ->
  (i <= length ks)%nat ->
  let script := let! p := call_factory k0 v in wrap p ks in
  let W := run t (exec script w) in
  eval script w = Normal (length (heap w) + length ks)%nat /\
  state_of W (length (heap w) + i) =
    match k0 with ByResolve => FULFILLED | ByReject => REJECTED end /\
  value_of W (length (heap w) + i) = v /\
  microtasks W = [].
Proof.
  intros Hq Hv Ht Hi script W. subst W script.
  unfold exec, eval, bind. rewrite call_factory_spec, Hq. cbn [app].
  rewrite wrap_exact. cbn [fst snd app]. split; [done|].
  destruct (nested_run k0 v ks (heap w) (envs w) (console w) t Hv Ht)
    as (cells & D & -> & Hlen).
  cbn [microtasks]. unfold state_of, value_of, get_promize. cbn [heap].
  destruct (chain_states (factory_job k0 (length (heap w)) v) cells (heap w) D
              (length (heap w) + i)) as [Hs Hval]; [lia|].
  rewrite Hs, Hval. by destruct k0.
Qed.

(** ** Where settlement happens *)

Lemma perform_extends a w : a <> ATick -> extends w (perform a w).
Proof.
  intros Ha. destruct a; simpl; try done.
  - apply frames_constructor. intros this. apply frames_user_executor.
  - apply frames_then.
  - apply frames_catch.
  - apply frames_finally.
  - apply frames_resolve.
  - apply frames_reject.
  - apply frames_all.
  - apply frames_allSettled.
  - apply frames_race.
  - apply frames_call_func.
Qed.

(** X19.  Settlement happens only in queue turns.  No call of the class
    (the constructor with any executor, [then], [catch], [finally], the
    static factories and combinators) and no call of a function value (a
    capability, a handler) changes the state or the value of any
    instance: such a call only creates instances and appends jobs behind
    the ones already queued.  A queue turn changes the state and value of
    no instance but the one its job targets.  No operation removes an
    instance. *)
Theorem settlement_happens_only_in_queue_turns (a : action) (w : world) (p : pid) :
  (a <> ATick ->
     state_of (perform a w) p = state_of w p /\
     value_of (perform a w) p = value_of w p /\
     exists js, microtasks (perform a w) = microtasks w ++ js) /\
  (forall j q, microtasks w = j :: q -> p <> job_target j ->
     state_of (tick w) p = state_of w p /\ value_of (tick w) p = value_of w p) /\
  (length (heap w) <= length (heap (perform a w)))%nat.
Proof.
  split; [|split].
  - intros Ha. destruct (perform_extends a w Ha) as [s v q _]. auto.
  - intros j q Hq Hp. rewrite (tick_cons j q) by done.
    destruct (run_job_changes_only j (set_microtasks q w)) as [s v _ _].
    rewrite s, v by done. done.
  - assert (Hd : a = ATick \/ a <> ATick) by (destruct a; auto; right; discriminate).
    destruct Hd as [->|Ha].
    + simpl. destruct (microtasks w) as [|j q] eqn:Hq.
      * by rewrite tick_nil.
      * rewrite (tick_cons j q) by done.
        by destruct (run_job_changes_only j (set_microtasks q w)) as [_ _ _ h].
    + by destruct (perform_extends a w Ha) as [_ _ _ h].
Qed.

End Promize.

(** * The call stack

    [then] as a client function calls it (see [ClientThen]) is the method
    itself, one frame deeper; with no frame left the call raises the
    RangeError of an exhausted stack.  Every theorem above holds on every
    depth. *)
Fixpoint then_at (depth : nat) : ClientThen :=
  match depth with
  | O => fun _ _ _ => throw stack_overflow
  | S d => @then_ (then_at d)
  end.

Lemma then_at_frames depth : @ClientThenFrames (then_at depth).
Proof.
  induction depth as [|d IH]; intros p f r; simpl.
  - intros w. split; [done|done| |done]. exists []. by rewrite app_nil_r.
  - apply (@frames_then _ IH).
Qed.

Lemma then_at_tidy depth : @ClientThenTidy (then_at depth).
Proof.
  induction depth as [|d IH]; intros p f r; simpl.
  - by intros busy w.
  - apply (@keeps_tidy_then _ (then_at_frames d) IH).
Qed.

(** * A handler that calls [then]

    [#executeCallbacks] empties the list of callbacks after the iteration
    (lines 261-265).  A handler that calls [then] on the instance whose
    callbacks are running re-enters [#executeCallbacks] (line 103) while
    the callbacks behind it are still listed: they run in the inner
    call, and again when the outer iteration goes on. *)
Section Reentrancy.

Variable depth : nat.

#[local] Instance one_more_frame : ClientThen := then_at (S depth).
#[local] Instance one_more_frame_frames : ClientThenFrames := then_at_frames (S depth).
#[local] Instance one_more_frame_tidy : ClientThenTidy := then_at_tidy (S depth).

(** [let n = 0; () => { if (n === 0) { n++; p.then(undefined) } }] *)
Definition then_again (n : eid) (p : pid) : value :=
  VFun (Arrow (Some n) [CallThen p VUndefined VUndefined] (Return (Lit VUndefined))).

(** [const p = Promize.resolve(x);
     const q = new Promize(() => {});
     let n = 0;
     p.then(() => { if (n === 0) { n++; p.then(undefined) } });
     Promize.all([p, q]);] *)
Definition all_with_pending_input (x : value) : M pid :=
  let! p := resolve x in
  let! q := constructor (user_executor []) in
  let! n := alloc_locals in
  then_ p (then_again n p) VUndefined ;;;
  all [VPromize p; VPromize q].

(** The same with [const q = Promize.reject(r)]. *)
Definition all_with_rejected_input (x r : value) : M pid :=
  let! p := resolve x in
  let! q := reject r in
  let! n := alloc_locals in
  then_ p (then_again n p) VUndefined ;;;
  all [VPromize p; VPromize q].

(** C7 (violated by the code).  [Promize.all([p, q])] fulfils while [q]
    is still PENDING, and will be for ever, when a handler registered on
    [p] before the call calls [p.then] once: the closure that [all]
    registered on [p] (lines 165-177) then runs twice, the counter
    reaches the length of the input, and the instance that [all] returned
    ends FULFILLED with an array that has no element for [q]. *)
Theorem all_fulfills_while_an_input_is_pending (z : Z) (n : nat) :
  let w := run (8 + n) (exec (all_with_pending_input (VNum z)) empty_world) in
  eval (all_with_pending_input (VNum z)) empty_world = Normal 3%nat /\
  state_of w 0%nat = FULFILLED /\
  state_of w 1%nat = PENDING /\
  microtasks w = [] /\
  state_of w 3%nat = FULFILLED /\
  value_of w 3%nat = VArray 1%nat /\
  array_of w 1%nat = [Some (VNum z)].
Proof.
  intros w. subst w. rewrite run_add.
  set (W := run 8 (exec (all_with_pending_input (VNum z)) empty_world)).
  assert (Hq : microtasks W = []) by (vm_compute; reflexivity).
  rewrite (run_quiescent n W Hq). subst W.
  vm_compute. repeat split; reflexivity.
Qed.

(** C6 (violated by the code).  In the same situation [Promize.all([p,
    q])] with [q] rejected does not reject: it ends FULFILLED, the
    rejection that the closure of line 178 schedules arriving
    afterwards. *)
Theorem all_fulfills_although_an_input_rejects (z : Z) (r : string) (n : nat) :
  let w := run (12 + n) (exec (all_with_rejected_input (VNum z) (VStr r)) empty_world) in
  eval (all_with_rejected_input (VNum z) (VStr r)) empty_world = Normal 3%nat /\
  state_of w 1%nat = REJECTED /\
  value_of w 1%nat = VStr r /\
  microtasks w = [] /\
  state_of w 3%nat = FULFILLED /\
  value_of w 3%nat = VArray 1%nat /\
  array_of w 1%nat = [Some (VNum z)].
Proof.
  intros w. subst w. rewrite run_add.
  set (W := run 12 (exec (all_with_rejected_input (VNum z) (VStr r)) empty_world)).
  assert (Hq : microtasks W = []) by (vm_compute; reflexivity).
  rewrite (run_quiescent n W Hq). subst W.
  vm_compute. repeat split; reflexivity.
Qed.

End Reentrancy.

(** * Instances

    The theorems at concrete inputs, on a call stack of depth 2. *)
#[global] Instance call_stack : ClientThen := then_at 2.
#[global] Instance call_stack_frames : ClientThenFrames := then_at_frames 2.
#[global] Instance call_stack_tidy : ClientThenTidy := then_at_tidy 2.

Lemma settle_once_witness :
  state_of (settled_world (VNum 1)) 0%nat <> PENDING /\
  ((forall acts,
     state_of (perform_all acts (settled_world (VNum 1))) 0%nat =
       state_of (settled_world (VNum 1)) 0%nat /\
     value_of (perform_all acts (settled_world (VNum 1))) 0%nat =
       value_of (settled_world (VNum 1)) 0%nat) /\
   (forall v, exec (run_job (OnFulfilledJob 0%nat v)) (settled_world (VNum 1)) =
              settled_world (VNum 1)) /\
   (forall r, exec (run_job (OnRejectedJob 0%nat r)) (settled_world (VNum 1)) =
              settled_world (VNum 1))).
Proof.
  assert (H : state_of (settled_world (VNum 1)) 0%nat <> PENDING)
    by (vm_compute; discriminate).
  split; [exact H|]. exact (settle_once (settled_world (VNum 1)) 0%nat H).
Defined.

(** C4, as stated, fails: [Promize.reject(Promize.resolve(1))] does not
    end REJECTED with the inner Promize as reason; it ends FULFILLED with
    1, the outcome of the inner instance. *)
Lemma reject_unwraps_promize_reason :
  let w := run 4 (exec (reject_of_resolve (VNum 1)) empty_world) in
  eval (reject_of_resolve (VNum 1)) empty_world = Normal 1%nat /\
  microtasks w = [] /\
  state_of w 1%nat = FULFILLED /\ value_of w 1%nat = VNum 1 /\
  ~ (state_of w 1%nat = REJECTED /\ value_of w 1%nat = VPromize 0%nat).
Proof.
  vm_compute. repeat split; auto. intros [H _]. discriminate H.
Qed.

Lemma reject_settles_witness :
  state_of (run 1 (exec (reject (VStr "e")) empty_world)) 0%nat = REJECTED /\
  value_of (run 1 (exec (reject (VStr "e")) empty_world)) 0%nat = VStr "e".
Proof.
  assert (Hwf : queue_wf empty_world) by constructor.
  assert (Hn : (length (microtasks empty_world) < 1)%nat) by (simpl; lia).
  destruct (reject_settles empty_world (VStr "e") 1 Hwf eq_refl Hn)
    as ((_ & Hs & Hv) & _).
  split; [exact Hs|exact Hv].
Defined.

(** [race([5, Promize.resolve(9)])] *)
Lemma race_plain_first_witness :
  let w := exec (resolve (VNum 9)) empty_world in
  eval (race [VNum 5; VPromize 0%nat]) w = Normal 1%nat /\
  state_of (run 2 (exec (race [VNum 5; VPromize 0%nat]) w)) 1%nat = FULFILLED /\
  value_of (run 2 (exec (race [VNum 5; VPromize 0%nat]) w)) 1%nat = VNum 5.
Proof.
  assert (Hwf : queue_wf (exec (resolve (VNum 9)) empty_world)).
  { repeat constructor. }
  assert (Hn : (length (microtasks (exec (resolve (VNum 9)) empty_world)) < 2)%nat).
  { simpl. lia. }
  exact (race_plain_first (exec (resolve (VNum 9)) empty_world) (VNum 5)
           [VPromize 0%nat] 2 Hwf eq_refl Hn).
Defined.

(** C10, as stated, fails: when an element placed before the non-Promize
    one is an instance that is already FULFILLED, [race] returns an
    instance that ends FULFILLED with the value of that instance, not
    with the non-Promize element. *)
Lemma race_fulfilled_element_beats_plain :
  let w := settled_world (VNum 7) in
  let w' := run 5 (exec (race [VPromize 0%nat; VNum 5]) w) in
  eval (race [VPromize 0%nat; VNum 5]) w = Normal 1%nat /\
  microtasks w' = [] /\
  state_of w' 1%nat = FULFILLED /\ value_of w' 1%nat = VNum 7 /\
  value_of w' 1%nat <> VNum 5.
Proof. vm_compute. repeat split; auto. discriminate. Qed.

(** [Promize.all([Promize.resolve(1), Promize.reject("boom"), Promize.resolve(3)])] *)
Lemma all_rejects_with_first_reason_witness :
  let items := [Succeeded (VNum 1); Failed (VStr "boom"); Succeeded (VNum 3)] in
  let w := exec (all_of items) empty_world in
  state_of (run 10 w) 3%nat = REJECTED /\ value_of (run 10 w) 3%nat = VStr "boom".
Proof.
  assert (Hpl : Forall item_plain
                  ([Succeeded (VNum 1)] ++ Failed (VStr "boom") :: [Succeeded (VNum 3)]))
    by (repeat constructor).
  assert (Hnf : Forall (fun it => is_failed it = false) [Succeeded (VNum 1)])
    by (repeat constructor).
  assert (Ht : (3 * futures ([Succeeded (VNum 1)] ++ Failed (VStr "boom") ::
                               [Succeeded (VNum 3)]) < 10)%nat)
    by (simpl; lia).
  destruct (all_rejects_with_first_reason [Succeeded (VNum 1)] [Succeeded (VNum 3)]
              (VStr "boom") 10 Hpl Hnf Ht) as (_ & Hs & Hv & _).
  split; [exact Hs|exact Hv].
Defined.

(** [Promize.all([Promize.resolve(1), 2, Promize.resolve(3)])] *)
Lemma all_fulfills_in_order_witness :
  let items := [Succeeded (VNum 1); Plain (VNum 2); Succeeded (VNum 3)] in
  let w := exec (all_of items) empty_world in
  state_of (run 5 w) 2%nat = FULFILLED /\
  value_of (run 5 w) 2%nat = VArray 0%nat /\
  array_of (run 5 w) 0%nat = [Some (VNum 1); Some (VNum 2); Some (VNum 3)].
Proof.
  assert (Hpl : Forall item_plain [Succeeded (VNum 1); Plain (VNum 2); Succeeded (VNum 3)])
    by (repeat constructor).
  assert (Hnf : Forall (fun it => is_failed it = false)
                  [Succeeded (VNum 1); Plain (VNum 2); Succeeded (VNum 3)])
    by (repeat constructor).
  assert (Hne : [Succeeded (VNum 1); Plain (VNum 2); Succeeded (VNum 3)] <> [])
    by discriminate.
  assert (Ht : (2 * futures [Succeeded (VNum 1); Plain (VNum 2); Succeeded (VNum 3)] < 5)%nat)
    by (simpl; lia).
  destruct (all_fulfills_in_order _ 5 Hpl) as (_ & Honly & Hpos).
  pose proof (Hpos Hne Hnf Ht) as Hs.
  destruct (Honly 5%nat Hs) as (_ & _ & Hv & Ha).
  split; [exact Hs|]. split; [exact Hv|exact Ha].
Defined.

Lemma resolve_settles_witness :
  state_of (run 1 (exec (resolve (VNum 7)) empty_world)) 0%nat = FULFILLED /\
  value_of (run 1 (exec (resolve (VNum 7)) empty_world)) 0%nat = VNum 7.
Proof.
  assert (Hwf : queue_wf empty_world) by constructor.
  assert (Hn : (length (microtasks empty_world) < 1)%nat) by (simpl; lia).
  destruct (resolve_settles empty_world (VNum 7) 1 Hwf eq_refl Hn)
    as (_ & _ & _ & Hs & Hv).
  split; [exact Hs|exact Hv].
Defined.

(** [new Promize((resolve, reject) => { throw "boom"; resolve(1) })] *)
Lemma executor_first_statement_decides_witness :
  let body := [ThrowStmt (VStr "boom"); CallResolve (VNum 1)] in
  let w' := exec (constructor (user_executor body)) empty_world in
  microtasks w' = [OnRejectedJob 0%nat (VStr "boom")] /\
  state_of (run 1 w') 0%nat = REJECTED /\
  value_of (run 1 w') 0%nat = VStr "boom".
Proof.
  assert (Hwf : queue_wf empty_world) by constructor.
  assert (Hn : (length (microtasks empty_world) < 1)%nat) by (simpl; lia).
  destruct (executor_first_statement_decides empty_world (ThrowStmt (VStr "boom"))
              [CallResolve (VNum 1)] 1 Hwf eq_refl Hn) as (_ & _ & Hq & Hs & Hv).
  split; [exact Hq|]. split; [exact Hs|exact Hv].
Defined.

Lemma then_on_pending_only_registers_witness :
  let w := exec (resolve (VNum 1)) empty_world in
  let w' := exec (then_ 0%nat (VFun ConsoleLog) VUndefined) w in
  microtasks w' = microtasks w /\ console w' = [].
Proof.
  destruct (then_on_pending_only_registers (exec (resolve (VNum 1)) empty_world)
              0%nat (VFun ConsoleLog) VUndefined eq_refl) as (_ & Hq & Hc & _).
  split; [exact Hq|exact Hc].
Defined.

Lemma then_on_settled_runs_handler_at_once_witness :
  let w := settled_world (VNum 1) in
  let w' := exec (then_ 0%nat (VFun ConsoleLog) VUndefined) w in
  console w' = [[VNum 1]] /\
  microtasks w' = [OnFulfilledJob 1%nat VUndefined].
Proof.
  destruct (then_on_settled_runs_handler_at_once (settled_world (VNum 1)) 0%nat VUndefined)
    as [H _].
  destruct (H eq_refl eq_refl) as (Hc & Hq & _).
  split; [exact Hc|exact Hq].
Defined.

(** [Promize.resolve(1).catch(console.log).then()] *)
Lemma fulfilment_passes_through_chain_witness :
  let script := let! p := resolve (VNum 1) in
                then_chain p [(VUndefined, VFun ConsoleLog); (VUndefined, VUndefined)] in
  state_of (run 3 (exec script empty_world)) 2%nat = FULFILLED /\
  value_of (run 3 (exec script empty_world)) 2%nat = VNum 1 /\
  console (run 3 (exec script empty_world)) = [].
Proof.
  assert (Hhs : Forall (fun h : value * value => is_function h.1 = false)
                  [(VUndefined, VFun ConsoleLog); (VUndefined, VUndefined)])
    by (repeat constructor).
  destruct (fulfilment_passes_through_chain empty_world (VNum 1)
              [(VUndefined, VFun ConsoleLog); (VUndefined, VUndefined)] 3 2
              eq_refl eq_refl Hhs (le_n 3) (le_n 2)) as (_ & Hs & Hv & _ & Hc).
  split; [exact Hs|]. split; [exact Hv|exact Hc].
Defined.

(** [Promize.reject("e").then(console.log).then(console.log)] *)
Lemma rejection_passes_through_chain_witness :
  let script := let! p := reject (VStr "e") in
                then_chain p [(VFun ConsoleLog, VUndefined); (VFun ConsoleLog, VUndefined)] in
  state_of (run 3 (exec script empty_world)) 2%nat = REJECTED /\
  value_of (run 3 (exec script empty_world)) 2%nat = VStr "e" /\
  console (run 3 (exec script empty_world)) = [].
Proof.
  assert (Hhs : Forall (fun h : value * value => is_function h.2 = false)
                  [(VFun ConsoleLog, VUndefined); (VFun ConsoleLog, VUndefined)])
    by (repeat constructor).
  destruct (rejection_passes_through_chain empty_world (VStr "e")
              [(VFun ConsoleLog, VUndefined); (VFun ConsoleLog, VUndefined)] 3 2
              eq_refl eq_refl Hhs (le_n 3) (le_n 2)) as (_ & Hs & Hv & _ & Hc).
  split; [exact Hs|]. split; [exact Hv|exact Hc].
Defined.

(** [Promize.race([Promize.reject("e"), Promize.resolve(1)])] *)
Lemma race_of_script_outcome_witness :
  let w := exec (race_of [Failed (VStr "e"); Succeeded (VNum 1)]) empty_world in
  state_of (run 5 w) 2%nat = FULFILLED /\ value_of (run 5 w) 2%nat = VNum 1.
Proof.
  assert (Hpl : Forall item_plain [Failed (VStr "e"); Succeeded (VNum 1)])
    by (repeat constructor).
  assert (Ht : (2 * futures [Failed (VStr "e"); Succeeded (VNum 1)] < 5)%nat)
    by (simpl; lia).
  destruct (race_of_script_outcome [Failed (VStr "e"); Succeeded (VNum 1)] 5 Hpl Ht)
    as [_ H].
  exact H.
Defined.

Lemma race_demo_prints_plain_element_witness :
  console (run 8 (exec (race_demo (VStr "this mess dey smell") (VNum 1) (VNum 90))
                    empty_world)) = [[VNum 1]].
Proof.
  destruct (race_demo_prints_plain_element (VStr "this mess dey smell") (VNum 1) (VNum 90) 8
              eq_refl eq_refl eq_refl (le_n 8)) as (_ & Hc & _).
  exact Hc.
Defined.

Lemma adoption_demo_prints_inner_reason_witness :
  console (run 5 (exec (adoption_demo (VStr "here")) empty_world)) = [[VStr "here"]].
Proof.
  destruct (adoption_demo_prints_inner_reason (VStr "here") 5 eq_refl (le_n 5))
    as (_ & Hc & _).
  exact Hc.
Defined.


(** [Promize.allSettled([Promize.resolve(1), Promize.reject("e")])] *)
Lemma allSettled_fulfills_with_records_witness :
  let w := exec (allSettled_of [Succeeded (VNum 1); Failed (VStr "e")]) empty_world in
  state_of (run 9 w) 2%nat = FULFILLED /\
  array_of (run 9 w) 0%nat =
    [Some (fulfilled_record (VNum 1)); Some (rejected_record (VStr "e"))].
Proof.
  assert (Hpl : Forall item_plain [Succeeded (VNum 1); Failed (VStr "e")])
    by (repeat constructor).
  assert (Hne : [Succeeded (VNum 1); Failed (VStr "e")] <> []) by discriminate.
  assert (Ht : (4 * futures [Succeeded (VNum 1); Failed (VStr "e")] < 9)%nat)
    by (simpl; lia).
  destruct (allSettled_fulfills_with_records [Succeeded (VNum 1); Failed (VStr "e")] 9
              Hpl Hne Ht) as (_ & Hs & _ & Ha & _).
  split; [exact Hs|exact Ha].
Defined.

(** [Promize.reject(Promize.resolve(Promize.reject("e")))] *)
Lemma nested_factories_adopt_innermost_outcome_witness :
  let script := let! p := reject (VStr "e") in wrap p [ByResolve; ByReject] in
  state_of (run 7 (exec script empty_world)) 2%nat = REJECTED /\
  value_of (run 7 (exec script empty_world)) 2%nat = VStr "e".
Proof.
  assert (Ht : (3 * length [ByResolve; ByReject] + 1 <= 7)%nat) by (simpl; lia).
  destruct (nested_factories_adopt_innermost_outcome empty_world ByReject (VStr "e")
              [ByResolve; ByReject] 7 2 eq_refl eq_refl Ht (le_n 2))
    as (_ & Hs & Hv & _).
  split; [exact Hs|exact Hv].
Defined.



(** The example of the source, line 356, with a pending first element:
    [race([Promize.reject("this mess dey smell"), 5, Promize.resolve(90)])],
    and [race([p, 5])] with [p] already REJECTED. *)
Lemma race_never_raises_witness :
  let w := exec (let! a := reject (VStr "this mess dey smell") in
                 resolve (VNum 90)) empty_world in
  let values := [VPromize 0%nat; VNum 5; VPromize 1%nat] in
  let w0 := run 1 (exec (reject (VStr "no")) empty_world) in
  (eval (race values) w = Normal 2%nat /\
   state_of (run 4 (exec (race values) w)) 2%nat = FULFILLED /\
   value_of (run 4 (exec (race values) w)) 2%nat = VNum 5) /\
  (state_of w0 0%nat = REJECTED /\
   state_of (run 2 (exec (race [VPromize 0%nat; VNum 5]) w0)) 1%nat = FULFILLED /\
   value_of (run 2 (exec (race [VPromize 0%nat; VNum 5]) w0)) 1%nat = VNum 5).
Proof.
  set (w := exec (let! a := reject (VStr "this mess dey smell") in
                  resolve (VNum 90)) empty_world).
  set (w0 := run 1 (exec (reject (VStr "no")) empty_world)).
  split.
  - destruct (race_never_raises w [0%nat] (VNum 5) [VPromize 1%nat] 4 eq_refl)
      as (He & _ & _ & _ & Hwin & _).
    split; [exact (He _ w)|].
    apply Hwin.
    + repeat constructor.
    + repeat constructor.
    + repeat constructor. discriminate.
    + simpl. lia.
  - destruct (race_never_raises w0 [0%nat] (VNum 5) [] 2 eq_refl)
      as (_ & _ & _ & _ & Hwin & _).
    split; [reflexivity|].
    apply Hwin.
    + repeat constructor.
    + constructor.
    + repeat constructor. discriminate.
    + simpl. lia.
Defined.

(** [Promize.resolve(1).then(x => 42)] and
    [Promize.resolve(1).then(x => { throw "no" })]. *)
Lemma then_handler_decides_witness :
  let returning := Arrow None [] (Return (Lit (VNum 42))) in
  let raising := Arrow None [] (Raise (Lit (VStr "no"))) in
  let script f := let! p := resolve (VNum 1) in then_ p (VFun f) VUndefined in
  (state_of (run 2 (exec (script returning) empty_world)) 1%nat = FULFILLED /\
   value_of (run 2 (exec (script returning) empty_world)) 1%nat = VNum 42) /\
  (state_of (run 2 (exec (script raising) empty_world)) 1%nat = REJECTED /\
   value_of (run 2 (exec (script raising) empty_world)) 1%nat = VStr "no").
Proof.
  split.
  - destruct (then_handler_decides empty_world (VNum 1)
                (Arrow None [] (Return (Lit (VNum 42)))) VUndefined 2
                eq_refl eq_refl (le_n 2)) as (_ & _ & H & _ & Hf).
    apply (H (VNum 42)); [|reflexivity].
    apply (Hf None [] (Lit (VNum 42)) eq_refl).
  - destruct (then_handler_decides empty_world (VNum 1)
                (Arrow None [] (Raise (Lit (VStr "no")))) VUndefined 2
                eq_refl eq_refl (le_n 2)) as (_ & _ & _ & H & Hf).
    apply (H (VStr "no")); [|reflexivity].
    apply (Hf None [] (Lit (VStr "no")) eq_refl).
Defined.

(** [Promize.reject("e").catch(r => r)] *)
Lemma catch_handler_decides_witness :
  let script := let! p := reject (VStr "e") in
                then_ p VUndefined (VFun (Arrow None [] (Return Param))) in
  state_of (run 2 (exec script empty_world)) 1%nat = FULFILLED /\
  value_of (run 2 (exec script empty_world)) 1%nat = VStr "e".
Proof.
  destruct (catch_handler_decides empty_world (VStr "e") VUndefined
              (Arrow None [] (Return Param)) 2
              eq_refl eq_refl (le_n 2)) as (_ & _ & H & _ & Hf).
  apply (H (VStr "e")); [|reflexivity].
  apply (Hf None [] Param eq_refl).
Defined.

(** [Promize.resolve(1).finally(console.log)] and
    [Promize.resolve(1).finally(() => { throw "late" })]. *)
Lemma finally_passes_outcome_witness :
  let script cb := let! p := resolve (VNum 1) in finally p cb in
  let raising := Arrow None [] (Raise (Lit (VStr "late"))) in
  state_of (run 2 (exec (script ConsoleLog) empty_world)) 1%nat = FULFILLED /\
  value_of (run 2 (exec (script ConsoleLog) empty_world)) 1%nat = VNum 1 /\
  console (run 1 (exec (script ConsoleLog) empty_world)) = [[]] /\
  state_of (run 2 (exec (script raising) empty_world)) 1%nat = REJECTED /\
  value_of (run 2 (exec (script raising) empty_world)) 1%nat = VStr "late".
Proof.
  destruct (finally_passes_outcome empty_world (VNum 1) ConsoleLog 2
              eq_refl eq_refl (le_n 2)) as (_ & _ & H & _ & Hc & _).
  destruct (H VUndefined (returns_console_log [])) as [[Hs Hv] _].
  destruct (Hc eq_refl) as [Hc1 _].
  destruct (finally_passes_outcome empty_world (VNum 1)
              (Arrow None [] (Raise (Lit (VStr "late")))) 2
              eq_refl eq_refl (le_n 2)) as (_ & _ & _ & Hr & _ & Hf).
  destruct (Hr (VStr "late")
              (proj2 (Hf None [] (Lit (VStr "late")) eq_refl)) eq_refl) as [[Hs' Hv'] _].
  split; [exact Hs|]. split; [exact Hv|]. split; [exact Hc1|].
  split; [exact Hs'|exact Hv'].
Defined.

(** The job that [Promize.resolve(1)] queues, taken in its own world: the
    turn does not throw and consumes exactly that job. *)
Lemma microtask_never_throws_witness :
  let j := OnFulfilledJob 0%nat (VNum 1) in
  let w := exec (resolve (VNum 1)) empty_world in
  microtasks w = [j] /\
  eval (run_job j) w = Normal tt /\
  eval (executeCallbacks 0%nat) w = Normal tt /\
  exists js, microtasks (tick w) = [] ++ js.
Proof.
  intros j w.
  destruct (microtask_never_throws j w) as (H1 & _ & H3 & H4).
  split; [reflexivity|]. split; [exact H1|]. split; [exact (H3 0%nat)|].
  exact (H4 [] eq_refl).
Defined.

(** [Promize.resolve(1).then(console.log)] after its first queue turn:
    running the callbacks of the settled instance a second time changes
    nothing. *)
Lemma executeCallbacks_runs_callbacks_once_witness :
  let w := exec (let! p := resolve (VNum 1) in
                 then_ p (VFun ConsoleLog) VUndefined) empty_world in
  exec (executeCallbacks 0%nat) (exec (executeCallbacks 0%nat) w) =
    exec (executeCallbacks 0%nat) w.
Proof.
  intros w. exact (executeCallbacks_runs_callbacks_once w 0%nat).
Defined.

(** The world after [Promize.resolve(1)], a handler that calls [then]
    again, and three queue turns. *)
Lemma reachable_worlds_are_tidy_witness :
  let again := Arrow None [CallThen 0%nat VUndefined VUndefined] (Return Param) in
  let w := perform_all [AResolve (VNum 1); AThen 0%nat (VFun again) VUndefined;
                        ATick; ATick; ATick] empty_world in
  state_of w 0%nat = FULFILLED /\
  plain (value_of w 0%nat) /\
  thenCallbacks (get_promize w 0%nat) = [].
Proof.
  intros again w.
  destruct (reachable_worlds_are_tidy
              [AResolve (VNum 1); AThen 0%nat (VFun again) VUndefined;
               ATick; ATick; ATick] 0%nat) as (_ & H2 & H3 & _).
  assert (Hs : state_of w 0%nat = FULFILLED) by (vm_compute; reflexivity).
  split; [exact Hs|]. split; [|exact (H3 Hs)].
  apply H2. fold w. rewrite Hs. discriminate.
Defined.

(** [Promize.reject("e")] called in the world after [Promize.resolve(1)]
    and its queue turn: instance 0 keeps its outcome. *)
Lemma settlement_happens_only_in_queue_turns_witness :
  let w := run 1 (exec (resolve (VNum 1)) empty_world) in
  let w' := perform (AReject (VStr "e")) w in
  state_of w' 0%nat = state_of w 0%nat /\
  value_of w' 0%nat = value_of w 0%nat /\
  (exists js, microtasks w' = microtasks w ++ js) /\
  (length (heap w) <= length (heap w'))%nat.
Proof.
  intros w w'.
  destruct (settlement_happens_only_in_queue_turns (AReject (VStr "e")) w 0%nat)
    as (H1 & _ & H3).
  assert (Ha : AReject (VStr "e") <> ATick) by discriminate.
  destruct (H1 Ha) as (Hs & Hv & Hq).
  split; [exact Hs|]. split; [exact Hv|]. split; [exact Hq|exact H3].
Defined.
